(** * exam2quiz: the question categorizer (scripts/categorize_questions.py)

    A shallow embedding of the categorizer: the response parser
    [extract_json_from_response], the retry loop [categorize_question] with
    the category validation it contains, the collecting loop of
    [categorize_all_questions] with its checkpoint writer [save_results], and
    the option table of [main].

    Python [str] values are Rocq strings holding their UTF-8 encoding:
    equality and the substring test agree on both views, and the places where
    the code counts characters or tests for whitespace decode the bytes.
    What the script takes from libraries and from the outside world is a
    variable of the development: [json.loads], [str.lower], the replies of
    the classification service, and what [open] and [json.dump] do with a
    file. [parse_args] is library code too: [main] is taken from the
    namespace it returns. *)

From Stdlib Require Import ZArith QArith String Ascii List Bool Lia Permutation Sorted DecimalString.
From stdpp Require Import base option list gmap strings.

Open Scope string_scope.
Open Scope list_scope.
Set Warnings "-register-all".

(** ** Python values and dictionaries *)

(** The values [json.loads] produces. A float is kept as its [repr]. *)
Inductive pyval : Type :=
| PNone
| PBool (b : bool)
| PInt (n : Z)
| PFloat (repr : string)
| PStr (s : string)
| PList (items : list pyval)
| PDict (items : list (string * pyval)).

(** A [dict] with string keys, in insertion order. *)
Definition dict : Type := list (string * pyval).

Fixpoint dict_get (d : dict) (k : string) : option pyval :=
  match d with
  | [] => None
  | (k', v) :: d' => if String.eqb k' k then Some v else dict_get d' k
  end.

(** [d[k] = v]: an existing key keeps its place, a new one goes last. *)
Fixpoint dict_set (d : dict) (k : string) (v : pyval) : dict :=
  match d with
  | [] => [(k, v)]
  | (k', v') :: d' =>
      if String.eqb k' k then (k, v) :: d' else (k', v') :: dict_set d' k v
  end.

Definition type_name (v : pyval) : string :=
  match v with
  | PNone => "NoneType"
  | PBool _ => "bool"
  | PInt _ => "int"
  | PFloat _ => "float"
  | PStr _ => "str"
  | PList _ => "list"
  | PDict _ => "dict"
  end.

(** ** Exceptions *)

(** The classes the [except] clauses of the script tell apart:
    [JSONDecodeError] is a subclass of [ValueError]; everything else that
    derives from [Exception] falls under the last clause. *)
Inductive exn_class : Type :=
| JSONDecodeError
| ValueError
| AttributeError
| OtherException.

Record exn : Type := Exn { exn_kind : exn_class; exn_str : string }.

(** [isinstance(e, (json.JSONDecodeError, ValueError))] *)
Definition is_value_error (e : exn) : bool :=
  match exn_kind e with
  | JSONDecodeError | ValueError => true
  | AttributeError | OtherException => false
  end.

Inductive result (A : Type) : Type :=
| Returns (a : A)
| Raises (e : exn).
Arguments Returns {A} a.
Arguments Raises {A} e.

Definition bind {A B : Type} (r : result A) (k : A -> result B) : result B :=
  match r with
  | Returns a => k a
  | Raises e => Raises e
  end.

Notation "x <-- r ;; k" := (bind r (fun x => k))
  (at level 100, r at next level, right associativity).

Definition attribute_error (v : pyval) (attr : string) : exn :=
  Exn AttributeError
    ("'" +:+ type_name v +:+ "' object has no attribute '" +:+ attr +:+ "'").

(** [v.get(k, default)]: only a dict has the method. *)
Definition py_get (v : pyval) (k : string) (default : pyval) : result pyval :=
  match v with
  | PDict d => Returns (match dict_get d k with Some x => x | None => default end)
  | _ => Raises (attribute_error v "get")
  end.

(** ** Strings *)

(** [s.startswith(p)] *)
Fixpoint is_prefix (p s : string) : bool :=
  match p, s with
  | EmptyString, _ => true
  | String x p', String y s' => Ascii.eqb x y && is_prefix p' s'
  | String _ _, EmptyString => false
  end.

(** [a in b] *)
Fixpoint is_infix (a b : string) : bool :=
  is_prefix a b ||
  match b with
  | EmptyString => false
  | String _ b' => is_infix a b'
  end.

Definition is_empty (s : string) : bool :=
  match s with
  | EmptyString => true
  | String _ _ => false
  end.

Fixpoint drop_bytes (n : nat) (s : string) : string :=
  match n, s with
  | S n', String _ s' => drop_bytes n' s'
  | _, _ => s
  end.

(** A byte [10xxxxxx] continues the character begun before it. *)
Definition is_continuation (a : ascii) : bool :=
  (128 <=? nat_of_ascii a)%nat && (nat_of_ascii a <? 192)%nat.

(** [s[:n]], counting characters. *)
Fixpoint slice_to (n : nat) (s : string) : string :=
  match s with
  | EmptyString => EmptyString
  | String a s' =>
      if is_continuation a then String a (slice_to n s')
      else match n with
           | O => EmptyString
           | S n' => String a (slice_to n' s')
           end
  end.

(** The characters [str.isspace] accepts (and [\s] matches), UTF-8 encoded:
    U+0009..U+000D, U+001C..U+0020, U+0085, U+00A0, U+1680, U+2000..U+200A,
    U+2028, U+2029, U+202F, U+205F, U+3000. *)
Definition whitespace : list (list nat) :=
  [[9]; [10]; [11]; [12]; [13]; [28]; [29]; [30]; [31]; [32];
   [194; 133]; [194; 160]; [225; 154; 128];
   [226; 128; 128]; [226; 128; 129]; [226; 128; 130]; [226; 128; 131];
   [226; 128; 132]; [226; 128; 133]; [226; 128; 134]; [226; 128; 135];
   [226; 128; 136]; [226; 128; 137]; [226; 128; 138];
   [226; 128; 168]; [226; 128; 169]; [226; 128; 175]; [226; 129; 159];
   [227; 128; 128]]%nat.

Fixpoint starts_with (p bs : list nat) : bool :=
  match p, bs with
  | [], _ => true
  | x :: p', y :: bs' => (x =? y)%nat && starts_with p' bs'
  | _ :: _, [] => false
  end.

(** Bytes of the whitespace character at the head of [bs]; 0 when there is
    none. [pats] is [whitespace], or its encodings reversed to read a string
    from its end. *)
Definition space_width (pats : list (list nat)) (bs : list nat) : nat :=
  match List.find (fun p => starts_with p bs) pats with
  | Some p => length p
  | None => O
  end.

(** Drop the leading whitespace of [bs]; [skip] bytes of a character already
    recognised are still to be dropped. *)
Fixpoint skip_spaces (pats : list (list nat)) (skip : nat) (bs : list nat) : list nat :=
  match bs with
  | [] => []
  | b :: bs' =>
      match skip with
      | S k => skip_spaces pats k bs'
      | O =>
          match space_width pats bs with
          | O => bs
          | S k => skip_spaces pats k bs'
          end
      end
  end.

Definition bytes_of (s : string) : list nat := List.map nat_of_ascii (list_ascii_of_string s).
Definition of_bytes (bs : list nat) : string := string_of_list_ascii (List.map ascii_of_nat bs).

Definition lstrip (s : string) : string :=
  of_bytes (skip_spaces whitespace 0 (bytes_of s)).

Definition rstrip (s : string) : string :=
  of_bytes (rev (skip_spaces (List.map (@rev nat) whitespace) 0 (rev (bytes_of s)))).

(** [s.strip()] *)
Definition strip (s : string) : string := rstrip (lstrip s).

(** The text before and after the leftmost occurrence of [pat]. *)
Fixpoint split_first (pat s : string) : option (string * string) :=
  if is_prefix pat s then Some (EmptyString, drop_bytes (String.length pat) s)
  else match s with
       | EmptyString => None
       | String a s' =>
           match split_first pat s' with
           | Some (before, after) => Some (String a before, after)
           | None => None
           end
       end.

(** The text before the last occurrence of the byte [c]. *)
Fixpoint upto_last (c : ascii) (s : string) : option string :=
  match s with
  | EmptyString => None
  | String a s' =>
      match upto_last c s' with
      | Some p => Some (String a p)
      | None => if Ascii.eqb a c then Some EmptyString else None
      end
  end.

(** Group 1 of the leftmost match of the fence pattern: three backquotes,
    an optional [json], whitespace, then as little as possible up to the next
    three backquotes. The greedy [json] and whitespace hold no backquote, so
    the first opening fence decides whether there is a match at all. *)
Definition search_code_block (text : string) : option string :=
  match split_first "```" text with
  | None => None
  | Some (_, rest) =>
      let rest := if is_prefix "json" rest then drop_bytes 4 rest else rest in
      match split_first "```" (lstrip rest) with
      | Some (body, _) => Some body
      | None => None
      end
  end.

(** Group 0 of the leftmost match of the brace pattern, which is greedy:
    from the first opening brace to the last closing brace after it. *)
Definition search_braces (text : string) : option string :=
  match split_first "{" text with
  | None => None
  | Some (_, rest) =>
      match upto_last "}" rest with
      | Some body => Some ("{" +:+ body +:+ "}")
      | None => None
      end
  end.

(** ** The taxonomy *)

Definition CATEGORIES : list string :=
  [ "Általános anatómia és kortan";
    "A mozgás szerv rendszere";
    "Keringés";
    "Légzőrendszer";
    "Idegrendszer";
    "Kiválasztás szervrendszere";
    "Szaporodás szervrendszere";
    "A neuroendokrin rendszer";
    "Az érzékszervek és emlő";
    "Elsősegélynyújtás";
    "Emésztés" ].

(** ** One question *)

(** What the retry loop does that can be observed from outside: the call to
    the service, the parse of its text, the validation of the parsed
    object, and the sleeps between attempts. *)
Inductive event : Type :=
| Classify (attempt : Z)
| Parse (text : string)
| Validate (parsed : pyval)
| Sleep (seconds : Q).

(** The service answers a call with a text or with an exception. *)
Inductive reply : Type :=
| Text (text : string)
| Fails (e : exn).

(** How one pass through the loop body ends. *)
Inductive control : Type :=
| Done (d : dict)
| Continue (delay : Q).

Definition success (category reasoning : pyval) : dict :=
  [("success", PBool true); ("category", category); ("reasoning", reasoning)].

Definition parse_failure (e : exn) (response : option string) : dict :=
  [("success", PBool false);
   ("error", PStr ("JSON parse error: " +:+ exn_str e));
   ("raw_response", match response with Some text => PStr text | None => PNone end)].

Definition failure (e : exn) : dict :=
  [("success", PBool false); ("error", PStr (exn_str e))].

Definition max_retries_exceeded : dict :=
  [("success", PBool false); ("error", PStr "Max retries exceeded")].

Section Categorizer.

(** [json.loads]: the decoded value, or the exception it raises. That is a
    [JSONDecodeError] for a text that is no JSON; the decoder can also raise
    others, a [RecursionError] on a text nested too deep or a plain
    [ValueError] on an integer of too many digits. *)
Variable json_loads : string -> exn + pyval.

(** [str.lower] *)
Variable lower : string -> string.

Definition loads (text : string) : result pyval :=
  match json_loads text with
  | inr v => Returns v
  | inl e => Raises e
  end.

(** Lines 132-154. The [except] of line 140 takes a [JSONDecodeError] and
    nothing else; the two calls further down stand in no [try]. *)
Definition extract_json_from_response (text : string) : result pyval :=
  if is_empty text then Raises (Exn ValueError "Empty response")
  else
    match json_loads text with
    | inr v => Returns v
    | inl e =>
        match exn_kind e with
        | JSONDecodeError =>
            match search_code_block text with
            | Some body => loads (strip body)
            | None =>
                match search_braces text with
                | Some span => loads span
                | None =>
                    Raises (Exn ValueError
                              ("Could not extract JSON from: " +:+ slice_to 100 text))
                end
            end
        | _ => Raises e
        end
    end.

(** The test of line 201. *)
Definition matches (cat category : string) : bool :=
  is_infix (lower cat) (lower category) || is_infix (lower category) (lower cat).

(** The loop of lines 200-203: the first category that matches replaces
    the label; with none the label stays. *)
Fixpoint closest_match (cats : list string) (category : string) : string :=
  match cats with
  | [] => category
  | cat :: cats' =>
      if matches cat category then cat else closest_match cats' category
  end.

(** [category in CATEGORIES] *)
Definition in_categories (category : string) : bool :=
  existsb (String.eqb category) CATEGORIES.

(** Lines 198-203 on a label that is a string. *)
Definition validate_label (category : string) : string :=
  if in_categories category then category else closest_match CATEGORIES category.

(** Lines 198-203. A value that is no string equals no category, and the
    first test of the loop calls its [lower]. *)
Definition validate_category (category : pyval) : result pyval :=
  match category with
  | PStr s => Returns (PStr (validate_label s))
  | v => Raises (attribute_error v "lower")
  end.

(** Lines 196-209. *)
Definition validated (parsed : pyval) : result dict :=
  category <-- py_get parsed "category" (PStr EmptyString) ;;
  category <-- validate_category category ;;
  reasoning <-- py_get parsed "reasoning" (PStr EmptyString) ;;
  Returns (success category reasoning).

(** The [try] block of lines 178-209 in attempt [attempt]: what it returns
    or raises, the binding of the local [response] after it, and what it
    did. [response] is assigned only when the call returns. *)
Definition attempt_body (service : Z -> reply) (attempt : Z) (response : option string)
  : result dict * option string * list event :=
  match service attempt with
  | Fails e => (Raises e, response, [Classify attempt])
  | Text text =>
      match extract_json_from_response text with
      | Raises e => (Raises e, Some text, [Classify attempt; Parse text])
      | Returns parsed =>
          (validated parsed, Some text, [Classify attempt; Parse text; Validate parsed])
      end
  end.

(** The [except] clauses of lines 211-227. *)
Definition on_exception (max_retries attempt : Z) (response : option string) (e : exn)
  : control :=
  if is_value_error e then
    if (attempt <? max_retries - 1)%Z then Continue (1 # 2)
    else Done (parse_failure e response)
  else
    if is_infix "429" (exn_str e) && (attempt <? max_retries - 1)%Z
    then Continue (inject_Z ((attempt + 1) * 2))
    else Done (failure e).

(** The loop of lines 177-227 from attempt [attempt] on, [fuel] passes
    left. [None] when the loop runs out without a [return]; otherwise the
    attempt that returned and its result. *)
Fixpoint attempts (service : Z -> reply) (max_retries : Z) (fuel : nat) (attempt : Z)
    (response : option string) : option (Z * dict) * list event :=
  match fuel with
  | O => (None, [])
  | S fuel' =>
      let '(r, response', evs) := attempt_body service attempt response in
      match r with
      | Returns d => (Some (attempt, d), evs)
      | Raises e =>
          match on_exception max_retries attempt response' e with
          | Done d => (Some (attempt, d), evs)
          | Continue delay =>
              let '(out, evs') :=
                attempts service max_retries fuel' (attempt + 1)%Z response' in
              (out, evs ++ Sleep delay :: evs')
          end
      end
  end.

(** [for attempt in range(max_retries)] *)
Definition retry_loop (service : Z -> reply) (max_retries : Z)
  : option (Z * dict) * list event :=
  attempts service max_retries (Z.to_nat max_retries) 0%Z None.

(** Lines 157-229. The prompt is the same in every attempt of one
    question, so the replies of the service to it are given by attempt.
    The two [get]s before the loop are outside any [try]. *)
Definition categorize_question (question : dict) (service : Z -> reply) (max_retries : Z)
  : result dict * list event :=
  let data := match dict_get question "data" with Some v => v | None => PDict [] end in
  match (question_text <-- py_get data "question_text" (PStr EmptyString) ;;
         correct_answer <-- py_get data "correct_answer" (PStr EmptyString) ;;
         Returns (question_text, correct_answer)) with
  | Raises e => (Raises e, [])
  | Returns _ =>
      let '(out, evs) := retry_loop service max_retries in
      (Returns (match out with
                | Some (_, d) => d
                | None => max_retries_exceeded
                end), evs)
  end.

End Categorizer.

(** ** All questions *)

(** The records are dict objects that [questions] and the result slots
    refer to: the store maps an object's address to its current content. *)
Definition deref (heap : gmap nat dict) (q : nat) : dict :=
  match heap !! q with
  | Some d => d
  | None => []
  end.

(** How opening a file with mode [w] and dumping a list of records into it
    ends: the whole dump is in the file; or [open] raises and the file is as
    it was; or [json.dump] raises on the way, as the encoder of the file does
    on a string with a lone surrogate, and the file is left with a beginning
    of the dump. *)
Inductive write_outcome : Type :=
| Written
| OpenFails (e : exn)
| DumpFails (e : exn).

(** A file as the run leaves it: not opened; holding a whole dump; holding
    a beginning of the dump of [content]; or holding something that is no
    dump at all. *)
Inductive file_state : Type :=
| Untouched
| Dumped (content : list dict)
| Cut (content : list dict)
| Spoiled.

(** What the pool notes as it goes: a dump that went in whole, and the
    progress line of line 275. *)
Inductive pool_event : Type :=
| Saved (content : list dict)
| Progress (done total : nat).

Record pool_state : Type := PoolState {
  heap : gmap nat dict;
  results : list (option nat);
  completed : nat;
  output_file : file_state;
  pool_log : list pool_event
}.

(** [[r for r in results if r is not None]] *)
Fixpoint current_results (results : list (option nat)) : list nat :=
  match results with
  | [] => []
  | Some r :: rest => r :: current_results rest
  | None :: rest => current_results rest
  end.

(** Lines 245-251; [dump] is what lines 250-251 do with the list they are
    given. The file opened with mode [w] holds nothing of what it held
    before. A dump that went in whole is noted in the log of the pool as
    [Saved]. *)
Definition save_results (dump : list dict -> write_outcome) (st : pool_state)
  : pool_state * option exn :=
  let content := List.map (deref (heap st)) (current_results (results st)) in
  match dump content with
  | Written =>
      ({| heap := heap st;
          results := results st;
          completed := completed st;
          output_file := Dumped content;
          pool_log := pool_log st ++ [Saved content] |}, None)
  | OpenFails e => (st, Some e)
  | DumpFails e =>
      ({| heap := heap st;
          results := results st;
          completed := completed st;
          output_file := Cut content;
          pool_log := pool_log st |}, Some e)
  end.

Definition log_progress (total : nat) (st : pool_state) : pool_state :=
  {| heap := heap st;
     results := results st;
     completed := completed st;
     output_file := output_file st;
     pool_log := pool_log st ++ [Progress (completed st) total] |}.

(** [d["categorization"] = cat_result] on the object at [q]. *)
Definition attach (cat_result : dict) (q : nat) (heap : gmap nat dict) : gmap nat dict :=
  alter (fun d => dict_set d "categorization" (PDict cat_result)) q heap.

(** The body of the loop of lines 260-275 for the future of index [idx];
    [futures] holds, by index, how each submitted task ends. Every index the
    loop sees comes from [enumerate(questions)]. The save of line 274 stands
    after the [try] of lines 262-268, so what it raises leaves the loop. *)
Definition collect (dump : list dict -> write_outcome) (questions : list nat)
    (futures : list (result dict)) (st : pool_state) (idx : nat)
  : pool_state * option exn :=
  match questions !! idx, futures !! idx with
  | Some q, Some r =>
      let cat_result :=
        match r with
        | Returns d => d
        | Raises e => failure e
        end in
      let st' :=
        {| heap := attach cat_result q (heap st);
           results := <[idx := Some q]> (results st);
           completed := S (completed st);
           output_file := output_file st;
           pool_log := pool_log st |} in
      if (completed st' mod 10 =? 0)%nat || (completed st' =? length questions)%nat
      then
        match save_results dump st' with
        | (saved, None) => (log_progress (length questions) saved, None)
        | (cut, Some e) => (cut, Some e)
        end
      else (st', None)
  | _, _ => (st, None)
  end.

(** The loop of line 260 over the futures in the order they complete, up to
    the first exception that leaves it. *)
Fixpoint collect_loop (dump : list dict -> write_outcome) (questions : list nat)
    (futures : list (result dict)) (st : pool_state) (order : list nat)
  : pool_state * option exn :=
  match order with
  | [] => (st, None)
  | idx :: rest =>
      match collect dump questions futures st idx with
      | (st', None) => collect_loop dump questions futures st' rest
      | (st', Some e) => (st', Some e)
      end
  end.

Definition initial (heap0 : gmap nat dict) (questions : list nat) : pool_state :=
  {| heap := heap0;
     results := replicate (length questions) None;
     completed := 0;
     output_file := Untouched;
     pool_log := [] |}.

Section Dispatcher.

Variable json_loads : string -> exn + pyval.
Variable lower : string -> string.

(** What lines 250-251 do with the list of records they are given, on the
    output file of the run. *)
Variable dump : list dict -> write_outcome.

(** The tasks of line 255, by index: [max_retries] keeps its default. A
    task reads its record's [data] and nothing else, and the collecting
    loop writes [categorization] and nothing else, so each task is taken
    on the record as it is at submission. *)
Definition submit (heap0 : gmap nat dict) (questions : list nat)
    (services : nat -> Z -> reply) : list (result dict) :=
  imap (fun i q => fst (categorize_question json_loads lower (deref heap0 q) (services i) 3))
       questions.

(** The pool at the end of the [with] block of lines 253-275: the state the
    collecting loop leaves, and the exception that left it, if any. *)
Definition pool_run (heap0 : gmap nat dict) (questions : list nat)
    (services : nat -> Z -> reply) (order : list nat) : pool_state * option exn :=
  collect_loop dump questions (submit heap0 questions services)
               (initial heap0 questions) order.

(** Lines 232-277. [order] is the order in which [as_completed] yields
    the futures; the pool refuses a size below one. *)
Definition categorize_all_questions (heap0 : gmap nat dict) (questions : list nat)
    (services : nat -> Z -> reply) (workers : Z) (order : list nat)
  : result pool_state :=
  if (workers <=? 0)%Z
  then Raises (Exn ValueError "max_workers must be greater than 0")
  else
    match pool_run heap0 questions services order with
    | (st, None) => Returns st
    | (_, Some e) => Raises e
    end.

End Dispatcher.

(** ** Paths, options and the script *)

(** A pure POSIX path: its root and its components. *)
Record path : Type := Path { root : string; parts : list string }.

Fixpoint split_on (c : ascii) (s : string) : list string :=
  match s with
  | EmptyString => [EmptyString]
  | String a s' =>
      if Ascii.eqb a c then EmptyString :: split_on c s'
      else match split_on c s' with
           | [] => [String a EmptyString]
           | x :: xs => String a x :: xs
           end
  end.

(** [Path(s)]: empty components and single dots vanish; exactly two leading
    slashes are kept, any other number is one. *)
Definition path_of_string (s : string) : path :=
  let keep x := negb (is_empty x) && negb (String.eqb x ".") in
  {| root := if is_prefix "//" s && negb (is_prefix "///" s) then "//"
             else if is_prefix "/" s then "/" else EmptyString;
     parts := List.filter keep (split_on "/" s) |}.

Definition path_name (p : path) : string := List.last (parts p) EmptyString.

(** [name.rfind('.')], when the dot is neither first nor last in the name. *)
Definition suffix_dot (name : string) : option string :=
  match upto_last "." name with
  | Some stem =>
      if is_empty stem || (String.length stem + 1 =? String.length name)%nat
      then None else Some stem
  | None => None
  end.

Definition path_stem (p : path) : string :=
  match suffix_dot (path_name p) with
  | Some stem => stem
  | None => path_name p
  end.

Definition path_suffix (p : path) : string :=
  match suffix_dot (path_name p) with
  | Some stem => drop_bytes (String.length stem) (path_name p)
  | None => EmptyString
  end.

Fixpoint join (sep : string) (items : list string) : string :=
  match items with
  | [] => EmptyString
  | [x] => x
  | x :: rest => x +:+ sep +:+ join sep rest
  end.

(** [str(p)] *)
Definition path_str (p : path) : string :=
  if is_empty (root p) && match parts p with [] => true | _ => false end then "."
  else root p +:+ join "/" (parts p).

(** [p.with_stem(stem)], for a stem that is a valid name. *)
Definition with_stem (p : path) (stem : string) : result path :=
  if is_empty (path_name p)
  then Raises (Exn ValueError ("PosixPath('" +:+ path_str p +:+ "') has an empty name"))
  else Returns {| root := root p;
                  parts := removelast (parts p) ++ [stem +:+ path_suffix p] |}.

Inductive arg_type : Type := AsStr | AsInt | AsPath.

Inductive arg_value : Type :=
| VStr (s : string)
| VInt (n : Z)
| VPath (p : path)
| VBool (b : bool).

Inductive arg_action : Type :=
| Positional (ty : arg_type)
| Store (ty : arg_type) (default : arg_value)
| StoreTrue.

Record argument : Type := Argument {
  flags : list string;
  dest : string;
  action : arg_action
}.

(** The [add_argument] calls of lines 292-298: the names, the option
    strings, the types and the defaults that the parser is given. *)
Definition arguments : list argument :=
  [ Argument ["input"] "input" (Positional AsPath);
    Argument ["-m"; "--model"] "model" (Store AsStr (VStr "gemini-3-flash-preview"));
    Argument ["-o"; "--output"] "output"
             (Store AsPath (VPath (path_of_string "categorized_questions.json")));
    Argument ["-w"; "--workers"] "workers" (Store AsInt (VInt 10));
    Argument ["-l"; "--log"] "log" (Store AsPath (VPath (path_of_string "categorizer.log")));
    Argument ["--merge-only"] "merge_only" StoreTrue ].

Definition is_digit (a : ascii) : bool :=
  (48 <=? nat_of_ascii a)%nat && (nat_of_ascii a <=? 57)%nat.

Fixpoint digits_value (acc : Z) (s : string) : Z :=
  match s with
  | EmptyString => acc
  | String a s' => digits_value (10 * acc + Z.of_nat (nat_of_ascii a - 48)) s'
  end.

(** The defaults of the options, by name: what the namespace holds for an
    option that the command line does not give. *)
Definition defaults : gmap string arg_value :=
  foldr (fun a ns =>
           match action a with
           | Store _ d => <[dest a := d]> ns
           | StoreTrue => <[dest a := VBool false]> ns
           | Positional _ => ns
           end) ∅ arguments.

(** How [main] ends once [parse_args] has returned: with [sys.exit] after
    the error logged, with an exception, or after its output. *)
Inductive main_end : Type :=
| Exit (status : Z) (message : string)
| Uncaught (e : exn)
| MergedOnly (file : path) (content : list dict)
| Categorized (st : pool_state).

(** [a or b] on two environment lookups, then [not api_key]. *)
Definition api_key (env : gmap string string) : option string :=
  let truthy o := match o with Some s => negb (is_empty s) | None => false end in
  if truthy (env !! "GOOGLE_API_KEY") then env !! "GOOGLE_API_KEY"
  else if truthy (env !! "GEMINI_API_KEY") then env !! "GEMINI_API_KEY"
  else None.

(** What is left of a file that [main] writes when the log of the run is
    that same file. The handler of line 92 opened it with mode [w] before
    and writes each message at the place it has reached, so after a whole
    dump the file holds the dump together with log lines, and where nothing
    was dumped it holds log lines. A dump that raised is followed by no
    message. *)
Definition logged_over (same : bool) (file : file_state) : file_state :=
  if same then
    match file with
    | Cut content => Cut content
    | _ => Spoiled
    end
  else file.

Section Main.

Variable json_loads : string -> exn + pyval.
Variable lower : string -> string.

(** What lines 250-251, and lines 315-316, do with the list of records they
    are given, by the file they write. *)
Variable write : path -> list dict -> write_outcome.

(** Whether two paths name one file. *)
Variable same_file : path -> path -> bool.

(** Lines 301-350 on the namespace [args] that [parse_args] returned, the
    summary apart: how the script ends, and the file it wrote to with what
    the run leaves in it. [heap0] and [questions] are what
    [merge_parsed_files] built from the input folder. The log file of line
    302 is taken to open. The parser leaves a path, a boolean, a path and an
    integer under the four names read here, so the last branch is never
    taken. *)
Definition main (args : gmap string arg_value) (env : gmap string string)
    (heap0 : gmap nat dict) (questions : list nat)
    (services : nat -> Z -> reply) (order : list nat)
  : main_end * option (path * file_state) :=
  match args !! "log", args !! "merge_only", args !! "output", args !! "workers" with
  | Some (VPath log), Some (VBool merge_only), Some (VPath output), Some (VInt workers) =>
      match questions with
      | [] => (Exit 1 "No questions found to process", None)
      | _ :: _ =>
          if merge_only then
            match with_stem output (path_stem output +:+ "_merged") with
            | Raises e => (Uncaught e, None)
            | Returns merged_output =>
                let content := List.map (deref heap0) questions in
                let over := logged_over (same_file log merged_output) in
                match write merged_output content with
                | Written =>
                    (MergedOnly merged_output content,
                     Some (merged_output, over (Dumped content)))
                | OpenFails e => (Uncaught e, Some (merged_output, over Untouched))
                | DumpFails e => (Uncaught e, Some (merged_output, over (Cut content)))
                end
            end
          else
            match api_key env with
            | None =>
                (Exit 1 "GOOGLE_API_KEY not set. Get key at: https://aistudio.google.com/apikey",
                 None)
            | Some _ =>
                (match categorize_all_questions json_loads lower (write output) heap0
                         questions services workers order with
                 | Raises e => Uncaught e
                 | Returns st => Categorized st
                 end,
                 if (workers <=? 0)%Z then None
                 else Some (output,
                            logged_over (same_file log output)
                              (output_file (fst (pool_run json_loads lower (write output)
                                                   heap0 questions services order)))))
            end
      end
  | _, _, _, _ => (Uncaught (Exn AttributeError "Namespace"), None)
  end.

End Main.

(** ** Library functions at the inputs of the examples *)

(** [str.lower] on text in the Hungarian alphabet: the ASCII capitals, the
    capitals U+00C0..U+00DE but for the multiplication sign, and the two
    long umlauts U+0150 and U+0170. Other characters are left alone. *)
Fixpoint lower_hu (s : string) : string :=
  match s with
  | EmptyString => EmptyString
  | String a s' =>
      let n := nat_of_ascii a in
      if (65 <=? n)%nat && (n <=? 90)%nat
      then String (ascii_of_nat (n + 32)) (lower_hu s')
      else
        match s' with
        | EmptyString => String a EmptyString
        | String b s'' =>
            let m := nat_of_ascii b in
            if (n =? 195)%nat && (128 <=? m)%nat && (m <=? 158)%nat && negb (m =? 151)%nat
            then String a (String (ascii_of_nat (m + 32)) (lower_hu s''))
            else if (n =? 197)%nat && ((m =? 144)%nat || (m =? 176)%nat)
            then String a (String (ascii_of_nat (m + 1)) (lower_hu s''))
            else String a (lower_hu s')
        end
  end.

Definition dquote : ascii := "034"%char.

(** A JSON text is written here with [quoted] strings. *)
Definition quoted (s : string) : string :=
  String dquote s +:+ String dquote EmptyString.

Module Json.

(** [json.loads] on the JSON texts whose numbers are integers and whose
    [u] escapes have their four hexadecimal digits: the decoder of the
    examples. Texts outside that fragment are reported as [Unsupported]. A
    [str] is held as the bytes of UTF-8, and a lone surrogate, which UTF-8
    does not encode, as the three bytes that its scheme would give it. *)

Inductive error_kind : Type :=
| ExpectingValue
| ExpectingName
| ExpectingColon
| ExpectingComma
| ExtraData
| Unterminated
| InvalidControl
| InvalidEscape
| Unsupported.

Definition error : Type := (error_kind * nat)%type.

Definition is_ws (a : ascii) : bool :=
  let n := nat_of_ascii a in
  (n =? 32)%nat || (n =? 9)%nat || (n =? 10)%nat || (n =? 13)%nat.

Fixpoint skip_ws (s : string) (pos : nat) : string * nat :=
  match s with
  | String a s' => if is_ws a then skip_ws s' (S pos) else (s, pos)
  | EmptyString => (s, pos)
  end.

Definition unescape (a : ascii) : option ascii :=
  match nat_of_ascii a with
  | 34 => Some dquote
  | 92 => Some "\"%char
  | 47 => Some "/"%char
  | 98 => Some "008"%char
  | 102 => Some "012"%char
  | 110 => Some "010"%char
  | 114 => Some "013"%char
  | 116 => Some "009"%char
  | _ => None
  end%nat.

Definition hex_value (a : ascii) : option N :=
  let n := N_of_ascii a in
  if (48 <=? n)%N && (n <=? 57)%N then Some (n - 48)%N
  else if (65 <=? n)%N && (n <=? 70)%N then Some (n - 55)%N
  else if (97 <=? n)%N && (n <=? 102)%N then Some (n - 87)%N
  else None.

Definition hex4 (a b c d : ascii) : option N :=
  match hex_value a, hex_value b, hex_value c, hex_value d with
  | Some x, Some y, Some z, Some w => Some (((x * 16 + y) * 16 + z) * 16 + w)%N
  | _, _, _, _ => None
  end.

Definition bytes (l : list N) : string :=
  fold_right (fun n s => String (ascii_of_N n) s) EmptyString l.

(** The bytes of the character [n] in the scheme of UTF-8. *)
Definition utf8 (n : N) : string :=
  if (n <? 128)%N then bytes [n]
  else if (n <? 2048)%N then bytes [192 + n / 64; 128 + n mod 64]%N
  else if (n <? 65536)%N
  then bytes [224 + n / 4096; 128 + (n / 64) mod 64; 128 + n mod 64]%N
  else bytes [240 + n / 262144; 128 + (n / 4096) mod 64; 128 + (n / 64) mod 64;
              128 + n mod 64]%N.

(** A high surrogate followed by a low one is the character of the pair. A
    text holds no surrogate of its own, so two that meet in a string come
    from two escapes that the decoder reads as one pair. *)
Fixpoint pair_surrogates (s : string) : string :=
  match s with
  | EmptyString => EmptyString
  | String a s1 =>
      match s1 with
      | String b (String c (String d (String e (String f rest)))) =>
          let '(na, nb, nc) := (N_of_ascii a, N_of_ascii b, N_of_ascii c) in
          let '(nd, ne, nf) := (N_of_ascii d, N_of_ascii e, N_of_ascii f) in
          if (na =? 237)%N && (160 <=? nb)%N && (nb <=? 175)%N &&
             (nd =? 237)%N && (176 <=? ne)%N && (ne <=? 191)%N
          then utf8 (65536 + ((nb - 160) * 64 + (nc - 128)) * 1024
                     + ((ne - 176) * 64 + (nf - 128)))%N
               +:+ pair_surrogates rest
          else String a (pair_surrogates s1)
      | _ => String a (pair_surrogates s1)
      end
  end.

(** The body of a string whose opening quote stands at [start], each [u]
    escape taken alone. *)
Fixpoint scan_body (s : string) (pos start : nat) : error + (string * (string * nat)) :=
  match s with
  | EmptyString => inl (Unterminated, start)
  | String a s' =>
      if Ascii.eqb a dquote then inr (EmptyString, (s', S pos))
      else if Ascii.eqb a "\"%char then
        match s' with
        | EmptyString => inl (Unterminated, start)
        | String b s'' =>
            match unescape b with
            | None =>
                if Ascii.eqb b "u"%char then
                  match s'' with
                  | String h1 (String h2 (String h3 (String h4 rest))) =>
                      match hex4 h1 h2 h3 h4 with
                      | Some n =>
                          match scan_body rest (pos + 6) start with
                          | inr (str, after) => inr (utf8 n +:+ str, after)
                          | inl e => inl e
                          end
                      | None => inl (Unsupported, pos)
                      end
                  | _ => inl (Unsupported, pos)
                  end
                else inl (InvalidEscape, pos)
            | Some c =>
                match scan_body s'' (S (S pos)) start with
                | inr (str, rest) => inr (String c str, rest)
                | inl e => inl e
                end
            end
        end
      else if (nat_of_ascii a <? 32)%nat then inl (InvalidControl, pos)
      else
        match scan_body s' (S pos) start with
        | inr (str, rest) => inr (String a str, rest)
        | inl e => inl e
        end
  end.

(** The body of a string whose opening quote stands at [start]. *)
Definition scan_string (s : string) (pos start : nat) : error + (string * (string * nat)) :=
  match scan_body s pos start with
  | inr (str, rest) => inr (pair_surrogates str, rest)
  | inl e => inl e
  end.

Fixpoint span_digits (s : string) : string * string :=
  match s with
  | String a s' =>
      if is_digit a then let '(ds, rest) := span_digits s' in (String a ds, rest)
      else (EmptyString, s)
  | EmptyString => (EmptyString, s)
  end.

(** A fraction or an exponent follows: the number is a float. *)
Definition float_follows (s : string) : bool :=
  match s with
  | String "." (String d _) => is_digit d
  | String e (String d rest) =>
      (Ascii.eqb e "e" || Ascii.eqb e "E") &&
      (is_digit d ||
       ((Ascii.eqb d "+" || Ascii.eqb d "-") &&
        match rest with String d' _ => is_digit d' | EmptyString => false end))
  | _ => false
  end.

Definition scan_number (s : string) (pos : nat) : error + (pyval * (string * nat)) :=
  let '(neg, body) :=
    match s with
    | String "-" s' => (true, s')
    | _ => (false, s)
    end in
  let shift := if neg then 1%nat else 0%nat in
  match body with
  | String d body' =>
      if is_digit d then
        let '(ds, rest) :=
          if Ascii.eqb d "0" then (EmptyString, body') else span_digits body' in
        if float_follows rest then inl (Unsupported, pos)
        else
          let n := digits_value 0 (String d ds) in
          inr (PInt (if neg then - n else n)%Z,
               (rest, pos + shift + S (String.length ds))%nat)
      else inl (ExpectingValue, pos)
  | EmptyString => inl (ExpectingValue, pos)
  end.

Definition scan_literal (s : string) (pos : nat) : error + (pyval * (string * nat)) :=
  if is_prefix "null" s then inr (PNone, (drop_bytes 4 s, pos + 4)%nat)
  else if is_prefix "true" s then inr (PBool true, (drop_bytes 4 s, pos + 4)%nat)
  else if is_prefix "false" s then inr (PBool false, (drop_bytes 5 s, pos + 5)%nat)
  else if is_prefix "NaN" s || is_prefix "Infinity" s || is_prefix "-Infinity" s
  then inl (Unsupported, pos)
  else scan_number s pos.

Fixpoint scan_once (fuel : nat) (s : string) (pos : nat) {struct fuel}
  : error + (pyval * (string * nat)) :=
  match fuel with
  | O => inl (Unsupported, pos)
  | S fuel' =>
      match s with
      | EmptyString => inl (ExpectingValue, pos)
      | String a s' =>
          if Ascii.eqb a dquote then
            match scan_string s' (S pos) pos with
            | inr (str, rest) => inr (PStr str, rest)
            | inl e => inl e
            end
          else if Ascii.eqb a "{" then
            let '(s1, p1) := skip_ws s' (S pos) in
            match s1 with
            | String "}" s2 => inr (PDict [], (s2, S p1))
            | _ => scan_members fuel' s1 p1 []
            end
          else if Ascii.eqb a "[" then
            let '(s1, p1) := skip_ws s' (S pos) in
            match s1 with
            | String "]" s2 => inr (PList [], (s2, S p1))
            | _ => scan_items fuel' s1 p1 []
            end
          else scan_literal s pos
      end
  end
with scan_members (fuel : nat) (s : string) (pos : nat) (acc : dict) {struct fuel}
  : error + (pyval * (string * nat)) :=
  match fuel with
  | O => inl (Unsupported, pos)
  | S fuel' =>
      match s with
      | String a s' =>
          if Ascii.eqb a dquote then
            match scan_string s' (S pos) pos with
            | inl e => inl e
            | inr (key, (s1, p1)) =>
                let '(s2, p2) := skip_ws s1 p1 in
                match s2 with
                | String ":" s3 =>
                    let '(s4, p4) := skip_ws s3 (S p2) in
                    match scan_once fuel' s4 p4 with
                    | inl e => inl e
                    | inr (v, (s5, p5)) =>
                        let '(s6, p6) := skip_ws s5 p5 in
                        match s6 with
                        | String "}" s7 => inr (PDict (dict_set acc key v), (s7, S p6))
                        | String "," s7 =>
                            let '(s8, p8) := skip_ws s7 (S p6) in
                            scan_members fuel' s8 p8 (dict_set acc key v)
                        | _ => inl (ExpectingComma, p6)
                        end
                    end
                | _ => inl (ExpectingColon, p2)
                end
            end
          else inl (ExpectingName, pos)
      | EmptyString => inl (ExpectingName, pos)
      end
  end
with scan_items (fuel : nat) (s : string) (pos : nat) (acc : list pyval) {struct fuel}
  : error + (pyval * (string * nat)) :=
  match fuel with
  | O => inl (Unsupported, pos)
  | S fuel' =>
      match scan_once fuel' s pos with
      | inl e => inl e
      | inr (v, (s1, p1)) =>
          let '(s2, p2) := skip_ws s1 p1 in
          match s2 with
          | String "]" s3 => inr (PList (acc ++ [v]), (s3, S p2))
          | String "," s3 =>
              let '(s4, p4) := skip_ws s3 (S p2) in
              scan_items fuel' s4 p4 (acc ++ [v])
          | _ => inl (ExpectingComma, p2)
          end
      end
  end.

Definition describe (k : error_kind) : string :=
  match k with
  | ExpectingValue => "Expecting value"
  | ExpectingName => "Expecting property name enclosed in double quotes"
  | ExpectingColon => "Expecting ':' delimiter"
  | ExpectingComma => "Expecting ',' delimiter"
  | ExtraData => "Extra data"
  | Unterminated => "Unterminated string starting at"
  | InvalidControl => "Invalid control character at"
  | InvalidEscape => "Invalid \escape"
  | Unsupported => "outside the fragment"
  end.

Definition decimal (n : nat) : string := NilEmpty.string_of_uint (Nat.to_uint n).

(** Line, column and character index of the byte at offset [pos]. *)
Fixpoint locate (s : string) (pos line col char : nat) : nat * nat * nat :=
  match pos, s with
  | S pos', String a s' =>
      if Ascii.eqb a "010"%char then locate s' pos' (S line) 1 (S char)
      else if is_continuation a then locate s' pos' line col char
      else locate s' pos' line (S col) (S char)
  | _, _ => (line, col, char)
  end.

Definition message (text : string) (e : error) : string :=
  let '(line, col, char) := locate text (snd e) 1 1 0 in
  describe (fst e) +:+ ": line " +:+ decimal line +:+ " column " +:+ decimal col
    +:+ " (char " +:+ decimal char +:+ ")".

Definition loads (text : string) : exn + pyval :=
  let '(s0, p0) := skip_ws text 0 in
  match scan_once (S (String.length text)) s0 p0 with
  | inl e => inl (Exn JSONDecodeError (message text e))
  | inr (v, (s1, p1)) =>
      let '(s2, p2) := skip_ws s1 p1 in
      if is_empty s2 then inr v
      else inl (Exn JSONDecodeError (message text (ExtraData, p2)))
  end.

End Json.

(** ** A batch of three questions *)

(** The reply a well-behaved service gives: a JSON object with the two
    fields asked for. *)
Definition answer (category reasoning : string) : string :=
  "{" +:+ quoted "category" +:+ ": " +:+ quoted category +:+ ", "
      +:+ quoted "reasoning" +:+ ": " +:+ quoted reasoning +:+ "}".

Definition question_data (question_text correct_answer : string) : pyval :=
  PDict [("question_text", PStr question_text); ("correct_answer", PStr correct_answer)].

(** Three records: two as the merge step builds them, and one whose [data]
    is a string where a dict belongs. *)
Definition example_heap : gmap nat dict :=
  <[0%nat := [("file", PStr "q1.png"); ("success", PBool true);
              ("data", question_data "Hol van a szív?" "A mellkasban");
              ("source_folder", PStr "2019")]]>
  (<[1%nat := [("file", PStr "q2.png"); ("success", PBool true);
               ("data", PStr "scan failed")]]>
  (<[2%nat := [("file", PStr "q3.png"); ("success", PBool true);
               ("data", question_data "Mi a tüdő?" "Légzőszerv")]]> ∅)).

Definition example_questions : list nat := [0; 1; 2]%nat.

Definition too_many_requests : exn := Exn OtherException "429 RESOURCE_EXHAUSTED".

(** The service answers the first question at once and is rate limited
    whenever it is asked about another. *)
Definition example_services (i : nat) (attempt : Z) : reply :=
  match i with
  | O => Text (answer "Keringés" "heart")
  | _ => Fails too_many_requests
  end.

(** A client that finds its own reply malformed and says so with a
    [ValueError], whose message quotes the status of the reply. *)
Definition malformed_reply : exn :=
  Exn ValueError "1 validation error for GenerateContentResponse (status 429)".

Definition broken_client (attempt : Z) : reply := Fails malformed_reply.

(** A service that answers twice with prose and no JSON, and properly the
    third time. *)
Definition chatty_service (attempt : Z) : reply :=
  if (attempt <? 2)%Z then Text "Sure, here is the answer"
  else Text (answer "Keringés" "heart").

(** A reply with a fenced note before the object asked for. *)
Definition fenced_note : string :=
  "```note``` " +:+ answer "Keringés" "heart".

(** A reply that gives a reason and no category. *)
Definition reply_without_category : string :=
  "{" +:+ quoted "reasoning" +:+ ": " +:+ quoted "no idea" +:+ "}".

Definition could_not_extract : exn :=
  Exn ValueError "Could not extract JSON from: Sure, here is the answer".

(** A batch of [n] records that differ in their address only. *)
Definition batch (n : nat) : gmap nat dict :=
  list_to_map (List.map (fun i => (i, [("data", question_data "Mi a tüdő?" "Légzőszerv")]))
                        (seq 0 n)).

(** ** A file of the examples *)

(** A lone surrogate in a [str], kept here as the three bytes that the
    scheme of UTF-8 would give it: [ED], then a byte from [A0] on. No
    character that UTF-8 encodes begins so. *)
Fixpoint has_surrogate (s : string) : bool :=
  match s with
  | EmptyString => false
  | String a s' =>
      match s' with
      | String b _ => (nat_of_ascii a =? 237)%nat && (160 <=? nat_of_ascii b)%nat
      | EmptyString => false
      end || has_surrogate s'
  end.

(** The strings of a value, keys included, can be encoded as UTF-8. *)
Fixpoint encodable (v : pyval) : bool :=
  match v with
  | PStr s => negb (has_surrogate s)
  | PList items => forallb encodable items
  | PDict items =>
      (fix members (items : list (string * pyval)) : bool :=
         match items with
         | [] => true
         | (k, v') :: rest => negb (has_surrogate k) && encodable v' && members rest
         end) items
  | _ => true
  end.

Definition surrogates_not_allowed : exn :=
  Exn ValueError "'utf-8' codec can't encode character: surrogates not allowed".

(** The dump of lines 250-251 into a file that opens and has room: with
    [ensure_ascii=False] the strings go to the file as they are, and the
    encoding of the file refuses a lone surrogate with a
    [UnicodeEncodeError], which is a [ValueError] (its message is given
    here without the character and its place). *)
Definition dump_utf8 (content : list dict) : write_outcome :=
  if forallb (fun d => encodable (PDict d)) content then Written
  else DumpFails surrogates_not_allowed.

(** The same dump, whatever the path. *)
Definition write_utf8 (file : path) (content : list dict) : write_outcome :=
  dump_utf8 content.



(** The character U+D83D, half of a pair. *)
Definition lone_surrogate : string :=
  String (ascii_of_nat 237) (String (ascii_of_nat 160) (String (ascii_of_nat 189) EmptyString)).

(** A reply whose reasoning is cut in the middle of a pair. *)
Definition surrogate_reply : string := answer "Keringés" "\ud83d".


(** A service that is down, and gives that reply for the eleventh
    question. *)
Definition late_surrogate (i : nat) (attempt : Z) : reply :=
  if (i =? 10)%nat then Text surrogate_reply
  else Fails (Exn OtherException "503 UNAVAILABLE").

(** A service that is rate limited for every question. *)
Definition all_limited (i : nat) (attempt : Z) : reply := Fails too_many_requests.

(** A service that is down. *)
Definition unavailable (i : nat) (attempt : Z) : reply :=
  Fails (Exn OtherException "503 UNAVAILABLE").

(** ** The merge step (lines 106-129) *)

(** [bool(v)] *)
Definition py_truthy (v : pyval) : bool :=
  match v with
  | PNone => false
  | PBool b => b
  | PInt n => negb (n =? 0)%Z
  | PFloat repr => negb (String.eqb repr "0.0" || String.eqb repr "-0.0")
  | PStr s => negb (is_empty s)
  | PList items => match items with [] => false | _ :: _ => true end
  | PDict items => match items with [] => false | _ :: _ => true end
  end.

(** The characters of a [str], each with the bytes that encode it. *)
Fixpoint characters (s : string) : list string :=
  match s with
  | EmptyString => []
  | String a s' =>
      let rest := characters s' in
      match s', rest with
      | String b _, c :: cs =>
          if is_continuation b then String a c :: cs
          else String a EmptyString :: rest
      | _, _ => String a EmptyString :: rest
      end
  end.

(** [for q in v]: the items of a list, the keys of a dict, the characters
    of a string; any other value is not iterable. *)
Definition py_iter (v : pyval) : result (list pyval) :=
  match v with
  | PList items => Returns items
  | PDict items => Returns (List.map (fun kv => PStr (fst kv)) items)
  | PStr s => Returns (List.map PStr (characters s))
  | _ => Raises (Exn OtherException ("'" +:+ type_name v +:+ "' object is not iterable"))
  end.

(** [p.parent] *)
Definition path_parent (p : path) : path :=
  {| root := root p; parts := removelast (parts p) |}.

(** A file the glob found: where it is, and what opening and decoding it
    gives, a value or the exception raised on the way. *)
Record parsed_file : Type := ParsedFile {
  file_path : path;
  file_content : result pyval
}.

(** The loop of lines 117-120 over the items still to come: the records
    appended, and the exception that ended the loop, if one did. A record
    is kept when its [success] and its [data] are both truthy, and is then
    stamped with the name of the folder. *)
Fixpoint keep_successful (folder_name : string) (items : list pyval)
  : list dict * option exn :=
  match items with
  | [] => ([], None)
  | PDict q :: rest =>
      let '(kept, raised) := keep_successful folder_name rest in
      if py_truthy (match dict_get q "success" with Some v => v | None => PNone end)
         && py_truthy (match dict_get q "data" with Some v => v | None => PNone end)
      then (dict_set q "source_folder" (PStr folder_name) :: kept, raised)
      else (kept, raised)
  | q :: _ => ([], Some (attribute_error q "get"))
  end.

(** The body of the loop of lines 111-125 for one file: the records it
    adds, and the exception logged for it, if any. What the inner loop
    appended before an exception stays in the list. *)
Definition merge_file (f : parsed_file) : list dict * option exn :=
  let folder_name := path_name (path_parent (file_path f)) in
  match file_content f with
  | Raises e => ([], Some e)
  | Returns questions =>
      match py_iter questions with
      | Raises e => ([], Some e)
      | Returns items => keep_successful folder_name items
      end
  end.

(** Lines 106-129 on the files the glob found, in sorted order: the list
    returned, and the errors logged, each with its file. The other log
    lines are left out. *)
Fixpoint merge_parsed_files (parsed_files : list parsed_file)
  : list dict * list (path * exn) :=
  match parsed_files with
  | [] => ([], [])
  | f :: rest =>
      let '(kept, raised) := merge_file f in
      let '(all_questions, errors) := merge_parsed_files rest in
      (kept ++ all_questions,
       match raised with
       | Some e => (file_path f, e) :: errors
       | None => errors
       end)
  end.

(** ** The script from the namespace to the output (lines 301-333) *)

Section MainWithMerge.

Variable json_loads : string -> exn + pyval.
Variable lower : string -> string.
Variable write : path -> list dict -> write_outcome.
Variable same_file : path -> path -> bool.

(** [main] with the records that [merge_parsed_files] builds from the
    files found under the input folder, as the merge reads them: record [i]
    of the merged list is the object at address [i]. *)
Definition main_with_merge (args : gmap string arg_value) (env : gmap string string)
    (found : path -> list parsed_file)
    (services : nat -> Z -> reply) (order : list nat)
  : main_end * option (path * file_state) :=
  match args !! "input" with
  | Some (VPath input) =>
      let questions := (merge_parsed_files (found input)).1 in
      main json_loads lower write same_file args env
           (map_seq 0 questions) (seq 0 (length questions)) services order
  | _ => (Uncaught (Exn AttributeError "Namespace"), None)
  end.

End MainWithMerge.

(** ** The summary (lines 335-350) *)

(** The [get] on the [categorization] of a record, an empty dict when the
    record has none. *)
Definition categorization_get (q : dict) (key : string) (default : pyval) : result pyval :=
  py_get (match dict_get q "categorization" with Some v => v | None => PDict [] end)
         key default.

(** The sum of line 336. *)
Fixpoint count_successful (categorized : list dict) : result nat :=
  match categorized with
  | [] => Returns 0%nat
  | q :: rest =>
      ok <-- categorization_get q "success" PNone ;;
      n <-- count_successful rest ;;
      Returns (if py_truthy ok then S n else n)
  end.

(** The loop of lines 343-345. Of [category_counts] the entries under
    string keys are kept: a key of another type equals no string, and only
    strings are looked up afterwards. A list or a dict is no key at all. *)
Fixpoint count_categories (categorized : list dict) (category_counts : gmap string nat)
  : result (gmap string nat) :=
  match categorized with
  | [] => Returns category_counts
  | q :: rest =>
      cat <-- categorization_get q "category" (PStr "Unknown") ;;
      match cat with
      | PStr s =>
          count_categories rest
            (<[s := (match category_counts !! s with Some n => n | None => 0 end + 1)%nat]>
               category_counts)
      | PList _ | PDict _ =>
          Raises (Exn OtherException ("unhashable type: '" +:+ type_name cat +:+ "'"))
      | _ => count_categories rest category_counts
      end
  end.

(** What the summary logs: the two numbers of line 338 and the lines of
    the distribution, one for each category of the list. *)
Record summary_log : Type := SummaryLog {
  successful : nat;
  total : nat;
  distribution : list (string * nat)
}.

Definition summary (categorized : list dict) : result summary_log :=
  successful <-- count_successful categorized ;;
  category_counts <-- count_categories categorized ∅ ;;
  Returns {| successful := successful;
             total := length categorized;
             distribution :=
               List.map (fun cat => (cat, match category_counts !! cat with
                                          | Some n => n
                                          | None => 0%nat
                                          end)) CATEGORIES |}.

(** * The splitter (scripts/split_by_category.py) *)

From Stdlib Require Import DecimalNat.

(** ** File names *)

(** The table of lines 12-17, in its order. *)
Definition HU_TO_EN : list (string * string) :=
  [ ("á", "a"); ("é", "e"); ("í", "i"); ("ó", "o"); ("ö", "o"); ("ő", "o");
    ("ú", "u"); ("ü", "u"); ("ű", "u");
    ("Á", "A"); ("É", "E"); ("Í", "I"); ("Ó", "O"); ("Ö", "O"); ("Ő", "O");
    ("Ú", "U"); ("Ü", "U"); ("Ű", "U") ].

(** [s.replace(old, new)] for an [old] that is not empty: the occurrences
    of [old] from the left, none overlapping another; [skip] bytes of an
    occurrence already replaced are still to be dropped. The encoding of a
    character occurs in an encoded text only where the character stands. *)
Fixpoint replace_from (old new : string) (skip : nat) (s : string) : string :=
  match s with
  | EmptyString => EmptyString
  | String a s' =>
      match skip with
      | S k => replace_from old new k s'
      | O =>
          if is_prefix old s
          then new +:+ replace_from old new (String.length old - 1) s'
          else String a (replace_from old new 0 s')
      end
  end.

Definition replace (old new s : string) : string := replace_from old new 0 s.

(** Lines 19-23. *)
Definition transliterate (text : string) : string :=
  fold_left (fun text pair => replace (fst pair) (snd pair) text) HU_TO_EN text.

(** The class [a-zA-Z0-9] and the hyphen. *)
Definition is_word_byte (b : nat) : bool :=
  ((97 <=? b) && (b <=? 122) || (65 <=? b) && (b <=? 90) || (48 <=? b) && (b <=? 57)
   || (b =? 45))%nat.

(** The character matches [\s]. *)
Definition is_space (c : string) : bool :=
  existsb (fun p => starts_with p (bytes_of c) && (length p =? length (bytes_of c))%nat)
          whitespace.

(** The character is outside the class of line 28, which keeps letters and
    digits of ASCII, whitespace and the hyphen. *)
Definition is_kept (c : string) : bool :=
  match bytes_of c with
  | [b] => is_word_byte b || is_space c
  | _ => is_space c
  end.

(** [re.sub] of line 29 on the characters of the name: a run of whitespace
    becomes one underscore; [in_run] tells that the character before was
    whitespace. *)
Fixpoint underscore_runs (in_run : bool) (chars : list string) : string :=
  match chars with
  | [] => EmptyString
  | c :: rest =>
      if is_space c
      then if in_run then underscore_runs true rest
           else String "_" (underscore_runs true rest)
      else c +:+ underscore_runs false rest
  end.

Section FileNames.

(** [str.lower] *)
Variable lower : string -> string.

(** Lines 25-30. *)
Definition sanitize_filename (name : string) : string :=
  let name := transliterate name in
  let name := List.filter is_kept (characters name) in
  let name := underscore_runs false name in
  lower name.

End FileNames.

(** ** Groups *)

(** The keys of a dict, as far as they are modelled: [None], the integers,
    with [True] and [False] for 1 and 0 as they hash and compare, and the
    strings. *)
Inductive dict_key : Type :=
| KNone
| KInt (n : Z)
| KStr (s : string).

Definition key_eqb (a b : dict_key) : bool :=
  match a, b with
  | KNone, KNone => true
  | KInt m, KInt n => (m =? n)%Z
  | KStr s, KStr t => String.eqb s t
  | _, _ => false
  end.

(** A value as a key: a list or a dict is none, and a float, which may
    equal an integer, is not modelled. *)
Inductive keyed : Type :=
| Key (k : dict_key)
| Unhashable
| FloatKey.

Definition key_of (v : pyval) : keyed :=
  match v with
  | PNone => Key KNone
  | PBool b => Key (KInt (if b then 1 else 0))
  | PInt n => Key (KInt n)
  | PStr s => Key (KStr s)
  | PFloat _ => FloatKey
  | PList _ | PDict _ => Unhashable
  end.

(** A dict with such keys, in insertion order. *)
Fixpoint key_get {A : Type} (d : list (dict_key * A)) (k : dict_key) : option A :=
  match d with
  | [] => None
  | (k', v) :: d' => if key_eqb k' k then Some v else key_get d' k
  end.

(** [d[k] = v]: an existing key keeps its place, a new one goes last. *)
Fixpoint key_set {A : Type} (d : list (dict_key * A)) (k : dict_key) (v : A)
  : list (dict_key * A) :=
  match d with
  | [] => [(k, v)]
  | (k', v') :: d' => if key_eqb k' k then (k', v) :: d' else (k', v') :: key_set d' k v
  end.

(** The key of line 44. *)
Definition null_key (null_counter : nat) : dict_key :=
  KStr ("__null_" +:+ Json.decimal null_counter).

(** The loop of lines 40-50 over the items still to come. [None] when an
    id is a float. *)
Fixpoint group_loop (items : list pyval) (null_counter : nat)
    (groups : list (dict_key * list pyval))
  : option (result (list (dict_key * list pyval))) :=
  match items with
  | [] => Some (Returns groups)
  | item :: rest =>
      match py_get item "similarity_group_id" PNone with
      | Raises e => Some (Raises e)
      | Returns PNone =>
          group_loop rest (S null_counter) (key_set groups (null_key null_counter) [item])
      | Returns group_id =>
          match key_of group_id with
          | FloatKey => None
          | Unhashable =>
              Some (Raises (Exn OtherException
                              ("unhashable type: '" +:+ type_name group_id +:+ "'")))
          | Key k =>
              let groups :=
                match key_get groups k with
                | Some _ => groups
                | None => key_set groups k []
                end in
              group_loop rest null_counter
                (key_set groups k
                   (match key_get groups k with Some g => g | None => [] end ++ [item]))
          end
      end
  end.

(** Lines 32-52. *)
Definition group_by_similarity (items : list pyval) : option (result (list (list pyval))) :=
  match group_loop items 0 [] with
  | Some (Returns groups) => Some (Returns (List.map snd groups))
  | Some (Raises e) => Some (Raises e)
  | None => None
  end.

(** ** The script (lines 55-108) *)

(** The loop of lines 68-79 over the items still to come: the lists by
    category, each with the category as it first came, and the file names
    of the items skipped. [None] when a category is a float. *)
Fixpoint by_category (items : list pyval)
    (categories : list (dict_key * (pyval * list pyval))) (skipped : list pyval)
  : option (result (list (dict_key * (pyval * list pyval)) * list pyval)) :=
  match items with
  | [] => Some (Returns (categories, skipped))
  | item :: rest =>
      match (categorization <-- py_get item "categorization" (PDict []) ;;
             py_get categorization "category" PNone) with
      | Raises e => Some (Raises e)
      | Returns category =>
          if negb (py_truthy category) then
            match py_get item "file" (PStr "unknown") with
            | Raises e => Some (Raises e)
            | Returns file => by_category rest categories (skipped ++ [file])
            end
          else
            match key_of category with
            | FloatKey => None
            | Unhashable =>
                Some (Raises (Exn OtherException
                                ("unhashable type: '" +:+ type_name category +:+ "'")))
            | Key k =>
                let categories :=
                  match key_get categories k with
                  | Some _ => categories
                  | None => key_set categories k (category, [])
                  end in
                by_category rest
                  (match key_get categories k with
                   | Some (first, found) => key_set categories k (first, found ++ [item])
                   | None => categories
                   end)
                  skipped
            end
      end
  end.

(** [sorted] of line 87 puts the larger list first and leaves lists of one
    size in their order: [entry] goes before the first list that is not
    larger. *)
Fixpoint insert_by_size (entry : pyval * list pyval) (sorted : list (pyval * list pyval))
  : list (pyval * list pyval) :=
  match sorted with
  | [] => [entry]
  | other :: rest =>
      if (length (snd other) <=? length (snd entry))%nat then entry :: sorted
      else other :: insert_by_size entry rest
  end.

Definition sort_by_size (entries : list (pyval * list pyval)) : list (pyval * list pyval) :=
  fold_right insert_by_size [] entries.

(** What is written for a category. *)
Record category_file : Type := CategoryFile {
  file_name : string;
  category_name : pyval;
  file_groups : list (list pyval)
}.

Section Splitter.

Variable lower : string -> string.

(** What lines 99-100 do with a file: [open] on its name under the output
    folder, then [json.dump]. *)
Variable write : category_file -> write_outcome.

(** How [mkdir] of line 81 ends. *)
Variable mkdir : option exn.

(** The loop of lines 87-102 over the categories still to come: the files
    written whole, in order, the file whose dump was cut short, if one was,
    and the exception that ended the loop, if one did. A category that is no
    string has no [replace]. *)
Fixpoint write_files (sorted : list (pyval * list pyval))
  : option (list category_file * option category_file * option exn) :=
  match sorted with
  | [] => Some ([], None, None)
  | (PStr category, items) :: rest =>
      match group_by_similarity items with
      | None => None
      | Some (Raises e) => Some ([], None, Some e)
      | Some (Returns grouped_items) =>
          let output_data :=
            {| file_name := sanitize_filename lower category +:+ ".json";
               category_name := PStr category;
               file_groups := grouped_items |} in
          match write output_data with
          | Written =>
              match write_files rest with
              | None => None
              | Some (files, cut, raised) => Some (output_data :: files, cut, raised)
              end
          | OpenFails e => Some ([], None, Some e)
          | DumpFails e => Some ([], Some output_data, Some e)
          end
      end
  | (category, _) :: _ => Some ([], None, Some (attribute_error category "replace"))
  end.

(** How the script ends: the files it wrote whole, in the order of the
    writes, the file it left cut short, the exception it ended with, if
    any, and the skipped file names it then did not fail to print. *)
Record split_end : Type := SplitEnd {
  written : list category_file;
  cut_short : option category_file;
  split_raised : option exn;
  skipped_files : list pyval
}.

(** Lines 55-108 on the decoded content of the input file; the standard
    output takes every line printed. *)
Definition split_main (data : pyval) : option split_end :=
  match py_iter data with
  | Raises e => Some (SplitEnd [] None (Some e) [])
  | Returns items =>
      match by_category items [] [] with
      | None => None
      | Some (Raises e) => Some (SplitEnd [] None (Some e) [])
      | Some (Returns (categories, skipped)) =>
          match mkdir with
          | Some e => Some (SplitEnd [] None (Some e) [])
          | None =>
              match write_files (sort_by_size (List.map snd categories)) with
              | None => None
              | Some (files, cut, Some e) => Some (SplitEnd files cut (Some e) [])
              | Some (files, cut, None) => Some (SplitEnd files cut None skipped)
              end
          end
      end
  end.

End Splitter.
(** * Vocabulary of the properties *)

(** [a] occurs in [b]. *)
Definition occurs_in (a b : string) : Prop :=
  exists pre post, b = pre +:+ a +:+ post.

(** One is a substring of the other once both are lower-cased. *)
Definition close_to (lower : string -> string) (member label : string) : Prop :=
  occurs_in (lower member) (lower label) \/ occurs_in (lower label) (lower member).

(** The attempt numbers of the calls to the service, in order. *)
Definition calls (evs : list event) : list Z :=
  omap (fun ev => match ev with Classify k => Some k | _ => None end) evs.

(** The seconds slept, in order. *)
Definition sleeps (evs : list event) : list Q :=
  omap (fun ev => match ev with Sleep q => Some q | _ => None end) evs.

(** [k; k+1; ...], [n] numbers. *)
Fixpoint upfrom (k : Z) (n : nat) : list Z :=
  match n with
  | O => []
  | S n' => k :: upfrom (k + 1) n'
  end.

(** The binding of [response] after attempt [k]. *)
Definition response_after (service : Z -> reply) (k : Z) (response : option string)
  : option string :=
  match service k with
  | Text text => Some text
  | Fails _ => response
  end.

(** [data] is a dict, or missing and defaulted to one. *)
Definition dict_data (question : dict) : bool :=
  match dict_get question "data" with
  | Some (PDict _) | None => true
  | Some _ => false
  end.


Section RetryVocabulary.

Variable json_loads : string -> exn + pyval.
Variable lower : string -> string.

(** What the [try] block of attempt [k] returns or raises. *)
Definition try_result (service : Z -> reply) (k : Z) : result dict :=
  match service k with
  | Fails e => Raises e
  | Text text =>
      match extract_json_from_response json_loads text with
      | Raises e => Raises e
      | Returns parsed => validated lower parsed
      end
  end.

(** What attempt [k] does before it returns or raises. *)
Definition attempt_events (service : Z -> reply) (k : Z) : list event :=
  match service k with
  | Fails _ => [Classify k]
  | Text text =>
      match extract_json_from_response json_loads text with
      | Raises _ => [Classify k; Parse text]
      | Returns parsed => [Classify k; Parse text; Validate parsed]
      end
  end.

(** The stages of attempt [k], each run on what the stage before it
    returned: the call, then the parser on the text of the reply, then the
    validator on the parsed object. *)
Inductive stages (service : Z -> reply) (k : Z) : list event -> Prop :=
| stages_call e :
    service k = Fails e -> stages service k [Classify k]
| stages_parse text e :
    service k = Text text ->
    extract_json_from_response json_loads text = Raises e ->
    stages service k [Classify k; Parse text]
| stages_validate text parsed :
    service k = Text text ->
    extract_json_from_response json_loads text = Returns parsed ->
    stages service k [Classify k; Parse text; Validate parsed].



End RetryVocabulary.

(** The outcome the collecting loop attaches for a task that ended as [r]. *)
Definition outcome_of (r : result dict) : dict :=
  match r with
  | Returns d => d
  | Raises e => failure e
  end.

(** A file that every dump goes into whole. *)
Definition written_always : list dict -> write_outcome := fun _ => Written.

(** The body of the collecting loop when its write, if it makes one, goes
    in whole. *)
Definition collect_ok (questions : list nat) (futures : list (result dict))
    (st : pool_state) (idx : nat) : pool_state :=
  fst (collect written_always questions futures st idx).

(** The state of the collecting loop once the futures of [order] came in,
    every write so far having gone in whole. *)
Definition collected (questions : list nat) (futures : list (result dict))
    (heap0 : gmap nat dict) (order : list nat) : pool_state :=
  foldl (collect_ok questions futures) (initial heap0 questions) order.

(** What a checkpoint at state [st] holds. *)
Definition snapshot (st : pool_state) : list dict :=
  List.map (deref (heap st)) (current_results (results st)).

(** The contents written to the output file, in order. *)
Definition saves (log : list pool_event) : list (list dict) :=
  omap (fun ev => match ev with Saved content => Some content | _ => None end) log.

(** The state after a save that went in whole. *)
Definition saved (st : pool_state) : pool_state :=
  {| heap := heap st;
     results := results st;
     completed := completed st;
     output_file := Dumped (snapshot st);
     pool_log := pool_log st ++ [Saved (snapshot st)] |}.

(** Every one of these dumps goes into the file whole. *)
Definition all_written (dump : list dict -> write_outcome) (contents : list (list dict)) : Prop :=
  Forall (fun content => dump content = Written) contents.

(** What the file holds after these dumps went in whole, one after the
    other. *)
Definition file_after (contents : list (list dict)) : file_state :=
  match last contents with
  | Some content => Dumped content
  | None => Untouched
  end.

(** The slots that are filled. *)
Definition filled (results : list (option nat)) : nat :=
  length (current_results results).

(** [d] has every key of [d0] other than [categorization] as [d0] has it. *)
Definition same_but_categorization (d0 d : dict) : Prop :=
  forall key, key <> "categorization" -> dict_get d key = dict_get d0 key.


(** Every record of the batch is an object of the store. *)
Definition well_formed (heap0 : gmap nat dict) (questions : list nat) : Prop :=
  Forall (fun q => is_Some (heap0 !! q)) questions.


(** The namespace holds a path, a boolean, a path and an integer where
    [main] reads them. *)
Definition typed (ns : gmap string arg_value) : Prop :=
  (exists p, ns !! "log" = Some (VPath p)) /\
  (exists b, ns !! "merge_only" = Some (VBool b)) /\
  (exists p, ns !! "output" = Some (VPath p)) /\
  (exists n, ns !! "workers" = Some (VInt n)).

(** The defaults, with an input folder. *)
Definition namespace_of_input (input : string) : gmap string arg_value :=
  <["input" := VPath (path_of_string input)]> defaults.

(** ** Vocabulary of the further properties *)

(** The completions after which the collecting loop writes the file, for a
    batch of [total] records: every tenth, and the last. *)
Definition due (total c : nat) : bool :=
  (c mod 10 =? 0)%nat || (c =? total)%nat.

(** [10; 20; ...], [n] numbers. *)
Definition tens (n : nat) : list nat := List.map (fun k => 10 * k)%nat (seq 1 n).

(** The parsed reply is an object whose [category], when it has one, is a
    string: what the validation can work on. *)
Definition well_shaped (parsed : pyval) : bool :=
  match parsed with
  | PDict d =>
      match dict_get d "category" with
      | Some (PStr _) | None => true
      | Some _ => false
      end
  | _ => false
  end.

(** The seconds slept in all. *)
Definition total_sleep (evs : list event) : Q := fold_right Qplus 0%Q (sleeps evs).

(** A reply with a fenced block: three backquotes, the word [json] or
    nothing, the content, three backquotes, and text around them. *)
Definition fenced (tagged : bool) (pre body post : string) : string :=
  pre +:+ "```" +:+ (if tagged then "json" else EmptyString) +:+ body +:+ "```" +:+ post.

(** A reply with braces in it. *)
Definition braced (pre body post : string) : string :=
  pre +:+ "{" +:+ body +:+ "}" +:+ post.

(** The test of line 118 on a record. *)
Definition usable (q : dict) : bool :=
  py_truthy (match dict_get q "success" with Some v => v | None => PNone end)
  && py_truthy (match dict_get q "data" with Some v => v | None => PNone end).

(** The record with the name of its folder written into it. *)
Definition stamp (folder_name : string) (q : dict) : dict :=
  dict_set q "source_folder" (PStr folder_name).

(** The name of the folder a file lies in. *)
Definition folder_of (f : parsed_file) : string :=
  path_name (path_parent (file_path f)).

(** The record with the outcome of its task written into it. *)
Definition categorized_record (json_loads : string -> exn + pyval)
    (lower : string -> string) (services : nat -> Z -> reply) (i : nat) (q : dict) : dict :=
  dict_set q "categorization"
    (PDict (outcome_of (categorize_question json_loads lower q (services i) 3).1)).

(** ** An input folder with three files *)

(** A record as the extraction step leaves it. *)
Definition extracted (file : string) (ok : bool) (data : pyval) : dict :=
  [("file", PStr file); ("success", PBool ok); ("data", data)].

(** The first file holds a good record, one that the extraction marked as
    failed, and one without data; the second does not decode; the third
    holds a string between two good records. *)
Definition example_files : list parsed_file :=
  [ ParsedFile (path_of_string "extracted/2019/parsed.json")
      (Returns (PList [PDict (extracted "q1.png" true
                                (question_data "Hol van a szív?" "A mellkasban"));
                       PDict (extracted "q2.png" false PNone);
                       PDict (extracted "q3.png" true (PDict []))]));
    ParsedFile (path_of_string "extracted/2020/parsed.json")
      (Raises (Exn JSONDecodeError "Expecting value: line 1 column 1 (char 0)"));
    ParsedFile (path_of_string "extracted/2021/parsed.json")
      (Returns (PList [PDict (extracted "q4.png" true
                                (question_data "Mi a tüdő?" "Légzőszerv"));
                       PStr "oops";
                       PDict (extracted "q5.png" true
                                (question_data "Mi a máj?" "Mirigy"))])) ].

Definition example_env : gmap string string := {[ "GEMINI_API_KEY" := "secret" ]}.

(** The namespace of the examples: the folder [extracted], the defaults,
    and a pool of [workers]. *)
Definition example_args (workers : Z) : gmap string arg_value :=
  <["workers" := VInt workers]> (namespace_of_input "extracted").


(** The same with the merge-only switch and an output path. *)
Definition example_args_merge (output : string) : gmap string arg_value :=
  <["merge_only" := VBool true]>
    (<["output" := VPath (path_of_string output)]> (namespace_of_input "extracted")).

(** Two paths are one file when they are equal: the case of a folder
    without links, and of relative paths read from one place. *)
Definition same_path (p q : path) : bool :=
  String.eqb (root p) (root q) &&
  bool_decide (parts p = parts q).

(** ** Vocabulary of the summary *)

(** The outcome is a success. *)
Definition succeeded (o : dict) : bool :=
  match dict_get o "success" with
  | Some (PBool true) => true
  | _ => false
  end.

(** The outcome is a success with the category [cat]. *)
Definition labelled (cat : string) (o : dict) : bool :=
  succeeded o &&
  match dict_get o "category" with
  | Some (PStr s) => String.eqb s cat
  | _ => false
  end.

(** The outcomes of the tasks of a batch, by index. *)
Definition outcomes (json_loads : string -> exn + pyval) (lower : string -> string)
    (services : nat -> Z -> reply) (records : list dict) : list dict :=
  imap (fun i q => outcome_of (categorize_question json_loads lower q (services i) 3).1)
       records.

(** An outcome as the tasks make them: a success with a string for its
    category, or a failure, which has no category. *)
Definition outcome_shape (o : dict) : Prop :=
  (exists category reasoning, o = success (PStr category) reasoning) \/
  (dict_get o "success" = Some (PBool false) /\ dict_get o "category" = None).

(** ** Vocabulary of the splitter *)

(** The id of an item, [None] when it has none. *)
Definition group_id_of (item : pyval) : result pyval :=
  py_get item "similarity_group_id" PNone.

(** The item has no id. *)
Definition is_null (item : pyval) : bool :=
  match group_id_of item with
  | Returns PNone => true
  | _ => false
  end.

(** The item is an object whose id is [None], an integer, a boolean, or a
    string that does not begin like the keys made for the items without
    id. *)
Definition plain_id (item : pyval) : bool :=
  match group_id_of item with
  | Returns PNone | Returns (PInt _) | Returns (PBool _) => true
  | Returns (PStr s) => negb (is_prefix "__null_" s)
  | _ => false
  end.

(** The bytes a file name is made of: small letters, digits, the hyphen
    and the underscore. *)
Definition is_name_byte (b : nat) : bool :=
  ((97 <=? b) && (b <=? 122) || (48 <=? b) && (b <=? 57) || (b =? 45) || (b =? 95))%nat.

(** [str.lower] on text that is ASCII. *)
Fixpoint ascii_lower (s : string) : string :=
  match s with
  | EmptyString => EmptyString
  | String a s' =>
      let n := nat_of_ascii a in
      String (if (65 <=? n)%nat && (n <=? 90)%nat then ascii_of_nat (n + 32) else a)
             (ascii_lower s')
  end.

(** The key an item with an id is filed under. *)
Definition id_key (item : pyval) : option dict_key :=
  match group_id_of item with
  | Returns PNone => None
  | Returns id => match key_of id with Key k => Some k | _ => None end
  | Raises _ => None
  end.

(** An entry of [groups] as the loop keeps them, [null_counter] items
    without id in: the item without id that has this number, alone; or, under
    a key that is none of those made for the items without id, one item or
    more that all have this key for their id. *)
Definition group_entry_ok (null_counter : nat) (entry : dict_key * list pyval) : Prop :=
  (exists j item,
      (j < null_counter)%nat /\ fst entry = null_key j /\ snd entry = [item] /\
      is_null item = true) \/
  ((forall j, fst entry <> null_key j) /\ snd entry <> [] /\
   Forall (fun item => id_key item = Some (fst entry)) (snd entry)).

Definition groups_ok (null_counter : nat) (groups : list (dict_key * list pyval)) : Prop :=
  List.NoDup (List.map fst groups) /\ Forall (group_entry_ok null_counter) groups.

(** ** Items for the examples *)

Definition item_with (id : pyval) (file : string) : pyval :=
  PDict [("file", PStr file); ("similarity_group_id", id)].

Definition item_without_id (file : string) : pyval :=
  PDict [("file", PStr file)].

Definition example_items : list pyval :=
  [ item_with (PInt 7) "q1.png"; item_without_id "q2.png"; item_with (PStr "a") "q3.png";
    item_with (PInt 7) "q4.png"; item_with PNone "q5.png" ].

(** ** Vocabulary of the script *)








(** Items for the example of the script. *)
Definition categorized_item (category : pyval) (id : pyval) (file : string) : pyval :=
  PDict [("file", PStr file); ("similarity_group_id", id);
         ("categorization", PDict [("success", PBool true); ("category", category)])].


(** ** The folder of the categories *)



(** What the folder holds under [name] after the writes of [files], each
    gone in whole: the last of them, since a later write replaces an
    earlier one of the same name. *)
Definition on_disk (files : list category_file) (name : string) : option category_file :=
  List.find (fun f => String.eqb (file_name f) name) (rev files).

Definition name_too_long : exn := Exn OtherException "[Errno 36] File name too long".

(** A folder that takes every file whose name has at most 255 bytes. *)
Definition write_named (f : category_file) : write_outcome :=
  if (String.length (file_name f) <=? 255)%nat then Written else OpenFails name_too_long.

(** Two categories that differ in an accent only. *)
Definition accent_data : list pyval :=
  [ categorized_item (PStr "Keringés") PNone "q1.png";
    categorized_item (PStr "Keringes") PNone "q2.png" ].

(** A category of three hundred letters. *)
Definition long_data : list pyval :=
  [ categorized_item (PStr (string_of_list_ascii (repeat "a"%char 300))) PNone "q1.png" ].
(** * Properties *)

(** ** Substrings *)

Lemma is_prefix_true_iff (a b : string) :
  is_prefix a b = true <-> exists post, b = a +:+ post.
Proof.
  revert b. induction a as [|x a IH]; intros b.
  - split; [intros _; exists b; reflexivity | intros _; destruct b; reflexivity].
  - destruct b as [|y b]; simpl.
    + split; [discriminate | intros [post H]; discriminate].
    + rewrite andb_true_iff, IH. split.
      * intros [Hxy [post H]]. apply Ascii.eqb_eq in Hxy. subst. now exists post.
      * intros [post H]. injection H as -> H. split; [apply Ascii.eqb_refl | eauto].
Qed.

Lemma is_infix_true_iff (a b : string) :
  is_infix a b = true <-> occurs_in a b.
Proof.
  unfold occurs_in. induction b as [|y b IH]; simpl.
  - rewrite orb_false_r, is_prefix_true_iff. split.
    + intros [post H]. exists EmptyString, post. exact H.
    + intros [pre [post H]]. destruct pre; simpl in H; [eauto | discriminate].
  - rewrite orb_true_iff, IH, is_prefix_true_iff. split.
    + intros [[post H] | [pre [post H]]].
      * exists EmptyString, post. exact H.
      * exists (String y pre), post. simpl. now rewrite H.
    + intros [pre [post H]]. destruct pre as [|x pre]; simpl in H.
      * left. eauto.
      * right. injection H as _ H. eauto.
Qed.

Lemma is_infix_empty (b : string) : is_infix EmptyString b = true.
Proof. destruct b; reflexivity. Qed.

(** ** The validator *)

Section ValidatorFacts.

Variable lower : string -> string.

Lemma matches_true_iff (member label : string) :
  matches lower member label = true <-> close_to lower member label.
Proof.
  unfold matches, close_to. now rewrite orb_true_iff, !is_infix_true_iff.
Qed.

Lemma in_categories_true_iff (label : string) :
  in_categories label = true <-> In label CATEGORIES.
Proof.
  unfold in_categories. rewrite existsb_exists. split.
  - intros [x [Hin Heq]]. apply String.eqb_eq in Heq. now subst.
  - intros Hin. exists label. split; [exact Hin | apply String.eqb_refl].
Qed.

(** The loop returns the first element that matches, or the label. *)
Lemma closest_match_spec (cats : list string) (label : string) :
  (exists i member,
      cats !! i = Some member /\ close_to lower member label /\
      (forall j other, (j < i)%nat -> cats !! j = Some other ->
                       ~ close_to lower other label) /\
      closest_match lower cats label = member)
  \/ ((forall member, In member cats -> ~ close_to lower member label) /\
      closest_match lower cats label = label).
Proof.
  induction cats as [|cat cats IH]; simpl.
  - right. split; [intros ? [] | reflexivity].
  - destruct (matches lower cat label) eqn:Hm.
    + left. exists 0%nat, cat. repeat split.
      * now apply matches_true_iff.
      * intros j other Hj. lia.
    + assert (Hno : ~ close_to lower cat label).
      { rewrite <- matches_true_iff, Hm. discriminate. }
      destruct IH as [(i & member & Hi & Hc & Hfirst & Hres) | [Hnone Hres]].
      * left. exists (S i), member. repeat split; try assumption.
        intros [|j] other Hj Hlook; simpl in Hlook.
        -- now injection Hlook as <-.
        -- apply (Hfirst j); [lia | exact Hlook].
      * right. split; [| exact Hres].
        intros member [<- | Hin]; [exact Hno | now apply Hnone].
Qed.

End ValidatorFacts.

(** C3 (as amended). There are eleven categories. A label that is a
    category is returned as it is. Any other label is replaced by the first
    category, in the order of the list, that contains it or is contained in
    it once both are lower-cased; with no such category the label is
    returned unchanged. So a label that is a case-varied substring of a
    category, and no category itself, comes back as the first category that
    matches, which stands at or before that category in the list. *)
Theorem validate_label_first_match (lower : string -> string) (label : string) :
  length CATEGORIES = 11%nat /\
  (In label CATEGORIES -> validate_label lower label = label) /\
  (~ In label CATEGORIES ->
   (exists i member,
       CATEGORIES !! i = Some member /\ close_to lower member label /\
       (forall j other, (j < i)%nat -> CATEGORIES !! j = Some other ->
                        ~ close_to lower other label) /\
       validate_label lower label = member)
   \/ ((forall member, In member CATEGORIES -> ~ close_to lower member label) /\
       validate_label lower label = label)) /\
  (forall i member,
      CATEGORIES !! i = Some member ->
      occurs_in (lower label) (lower member) ->
      ~ In label CATEGORIES ->
      exists j first,
        (j <= i)%nat /\ CATEGORIES !! j = Some first /\ close_to lower first label /\
        (forall k other, (k < j)%nat -> CATEGORIES !! k = Some other ->
                         ~ close_to lower other label) /\
        validate_label lower label = first).
Proof.
  assert (Hin : In label CATEGORIES -> validate_label lower label = label).
  { intros H. unfold validate_label.
    now rewrite (proj2 (in_categories_true_iff label) H). }
  assert (Hout : ~ In label CATEGORIES ->
                 validate_label lower label = closest_match lower CATEGORIES label).
  { intros H. unfold validate_label.
    destruct (in_categories label) eqn:E; [| reflexivity].
    now apply in_categories_true_iff in E. }
  split; [reflexivity |]. split; [exact Hin | split].
  - intros H. rewrite (Hout H). apply closest_match_spec.
  - intros i member Hi Hocc H. rewrite (Hout H).
    destruct (closest_match_spec lower CATEGORIES label)
      as [(j & first & Hj & Hc & Hfirst & Hres) | [Hnone _]].
    + exists j, first. repeat split; try assumption.
      destruct (le_lt_dec j i) as [Hle | Hlt]; [exact Hle | exfalso].
      apply (Hfirst i member Hlt Hi). now right.
    + exfalso. apply (Hnone member).
      * apply list_elem_of_In. eapply list_elem_of_lookup_2. exact Hi.
      * now right.
Qed.

(** C3, the clause that fails: RENDSZER is a case-varied substring of the
    category Idegrendszer, and validation returns the second category of the
    list, which contains it too. *)
Lemma substring_of_member_returns_earlier_member :
  In "Idegrendszer" CATEGORIES /\
  occurs_in (lower_hu "RENDSZER") (lower_hu "Idegrendszer") /\
  validate_label lower_hu "RENDSZER" = "A mozgás szerv rendszere" /\
  validate_label lower_hu "RENDSZER" <> "Idegrendszer".
Proof.
  split; [simpl; tauto |]. split; [apply is_infix_true_iff; reflexivity |].
  split; [reflexivity | discriminate].
Qed.

(** The three cases of the validator on concrete labels. *)
Example validate_label_examples :
  validate_label lower_hu "Keringés" = "Keringés" /\
  validate_label lower_hu "légzőRENDSZER" = "Légzőrendszer" /\
  validate_label lower_hu "the KERINGÉS system" = "Keringés" /\
  validate_label lower_hu "Cardiology" = "Cardiology".
Proof. repeat split. Qed.

(** C3 as amended, on a label that is a case-varied substring of the fourth
    category and matches none before it. *)
Lemma validate_label_first_match_witness :
  CATEGORIES !! 3%nat = Some "Légzőrendszer" /\
  occurs_in (lower_hu "gzőREND") (lower_hu "Légzőrendszer") /\
  ~ In "gzőREND" CATEGORIES /\
  exists j first,
    (j <= 3)%nat /\ CATEGORIES !! j = Some first /\
    validate_label lower_hu "gzőREND" = first.
Proof.
  assert (Hocc : occurs_in (lower_hu "gzőREND") (lower_hu "Légzőrendszer")).
  { apply is_infix_true_iff. reflexivity. }
  assert (Hnot : ~ In "gzőREND" CATEGORIES).
  { intros H. apply in_categories_true_iff in H. discriminate H. }
  split; [reflexivity |]. split; [exact Hocc |]. split; [exact Hnot |].
  destruct (validate_label_first_match lower_hu "gzőREND") as (_ & _ & _ & Hsub).
  destruct (Hsub 3%nat "Légzőrendszer" eq_refl Hocc Hnot)
    as (j & first & Hj & Hlook & _ & _ & Hres).
  exists j, first. split; [exact Hj |]. split; [exact Hlook | exact Hres].
Defined.

Example validate_label_substring_example :
  validate_label lower_hu "gzőREND" = "Légzőrendszer".
Proof. reflexivity. Qed.
(** ** The retry loop *)

Lemma calls_app (evs evs' : list event) : calls (evs ++ evs') = calls evs ++ calls evs'.
Proof. apply omap_app. Qed.

Lemma sleeps_app (evs evs' : list event) : sleeps (evs ++ evs') = sleeps evs ++ sleeps evs'.
Proof. apply omap_app. Qed.

Lemma calls_sleep (q : Q) (evs : list event) : calls (Sleep q :: evs) = calls evs.
Proof. reflexivity. Qed.

Lemma sleeps_sleep (q : Q) (evs : list event) : sleeps (Sleep q :: evs) = q :: sleeps evs.
Proof. reflexivity. Qed.


Section RetryFacts.

Variable json_loads : string -> exn + pyval.
Variable lower : string -> string.

Local Abbreviation extract := (extract_json_from_response json_loads).
Local Abbreviation body := (attempt_body json_loads lower).
Local Abbreviation loop := (attempts json_loads lower).
Local Abbreviation outcome := (try_result json_loads lower).

Lemma attempt_body_eq (service : Z -> reply) (k : Z) (response : option string) :
  exists evs,
    body service k response = (outcome service k, response_after service k response, evs)
    /\ stages json_loads service k evs /\ calls evs = [k] /\ sleeps evs = [].
Proof.
  unfold attempt_body, try_result, response_after.
  destruct (service k) as [text | e] eqn:Hs.
  - destruct (extract text) as [parsed | e] eqn:He.
    + eexists. split; [reflexivity |]. split; [| now split].
      now apply stages_validate.
    + eexists. split; [reflexivity |]. split; [| now split].
      now apply stages_parse with e.
  - eexists. split; [reflexivity |]. split; [| now split].
    now apply stages_call with e.
Qed.

(** What the parser raises is of the [ValueError] family, or it is what
    the decoder raised. *)
Lemma extract_raises (text : string) (e : exn) :
  extract text = Raises e ->
  is_value_error e = true \/ exists body, json_loads body = inl e.
Proof.
  unfold extract_json_from_response, loads.
  destruct (is_empty text); [intros [= <-]; now left |].
  destruct (json_loads text) as [e0 | v] eqn:Hwhole; [| discriminate].
  destruct (exn_kind e0) eqn:Hkind;
    try (intros [= <-]; right; now exists text).
  destruct (search_code_block text) as [body|].
  - destruct (json_loads (strip body)) eqn:Hb; intros [= <-]. right. eauto.
  - destruct (search_braces text) as [span|].
    + destruct (json_loads span) eqn:Hb; intros [= <-]. right. eauto.
    + intros [= <-]. now left.
Qed.

(** The validation raises nothing of the [ValueError] family, and nothing
    that mentions 429. *)
Lemma validated_raises (parsed : pyval) (e : exn) :
  validated lower parsed = Raises e ->
  is_value_error e = false /\ is_infix "429" (exn_str e) = false.
Proof.
  unfold validated, bind, py_get, validate_category.
  destruct parsed; try (intros [= <-]; split; reflexivity).
  destruct (dict_get items "category") as [[]|]; try (intros [= <-]; split; reflexivity);
    discriminate.
Qed.


Lemma on_exception_continue (max_retries k : Z) (response : option string) (e : exn)
    (delay : Q) :
  on_exception max_retries k response e = Continue delay ->
  (k < max_retries - 1)%Z /\
  (is_value_error e = true /\ delay = 1 # 2
   \/ is_value_error e = false /\ is_infix "429" (exn_str e) = true /\
      delay = inject_Z ((k + 1) * 2)).
Proof.
  unfold on_exception.
  destruct (is_value_error e).
  - destruct (Z.ltb_spec k (max_retries - 1)); [| discriminate].
    intros [= <-]. split; [assumption | now left].
  - destruct (is_infix "429" (exn_str e)); simpl; [| discriminate].
    destruct (Z.ltb_spec k (max_retries - 1)); [| discriminate].
    intros [= <-]. split; [assumption | now right].
Qed.

Lemma on_exception_done (max_retries k : Z) (response : option string) (e : exn)
    (d : dict) :
  on_exception max_retries k response e = Done d ->
  is_value_error e = true /\ d = parse_failure e response /\ (max_retries - 1 <= k)%Z
  \/ is_value_error e = false /\ d = failure e /\
     (is_infix "429" (exn_str e) = false \/ (max_retries - 1 <= k)%Z).
Proof.
  unfold on_exception.
  destruct (is_value_error e).
  - destruct (Z.ltb_spec k (max_retries - 1)); [discriminate |].
    intros [= <-]. left. repeat split. lia.
  - destruct (is_infix "429" (exn_str e)); simpl.
    + destruct (Z.ltb_spec k (max_retries - 1)); [discriminate |].
      intros [= <-]. right. repeat split. right. lia.
    + intros [= <-]. right. repeat split. now left.
Qed.


(** Every pass begins with the call to the service. *)
Lemma attempts_head (service : Z -> reply) (max_retries : Z) (fuel : nat) (k : Z)
    (response : option string) :
  (0 < fuel)%nat ->
  exists out rest, loop service max_retries fuel k response = (out, Classify k :: rest).
Proof.
  destruct fuel as [|fuel]; [lia | intros _].
  destruct (attempt_body_eq service k response) as (evs & Hbody & Hst & _).
  simpl. rewrite Hbody.
  assert (Hhead : exists tl, evs = Classify k :: tl) by (destruct Hst; eauto).
  destruct Hhead as [tl ->].
  destruct (outcome service k) as [d | e]; [eauto |].
  destruct (on_exception _ _ _ _); [eauto |].
  destruct (loop service max_retries fuel (k + 1)%Z _) as [out evs']. simpl. eauto.
Qed.

Lemma categorize_question_loop (question : dict) (service : Z -> reply) (max_retries : Z) :
  dict_data question = true ->
  categorize_question json_loads lower question service max_retries =
  (Returns (match fst (retry_loop json_loads lower service max_retries) with
            | Some (_, d) => d
            | None => max_retries_exceeded
            end),
   snd (retry_loop json_loads lower service max_retries)).
Proof.
  unfold categorize_question, dict_data. intros H.
  destruct (dict_get question "data") as [[]|]; try discriminate; simpl;
    now destruct (retry_loop _ _ _ _).
Qed.

Lemma categorize_question_no_dict (question : dict) (service : Z -> reply)
    (max_retries : Z) :
  dict_data question = false ->
  exists e,
    categorize_question json_loads lower question service max_retries = (Raises e, []).
Proof.
  unfold categorize_question, dict_data.
  destruct (dict_get question "data") as [[]|]; try discriminate; simpl; eauto.
Qed.

End RetryFacts.

Section RetryPolicy.

Variable json_loads : string -> exn + pyval.
Variable lower : string -> string.

Local Abbreviation extract := (extract_json_from_response json_loads).
Local Abbreviation loop := (attempts json_loads lower).
Local Abbreviation run := (retry_loop json_loads lower).
Local Abbreviation outcome := (try_result json_loads lower).


(** Without an attempt to make, the loop falls through to the result after
    it. *)
Lemma retry_loop_falls_through (service : Z -> reply) (max_retries : Z) :
  (max_retries <= 0)%Z -> run service max_retries = (None, []).
Proof.
  intros H. unfold retry_loop. now replace (Z.to_nat max_retries) with 0%nat by lia.
Qed.


(** C5 (as amended). The loop tells the failures of an attempt apart by
    the class of the exception, wherever in the attempt it arose. An
    exception of the [ValueError] family in an attempt before the last is
    followed by a sleep of half a second and the next call: that is a parse
    failure, and as well a [ValueError] that the call itself raised,
    whatever its message. Any other exception whose message holds 429, in
    an attempt before the last, is followed by a sleep of [2 (k + 1)]
    seconds and the next call. Any other exception again, and one with 429
    in the last attempt, ends the loop at once with that failure. An
    exception of the [ValueError] family in the last attempt ends the loop
    with a parse failure that holds the last reply received: the reply just
    parsed when the call returned, and none when no call has returned. A
    parse failure is of the [ValueError] family unless it is an exception
    of another class that the decoder raised. *)
Theorem backoff_by_failure_kind (service : Z -> reply) (max_retries : Z) (fuel : nat)
    (k : Z) (response : option string) :
  (k + Z.of_nat (S fuel) = max_retries)%Z ->
  (forall e,
      outcome service k = Raises e -> is_value_error e = true ->
      (k < max_retries - 1)%Z ->
      exists out rest,
        loop service max_retries fuel (k + 1) (response_after service k response)
        = (out, Classify (k + 1) :: rest) /\
        loop service max_retries (S fuel) k response
        = (out, attempt_events json_loads service k
                ++ Sleep (1 # 2) :: Classify (k + 1) :: rest)) /\
  (forall e,
      outcome service k = Raises e -> is_value_error e = false ->
      is_infix "429" (exn_str e) = true -> (k < max_retries - 1)%Z ->
      exists out rest,
        loop service max_retries fuel (k + 1) (response_after service k response)
        = (out, Classify (k + 1) :: rest) /\
        loop service max_retries (S fuel) k response
        = (out, attempt_events json_loads service k
                ++ Sleep (inject_Z ((k + 1) * 2)) :: Classify (k + 1) :: rest)) /\
  (forall e,
      outcome service k = Raises e -> is_value_error e = false ->
      is_infix "429" (exn_str e) = false \/ (max_retries - 1 <= k)%Z ->
      loop service max_retries (S fuel) k response
      = (Some (k, failure e), attempt_events json_loads service k)) /\
  (forall e,
      outcome service k = Raises e -> is_value_error e = true ->
      (max_retries - 1 <= k)%Z ->
      loop service max_retries (S fuel) k response
      = (Some (k, parse_failure e (response_after service k response)),
         attempt_events json_loads service k) /\
      (forall text,
          service k = Text text ->
          dict_get (parse_failure e (response_after service k response)) "raw_response"
          = Some (PStr text)) /\
      (forall e',
          service k = Fails e' -> response = None ->
          dict_get (parse_failure e (response_after service k response)) "raw_response"
          = Some PNone)) /\
  (forall text e,
      service k = Text text -> extract text = Raises e ->
      outcome service k = Raises e /\
      attempt_events json_loads service k = [Classify k; Parse text] /\
      (is_value_error e = true \/ exists body, json_loads body = inl e)).
Proof.
  intros Hmax.
  assert (Hbody : attempt_body json_loads lower service k response
                  = (outcome service k, response_after service k response,
                     attempt_events json_loads service k)).
  { unfold attempt_body, try_result, response_after, attempt_events.
    destruct (service k) as [text | e]; [| reflexivity].
    now destruct (extract text). }
  split; [| split; [| split; [| split]]].
  - intros e He Hv Hk.
    destruct (attempts_head json_loads lower service max_retries fuel (k + 1)
                (response_after service k response))
      as (out & rest & Hnext); [lia |].
    exists out, rest. split; [exact Hnext |].
    cbn [attempts]. rewrite Hbody, He.
    unfold on_exception. rewrite Hv.
    destruct (Z.ltb_spec k (max_retries - 1)); [| lia].
    now rewrite Hnext.
  - intros e He Hv H429 Hk.
    destruct (attempts_head json_loads lower service max_retries fuel (k + 1)
                (response_after service k response))
      as (out & rest & Hnext); [lia |].
    exists out, rest. split; [exact Hnext |].
    cbn [attempts]. rewrite Hbody, He.
    unfold on_exception. rewrite Hv, H429.
    destruct (Z.ltb_spec k (max_retries - 1)); [| lia].
    now rewrite Hnext.
  - intros e He Hv Hend.
    cbn [attempts]. rewrite Hbody, He.
    unfold on_exception. rewrite Hv.
    destruct Hend as [-> | Hk]; [reflexivity |].
    destruct (Z.ltb_spec k (max_retries - 1)); [lia |].
    now rewrite andb_false_r.
  - intros e He Hv Hk. split.
    + cbn [attempts]. rewrite Hbody, He.
      unfold on_exception. rewrite Hv.
      destruct (Z.ltb_spec k (max_retries - 1)); [lia | reflexivity].
    + split.
      * intros text Hs. unfold response_after. now rewrite Hs.
      * intros e' Hs ->. unfold response_after. now rewrite Hs.
  - intros text e Hs He. unfold try_result, attempt_events. rewrite Hs, He.
    split; [reflexivity |]. split; [reflexivity |].
    exact (extract_raises json_loads text e He).
Qed.

(** C10. With no [category] in the parsed object, or an empty one, the
    label under validation is the empty string, which is no category and is
    contained in every category: the validation puts the first category of
    the list in its place, the attempt returns a success with it, and so
    does [categorize_question] when this is its first attempt. *)
Theorem missing_category_becomes_first_category (service : Z -> reply) (max_retries : Z)
    (fuel : nat) (k : Z) (response : option string) (text : string) (parsed : dict) :
  lower EmptyString = EmptyString ->
  service k = Text text ->
  extract text = Returns (PDict parsed) ->
  dict_get parsed "category" = None \/ dict_get parsed "category" = Some (PStr EmptyString) ->
  let reasoning :=
    match dict_get parsed "reasoning" with
    | Some r => r
    | None => PStr EmptyString
    end in
  validated lower (PDict parsed)
  = Returns (success (PStr "Általános anatómia és kortan") reasoning) /\
  loop service max_retries (S fuel) k response
  = (Some (k, success (PStr "Általános anatómia és kortan") reasoning),
     [Classify k; Parse text; Validate (PDict parsed)]) /\
  (k = 0%Z -> (1 <= max_retries)%Z ->
   forall question,
     dict_data question = true ->
     categorize_question json_loads lower question service max_retries
     = (Returns (success (PStr "Általános anatómia és kortan") reasoning),
        [Classify 0; Parse text; Validate (PDict parsed)])).
Proof.
  intros Hlower Hs He Hcat reasoning.
  assert (Hlabel : validate_label lower EmptyString = "Általános anatómia és kortan").
  { unfold validate_label. change (in_categories EmptyString) with false.
    cbn [CATEGORIES closest_match]. unfold matches.
    now rewrite Hlower, is_infix_empty, orb_true_r. }
  assert (Hval : validated lower (PDict parsed)
                 = Returns (success (PStr "Általános anatómia és kortan") reasoning)).
  { unfold validated, py_get.
    destruct Hcat as [-> | ->]; cbn [bind validate_category]; now rewrite Hlabel. }
  assert (Hloop : forall fuel' response',
             loop service max_retries (S fuel') k response'
             = (Some (k, success (PStr "Általános anatómia és kortan") reasoning),
                [Classify k; Parse text; Validate (PDict parsed)])).
  { intros fuel' response'. cbn [attempts]. unfold attempt_body.
    now rewrite Hs, He, Hval. }
  split; [exact Hval |]. split; [apply Hloop |].
  intros -> Hmax question Hdata.
  rewrite (categorize_question_loop _ _ _ _ _ Hdata). unfold retry_loop.
  replace (Z.to_nat max_retries) with (S (Z.to_nat (max_retries - 1))) by lia.
  now rewrite Hloop.
Qed.

End RetryPolicy.

(** ** The response parser *)

Section ParserFacts.

Variable json_loads : string -> exn + pyval.

Local Abbreviation extract := (extract_json_from_response json_loads).

(** What the parser does, step by step. The empty text is refused. A text
    that decodes as a whole gives its value. When the decoder refuses the
    whole text with a [JSONDecodeError], a fenced block, when there is one,
    decides alone: its stripped content decodes, or the decoder's error
    goes to the caller. Only a text without a fenced block is searched for
    braces, and the span found decides in the same way. An error of another
    class on the whole text goes to the caller at once. *)
Lemma extract_steps (text : string) :
  (text = EmptyString -> extract text = Raises (Exn ValueError "Empty response")) /\
  (forall v, text <> EmptyString -> json_loads text = inr v -> extract text = Returns v) /\
  (forall msg body,
      text <> EmptyString -> json_loads text = inl (Exn JSONDecodeError msg) ->
      search_code_block text = Some body ->
      extract text = loads json_loads (strip body)) /\
  (forall msg span,
      text <> EmptyString -> json_loads text = inl (Exn JSONDecodeError msg) ->
      search_code_block text = None -> search_braces text = Some span ->
      extract text = loads json_loads span) /\
  (forall msg,
      text <> EmptyString -> json_loads text = inl (Exn JSONDecodeError msg) ->
      search_code_block text = None -> search_braces text = None ->
      extract text
      = Raises (Exn ValueError ("Could not extract JSON from: " +:+ slice_to 100 text))) /\
  (forall e,
      text <> EmptyString -> json_loads text = inl e ->
      exn_kind e <> JSONDecodeError -> extract text = Raises e).
Proof.
  unfold extract_json_from_response.
  split; [intros ->; reflexivity |].
  assert (Hne : text <> EmptyString -> is_empty text = false) by (now destruct text).
  split; [intros v H Hv; now rewrite (Hne H), Hv |].
  split; [intros msg body H Hm Hb; now rewrite (Hne H), Hm, Hb |].
  split; [intros msg span H Hm Hb Hs; now rewrite (Hne H), Hm, Hb, Hs |].
  split; [intros msg H Hm Hb Hs; now rewrite (Hne H), Hm, Hb, Hs |].
  intros e H Hm Hkind. rewrite (Hne H), Hm. now destruct (exn_kind e).
Qed.

(** A fenced block whose content does not decode ends the extraction, also
    when the braces after it hold an object that decodes. *)
Lemma fenced_block_decides (text body span msg : string) (e : exn) (v : pyval) :
  text <> EmptyString ->
  json_loads text = inl (Exn JSONDecodeError msg) ->
  search_code_block text = Some body ->
  json_loads (strip body) = inl e ->
  search_braces text = Some span ->
  json_loads span = inr v ->
  extract text = Raises e.
Proof.
  intros Hne Hm Hb Hbody _ _.
  destruct (extract_steps text) as (_ & _ & Hfence & _).
  rewrite (Hfence msg body Hne Hm Hb). unfold loads. now rewrite Hbody.
Qed.

End ParserFacts.

(** C4, where the code departs from it: the reply [fenced_note] does not
    decode as a whole, its fenced block holds the word note, and the braces
    after the block hold the object asked for. The third step would decode
    that object; the parser raises the error of the second step instead,
    and a service that keeps replying so fails the question with a parse
    error after three attempts. *)
Theorem fenced_note_is_not_extracted :
  Json.loads fenced_note
  = inl (Exn JSONDecodeError "Expecting value: line 1 column 1 (char 0)") /\
  search_code_block fenced_note = Some "note" /\
  search_braces fenced_note = Some (answer "Keringés" "heart") /\
  Json.loads (answer "Keringés" "heart")
  = inr (PDict [("category", PStr "Keringés"); ("reasoning", PStr "heart")]) /\
  extract_json_from_response Json.loads fenced_note
  = Raises (Exn JSONDecodeError "Expecting value: line 1 column 1 (char 0)") /\
  (categorize_question Json.loads lower_hu [("data", question_data "Hol van a szív?" "A mellkasban")]
     (fun _ => Text fenced_note) 3).1
  = Returns (parse_failure (Exn JSONDecodeError "Expecting value: line 1 column 1 (char 0)")
               (Some fenced_note)).
Proof. repeat split. Qed.

(** The three steps on replies that they do extract. *)
Example extract_examples :
  extract_json_from_response Json.loads (answer "Keringés" "heart")
  = Returns (PDict [("category", PStr "Keringés"); ("reasoning", PStr "heart")]) /\
  extract_json_from_response Json.loads
    ("Here you go: ```json " +:+ answer "Keringés" "heart" +:+ " ``` Anything else?")
  = Returns (PDict [("category", PStr "Keringés"); ("reasoning", PStr "heart")]) /\
  extract_json_from_response Json.loads
    ("The answer is " +:+ answer "Keringés" "heart" +:+ ", I think.")
  = Returns (PDict [("category", PStr "Keringés"); ("reasoning", PStr "heart")]) /\
  extract_json_from_response Json.loads "Sure, here is the answer"
  = Raises (Exn ValueError "Could not extract JSON from: Sure, here is the answer") /\
  extract_json_from_response Json.loads EmptyString
  = Raises (Exn ValueError "Empty response").
Proof. repeat split. Qed.
(** ** The collecting loop *)

Lemma dict_get_set_eq (d : dict) (k : string) (v : pyval) :
  dict_get (dict_set d k v) k = Some v.
Proof.
  induction d as [|[k' v'] d IH]; simpl.
  - now rewrite String.eqb_refl.
  - destruct (String.eqb k' k) eqn:E; simpl.
    + now rewrite String.eqb_refl.
    + now rewrite E.
Qed.

Lemma dict_get_set_ne (d : dict) (k k' : string) (v : pyval) :
  k' <> k -> dict_get (dict_set d k v) k' = dict_get d k'.
Proof.
  intros Hne. induction d as [|[k0 v0] d IH]; simpl.
  - destruct (String.eqb_spec k k'); [congruence | reflexivity].
  - destruct (String.eqb_spec k0 k) as [-> | Hk0]; simpl.
    + destruct (String.eqb_spec k k'); [congruence |].
      destruct (String.eqb_spec k k'); [congruence | reflexivity].
    + destruct (String.eqb_spec k0 k'); [reflexivity | exact IH].
Qed.

Lemma deref_attach_eq (heap : gmap nat dict) (q : nat) (o : dict) :
  is_Some (heap !! q) ->
  dict_get (deref (attach o q heap) q) "categorization" = Some (PDict o).
Proof.
  intros [d Hd]. unfold deref, attach. rewrite lookup_alter_eq, Hd. simpl.
  apply dict_get_set_eq.
Qed.

Lemma deref_attach_ne (heap : gmap nat dict) (q q' : nat) (o : dict) :
  q <> q' -> deref (attach o q heap) q' = deref heap q'.
Proof.
  intros Hne. unfold deref, attach. now rewrite lookup_alter_ne.
Qed.

Lemma deref_attach_frame (heap : gmap nat dict) (q q' : nat) (o : dict) (key : string) :
  key <> "categorization" ->
  dict_get (deref (attach o q heap) q') key = dict_get (deref heap q') key.
Proof.
  intros Hkey. destruct (decide (q = q')) as [<- | Hne].
  - unfold deref, attach. rewrite lookup_alter_eq.
    destruct (heap !! q) as [d|]; simpl; [| reflexivity].
    now apply dict_get_set_ne.
  - now rewrite deref_attach_ne.
Qed.

Lemma attach_is_Some (heap : gmap nat dict) (q q' : nat) (o : dict) :
  is_Some (attach o q heap !! q') <-> is_Some (heap !! q').
Proof.
  unfold attach. destruct (decide (q = q')) as [<- | Hne].
  - rewrite lookup_alter_eq. destruct (heap !! q); simpl; split; intros [x H]; eauto;
      discriminate.
  - now rewrite lookup_alter_ne.
Qed.

(** Filling a slot never lowers the number of filled slots. *)
Lemma filled_insert (results : list (option nat)) (i q : nat) :
  (filled results <= filled (<[i := Some q]> results))%nat.
Proof.
  unfold filled. revert i.
  induction results as [|r results IH]; intros i; [simpl; lia |].
  destruct i as [|i]; simpl.
  - destruct r; simpl; lia.
  - specialize (IH i). destruct r; simpl; lia.
Qed.

(** The filled slots, read in the order of their indices. *)
Lemma current_results_spec (results : list (option nat)) :
  exists idxs,
    StronglySorted lt idxs /\
    (forall i, In i idxs <-> exists q, results !! i = Some (Some q)) /\
    Forall2 (fun i q => results !! i = Some (Some q)) idxs (current_results results).
Proof.
  induction results as [|r results (idxs & Hsorted & Hin & Hall)].
  - exists []. split; [constructor |]. split; [| constructor].
    intros i. split; [intros [] | intros [q H]; discriminate].
  - assert (Hshift : StronglySorted lt (List.map S idxs)).
    { clear -Hsorted. induction Hsorted as [|i idxs _ IH Hlt]; simpl; constructor;
        [assumption |].
      apply List.Forall_forall. intros x Hx. apply in_map_iff in Hx as (y & <- & Hy).
      rewrite List.Forall_forall in Hlt. specialize (Hlt y Hy). lia. }
    assert (Hin' : forall i, In i (List.map S idxs)
                             <-> exists j, i = S j /\ exists q, results !! j = Some (Some q)).
    { intros i. rewrite in_map_iff. split.
      - intros (j & <- & Hj). exists j. split; [reflexivity | now apply Hin].
      - intros (j & -> & Hj). exists j. split; [reflexivity | now apply Hin]. }
    assert (Hall' : Forall2 (fun i q => (r :: results) !! i = Some (Some q))
                            (List.map S idxs) (current_results results)).
    { clear -Hall. induction Hall; simpl; constructor; assumption. }
    destruct r as [q|].
    + exists (0%nat :: List.map S idxs). split; [| split].
      * constructor; [exact Hshift |].
        apply List.Forall_forall. intros x Hx. apply in_map_iff in Hx as (y & <- & _). lia.
      * intros [|i]; simpl.
        -- split; [eauto | tauto].
        -- rewrite Hin'. split.
           ++ intros [Hf | (j & [= ->] & Hq)]; [discriminate | exact Hq].
           ++ intros Hq. right. eauto.
      * simpl. constructor; [reflexivity | exact Hall'].
    + exists (List.map S idxs). split; [exact Hshift | split].
      * intros [|i]; rewrite Hin'; simpl.
        -- split; [intros (j & Hf & _); discriminate | intros [q Hq]; discriminate].
        -- split; [intros (j & [= ->] & Hq); exact Hq | eauto].
      * exact Hall'.
Qed.

Lemma sorted_snoc (l : list nat) (x : nat) :
  StronglySorted le l -> List.Forall (fun y => y <= x)%nat l -> StronglySorted le (l ++ [x]).
Proof.
  induction 1 as [|y l _ IH Hy]; intros Hall; simpl.
  - repeat constructor.
  - apply Forall_cons in Hall as [Hyx Hall]. constructor; [now apply IH |].
    apply Forall_app. split; [exact Hy | now repeat constructor].
Qed.

Section Collecting.

Variable questions : list nat.
Variable futures : list (result dict).
Variable heap0 : gmap nat dict.

Local Abbreviation after := (collected questions futures heap0).

Lemma collected_snoc (done : list nat) (idx : nat) :
  after (done ++ [idx]) = collect_ok questions futures (after done) idx.
Proof. unfold collected. now rewrite foldl_snoc. Qed.

(** One pass of the loop: the record of the slot gets the outcome, the slot
    gets the record, and either nothing is written or the snapshot of the
    new state is. *)
Lemma collect_step (st : pool_state) (idx q : nat) (r : result dict) :
  questions !! idx = Some q -> futures !! idx = Some r ->
  let st' := collect_ok questions futures st idx in
  heap st' = attach (outcome_of r) q (heap st) /\
  results st' = <[idx := Some q]> (results st) /\
  completed st' = S (completed st) /\
  (pool_log st' = pool_log st /\ output_file st' = output_file st
   \/ pool_log st' = pool_log st ++ [Saved (snapshot st');
                                     Progress (completed st') (length questions)] /\
      output_file st' = Dumped (snapshot st')).
Proof.
  intros Hq Hr. unfold collect_ok, collect, save_results, written_always.
  rewrite Hq, Hr. fold (outcome_of r).
  cbn [completed]. destruct (_ || _); cbn; repeat split; auto.
  right. unfold snapshot. cbn. rewrite <- app_assoc. now split.
Qed.

Lemma collect_skip (st : pool_state) (idx : nat) :
  questions !! idx = None \/ futures !! idx = None ->
  collect_ok questions futures st idx = st.
Proof.
  unfold collect_ok, collect. intros [-> | H]; [reflexivity |].
  rewrite H. now destruct (questions !! idx).
Qed.

(** The two cases of a pass, for an induction over the order. *)
Lemma collect_cases (st : pool_state) (idx : nat) :
  collect_ok questions futures st idx = st
  \/ exists q r, questions !! idx = Some q /\ futures !! idx = Some r.
Proof.
  destruct (questions !! idx) as [q|] eqn:Hq; [| left; apply collect_skip; now left].
  destruct (futures !! idx) as [r|] eqn:Hr; [| left; apply collect_skip; now right].
  right. eauto.
Qed.

Lemma collected_length (order : list nat) :
  length (results (after order)) = length questions.
Proof.
  induction order as [|idx done IH] using rev_ind.
  - apply length_replicate.
  - rewrite collected_snoc.
    destruct (collect_cases (after done) idx) as [-> | (q & r & Hq & Hr)]; [exact IH |].
    destruct (collect_step (after done) idx q r Hq Hr) as (_ & -> & _).
    now rewrite length_insert.
Qed.

(** A slot holds nothing, or the record of its own index. *)
Lemma collected_slot (order : list nat) (i q : nat) :
  results (after order) !! i = Some (Some q) -> questions !! i = Some q.
Proof.
  induction order as [|idx done IH] using rev_ind.
  - unfold collected, initial. cbn. intros H.
    apply lookup_replicate in H as [H _]. discriminate.
  - rewrite collected_snoc.
    destruct (collect_cases (after done) idx) as [-> | (q' & r & Hq & Hr)]; [exact IH |].
    destruct (collect_step (after done) idx q' r Hq Hr) as (_ & -> & _).
    destruct (decide (idx = i)) as [<- | Hne].
    + rewrite list_lookup_insert_eq.
      * intros [= <-]. exact Hq.
      * rewrite collected_length. now apply lookup_lt_Some in Hq.
    + now rewrite list_lookup_insert_ne.
Qed.

(** The slot of a future that came in holds its record. *)
Lemma collected_filled (order : list nat) (i q : nat) :
  In i order -> questions !! i = Some q -> (i < length futures)%nat ->
  results (after order) !! i = Some (Some q).
Proof.
  intros Hin Hq Hlen. induction order as [|idx done IH] using rev_ind; [destruct Hin |].
  rewrite collected_snoc.
  destruct (decide (idx = i)) as [-> | Hne].
  - destruct (lookup_lt_is_Some_2 futures i Hlen) as [r Hr].
    destruct (collect_step (after done) i q r Hq Hr) as (_ & -> & _).
    apply list_lookup_insert_eq. rewrite collected_length. now apply lookup_lt_Some in Hq.
  - assert (Hin' : In i done).
    { apply in_app_or in Hin as [H | [H | []]]; [exact H | congruence]. }
    destruct (collect_cases (after done) idx) as [-> | (q' & r & Hq' & Hr)]; [now apply IH |].
    destruct (collect_step (after done) idx q' r Hq' Hr) as (_ & -> & _).
    rewrite list_lookup_insert_ne by exact Hne. now apply IH.
Qed.

(** The loop writes the key [categorization] of records and nothing else. *)
Lemma collected_frame (order : list nat) (q : nat) :
  same_but_categorization (deref heap0 q) (deref (heap (after order)) q) /\
  (is_Some (heap (after order) !! q) <-> is_Some (heap0 !! q)).
Proof.
  induction order as [|idx done [IHd IHs]] using rev_ind.
  - split; [intros key _; reflexivity | reflexivity].
  - rewrite collected_snoc.
    destruct (collect_cases (after done) idx) as [-> | (q' & r & Hq & Hr)];
      [now split |].
    destruct (collect_step (after done) idx q' r Hq Hr) as (-> & _). split.
    + intros key Hkey. rewrite deref_attach_frame by exact Hkey. now apply IHd.
    + now rewrite attach_is_Some.
Qed.

(** The record of a future that came in carries the outcome of a task that
    was run on it. *)
Lemma collected_outcome (order : list nat) (i q : nat) :
  In i order -> questions !! i = Some q -> (i < length futures)%nat ->
  is_Some (heap0 !! q) ->
  exists j r,
    In j order /\ questions !! j = Some q /\ futures !! j = Some r /\
    dict_get (deref (heap (after order)) q) "categorization" = Some (PDict (outcome_of r)).
Proof.
  intros Hin Hq Hlen Hsome.
  induction order as [|idx done IH] using rev_ind; [destruct Hin |].
  rewrite collected_snoc.
  assert (Hkeep : In i done ->
                  exists j r,
                    In j (done ++ [idx]) /\ questions !! j = Some q /\
                    futures !! j = Some r /\
                    dict_get (deref (heap (after done)) q) "categorization"
                    = Some (PDict (outcome_of r))).
  { intros H. destruct (IH H) as (j & r & Hj & Hrest). exists j, r.
    split; [apply in_or_app; now left | exact Hrest]. }
  destruct (collect_cases (after done) idx) as [Hskip | (q' & r & Hq' & Hr)].
  - rewrite Hskip. apply Hkeep.
    apply in_app_or in Hin as [H | [H | []]]; [exact H |]. subst idx.
    destruct (lookup_lt_is_Some_2 futures i Hlen) as [r Hr].
    exfalso. apply (f_equal completed) in Hskip.
    destruct (collect_step (after done) i q r Hq Hr) as (_ & _ & Hc & _).
    rewrite Hc in Hskip. lia.
  - destruct (collect_step (after done) idx q' r Hq' Hr) as (-> & _).
    destruct (decide (q' = q)) as [-> | Hne].
    + exists idx, r. split; [apply in_or_app; right; now left |].
      split; [exact Hq' |]. split; [exact Hr |].
      apply deref_attach_eq. now apply collected_frame.
    + rewrite deref_attach_ne by exact Hne. apply Hkeep.
      apply in_app_or in Hin as [H | [H | []]]; [exact H | congruence].
Qed.

Lemma collected_completed (order : list nat) :
  Forall (fun i => i < length questions /\ i < length futures)%nat order ->
  completed (after order) = length order.
Proof.
  induction order as [|idx done IH] using rev_ind; intros Hall; [reflexivity |].
  apply Forall_app in Hall as [Hdone Hidx]. apply Forall_cons in Hidx as [[Hq Hr] _].
  destruct (lookup_lt_is_Some_2 questions idx Hq) as [q Hq'].
  destruct (lookup_lt_is_Some_2 futures idx Hr) as [r Hr'].
  rewrite collected_snoc.
  destruct (collect_step (after done) idx q r Hq' Hr') as (_ & _ & -> & _).
  rewrite IH by exact Hdone. rewrite length_app. simpl. lia.
Qed.

Lemma snapshot_length (st : pool_state) : length (snapshot st) = filled (results st).
Proof. unfold snapshot, filled. now rewrite length_map. Qed.

Lemma saves_app (log log' : list pool_event) : saves (log ++ log') = saves log ++ saves log'.
Proof. apply omap_app. Qed.

(** The writes of a run: each is the snapshot taken after some prefix of the
    order, none is shorter than one before it or longer than the slots
    filled by now, and the file holds the last. *)
Lemma collected_saves (order : list nat) :
  Forall (fun content =>
            (length content <= filled (results (after order)))%nat /\
            exists done rest, order = done ++ rest /\ content = snapshot (after done))
         (saves (pool_log (after order))) /\
  StronglySorted le (List.map (@length dict) (saves (pool_log (after order)))) /\
  output_file (after order) = file_after (saves (pool_log (after order))).
Proof.
  induction order as [|idx done (IHall & IHsorted & IHfile)] using rev_ind.
  - cbn. repeat split; constructor.
  - assert (Hold : Forall (fun content =>
                     (length content <= filled (results (after (done ++ [idx]))))%nat /\
                     exists done' rest, done ++ [idx] = done' ++ rest /\
                                        content = snapshot (after done'))
                          (saves (pool_log (after done)))).
    { eapply List.Forall_impl; [| exact IHall]. cbn.
      intros content (Hlen & done' & rest & -> & ->). split.
      - rewrite collected_snoc.
        destruct (collect_cases (after (done' ++ rest)) idx) as [-> | (q & r & Hq & Hr)];
          [exact Hlen |].
        destruct (collect_step (after (done' ++ rest)) idx q r Hq Hr) as (_ & -> & _).
        etransitivity; [exact Hlen | apply filled_insert].
      - exists done', (rest ++ [idx]). now rewrite app_assoc. }
    rewrite collected_snoc.
    destruct (collect_cases (after done) idx) as [Hskip | (q & r & Hq & Hr)].
    { rewrite Hskip. rewrite collected_snoc, Hskip in Hold. now repeat split. }
    rewrite collected_snoc in Hold.
    destruct (collect_step (after done) idx q r Hq Hr)
      as (_ & _ & _ & [[-> ->] | [-> ->]]).
    + now repeat split.
    + rewrite saves_app. cbn [saves omap list_omap]. fold (saves []). cbn.
      repeat split.
      * apply Forall_app. split; [exact Hold |]. constructor; [| constructor]. split.
        -- now rewrite snapshot_length.
        -- exists (done ++ [idx]), []. rewrite app_nil_r, collected_snoc. now split.
      * rewrite map_app. apply sorted_snoc; [exact IHsorted |].
        apply List.Forall_forall. intros n Hn. apply in_map_iff in Hn as (c & <- & Hc).
        rewrite List.Forall_forall in Hold. destruct (Hold c Hc) as [Hlen _].
        now rewrite snapshot_length.
      * unfold file_after. now rewrite last_snoc.
Qed.

(** The record of a filled slot has its outcome attached. *)
Lemma collected_slot_outcome (order : list nat) (i q : nat) :
  results (after order) !! i = Some (Some q) -> is_Some (heap0 !! q) ->
  is_Some (dict_get (deref (heap (after order)) q) "categorization").
Proof.
  intros Hslot Hsome. revert Hslot.
  induction order as [|idx done IH] using rev_ind.
  - unfold collected, initial. cbn. intros H.
    apply lookup_replicate in H as [H _]. discriminate.
  - rewrite collected_snoc.
    destruct (collect_cases (after done) idx) as [-> | (q' & r & Hq & Hr)]; [exact IH |].
    destruct (collect_step (after done) idx q' r Hq Hr) as (-> & -> & _).
    intros Hslot. destruct (decide (q' = q)) as [-> | Hne].
    + rewrite deref_attach_eq; [eauto | now apply collected_frame].
    + rewrite deref_attach_ne by exact Hne. apply IH.
      destruct (decide (idx = i)) as [-> | Hidx].
      * rewrite list_lookup_insert_eq in Hslot; [congruence |].
        rewrite collected_length. now apply lookup_lt_Some in Hq.
      * now rewrite list_lookup_insert_ne in Hslot.
Qed.

Lemma elem_of_current_results (results : list (option nat)) (q : nat) :
  In q (current_results results) -> exists i, results !! i = Some (Some q).
Proof.
  induction results as [|[r|] results IH]; simpl.
  - intros [].
  - intros [-> | H]; [now exists 0%nat |]. destruct (IH H) as [i Hi]. now exists (S i).
  - intros H. destruct (IH H) as [i Hi]. now exists (S i).
Qed.

(** A filled slot stays filled, with the same record. *)
Lemma collected_slot_stays (done rest : list nat) (i q : nat) :
  results (after done) !! i = Some (Some q) ->
  results (after (done ++ rest)) !! i = Some (Some q).
Proof.
  intros Hslot. induction rest as [|idx rest IH] using rev_ind.
  - now rewrite app_nil_r.
  - rewrite app_assoc, collected_snoc.
    destruct (collect_cases (after (done ++ rest)) idx) as [-> | (q' & r & Hq & Hr)];
      [exact IH |].
    destruct (collect_step (after (done ++ rest)) idx q' r Hq Hr) as (_ & -> & _).
    destruct (decide (idx = i)) as [-> | Hne].
    + rewrite list_lookup_insert_eq.
      * apply collected_slot in IH. congruence.
      * rewrite collected_length. now apply lookup_lt_Some in Hq.
    + now rewrite list_lookup_insert_ne.
Qed.

End Collecting.

(** ** The loop with a file that can fail *)

(** The test that every dump of a list goes in whole. *)
Lemma all_written_check (dump : list dict -> write_outcome) (contents : list (list dict)) :
  forallb (fun content => match dump content with Written => true | _ => false end) contents
  = true ->
  all_written dump contents.
Proof.
  intros H. apply List.Forall_forall. intros content Hin.
  rewrite forallb_forall in H. specialize (H content Hin).
  now destruct (dump content).
Defined.

Section Running.

Variable dump : list dict -> write_outcome.
Variable questions : list nat.
Variable futures : list (result dict).

Local Abbreviation ideal := (foldl (collect_ok questions futures)).
Local Abbreviation loop := (collect_loop dump questions futures).

(** One pass of the loop against the pass whose write goes in whole: they
    agree when nothing is written or the dump succeeds; else the pass ends
    with the exception of the dump, the record and the slot updated, and
    the file as it was, when it did not open, or cut. *)
Lemma collect_cases_dump (st : pool_state) (idx : nat) :
  let st1 := collect_ok questions futures st idx in
  (collect dump questions futures st idx = (st1, None) /\
   (pool_log st1 = pool_log st
    \/ pool_log st1 = pool_log st ++ [Saved (snapshot st1);
                                      Progress (completed st1) (length questions)] /\
       dump (snapshot st1) = Written))
  \/ exists e cut,
      collect dump questions futures st idx = (cut, Some e) /\
      In (snapshot st1) (saves (pool_log st1)) /\
      heap cut = heap st1 /\ results cut = results st1 /\
      completed cut = completed st1 /\ pool_log cut = pool_log st /\
      (dump (snapshot st1) = OpenFails e /\ output_file cut = output_file st
       \/ dump (snapshot st1) = DumpFails e /\ output_file cut = Cut (snapshot st1)).
Proof.
  unfold collect_ok, collect, save_results, written_always.
  destruct (questions !! idx) as [q|]; [| left; split; [reflexivity | now left]].
  destruct (futures !! idx) as [r|]; [| left; split; [reflexivity | now left]].
  cbn [completed heap results pool_log output_file].
  destruct (_ || _); [| left; split; [reflexivity | now left]].
  cbn [fst log_progress heap results completed pool_log output_file].
  unfold snapshot. cbn [heap results].
  destruct (dump _) as [| e | e] eqn:Hdump.
  - left. split; [reflexivity |]. right. now rewrite <- app_assoc.
  - right. eexists e, _. split; [reflexivity |].
    split; [rewrite <- app_assoc, saves_app; apply in_or_app; right; now left |].
    cbn. repeat split. now left.
  - right. eexists e, _. split; [reflexivity |].
    split; [rewrite <- app_assoc, saves_app; apply in_or_app; right; now left |].
    cbn. repeat split. now right.
Qed.

Lemma collect_ok_log (st : pool_state) (idx : nat) :
  exists more, pool_log (collect_ok questions futures st idx) = pool_log st ++ more.
Proof.
  destruct (collect_cases questions futures st idx) as [-> | (q & r & Hq & Hr)].
  - exists []. now rewrite app_nil_r.
  - destruct (collect_step questions futures st idx q r Hq Hr)
      as (_ & _ & _ & [[-> _] | [-> _]]); [exists []; now rewrite app_nil_r | eauto].
Qed.

Lemma ideal_log (order : list nat) (st : pool_state) :
  exists more, pool_log (ideal st order) = pool_log st ++ more.
Proof.
  revert st. induction order as [|idx order IH]; intros st.
  - exists []. now rewrite app_nil_r.
  - cbn [foldl]. destruct (IH (collect_ok questions futures st idx)) as [more ->].
    destruct (collect_ok_log st idx) as [more' ->].
    exists (more' ++ more). now rewrite app_assoc.
Qed.

(** When every dump of the run goes in whole, the loop runs to its end and
    leaves the state of the run. *)
Lemma loop_written (order : list nat) (st : pool_state) :
  all_written dump (saves (pool_log (ideal st order))) ->
  loop st order = (ideal st order, None).
Proof.
  revert st. induction order as [|idx order IH]; intros st Hall; [reflexivity |].
  cbn [collect_loop foldl] in *.
  destruct (collect_cases_dump st idx) as [[-> _] | (e & cut & _ & Hin & _ & _ & _ & _ & Hdump)].
  - now apply IH.
  - exfalso. destruct (ideal_log order (collect_ok questions futures st idx)) as [more Hlog].
    rewrite Hlog, saves_app in Hall. apply Forall_app in Hall as [Hall _].
    unfold all_written in Hall. rewrite List.Forall_forall in Hall.
    specialize (Hall _ Hin). destruct Hdump as [[H _] | [H _]]; congruence.
Qed.

(** A loop that runs to its end leaves the state of the run, and every
    dump it made went in whole. *)
Lemma loop_returns (order : list nat) (st st' : pool_state) :
  loop st order = (st', None) ->
  st' = ideal st order /\
  (all_written dump (saves (pool_log st)) ->
   all_written dump (saves (pool_log (ideal st order)))).
Proof.
  revert st. induction order as [|idx order IH]; intros st.
  - intros [= <-]. now split.
  - cbn [collect_loop foldl].
    destruct (collect_cases_dump st idx) as [[-> Hlog] | (e & cut & -> & _)]; [| discriminate].
    intros Hrun. destruct (IH _ Hrun) as [-> Hall]. split; [reflexivity |].
    intros Hst. apply Hall.
    destruct Hlog as [-> | [-> Hw]]; [exact Hst |].
    rewrite saves_app. apply Forall_app. split; [exact Hst |].
    cbn. now constructor.
Qed.

(** A loop that an exception leaves: the futures of [done] came in and
    every write went in whole, then the future [idx] came in, its record
    and its slot were updated, and the dump of the snapshot raised. The
    file is as the last write left it when the file did not open, and cut
    when the dump broke off. *)
Lemma loop_raises (order : list nat) (st cut : pool_state) (e : exn) :
  loop st order = (cut, Some e) ->
  exists done idx rest,
    order = done ++ idx :: rest /\
    loop st done = (ideal st done, None) /\
    heap cut = heap (ideal st (done ++ [idx])) /\
    results cut = results (ideal st (done ++ [idx])) /\
    completed cut = completed (ideal st (done ++ [idx])) /\
    pool_log cut = pool_log (ideal st done) /\
    In (snapshot (ideal st (done ++ [idx]))) (saves (pool_log (ideal st (done ++ [idx])))) /\
    (dump (snapshot (ideal st (done ++ [idx]))) = OpenFails e /\
     output_file cut = output_file (ideal st done)
     \/ dump (snapshot (ideal st (done ++ [idx]))) = DumpFails e /\
        output_file cut = Cut (snapshot (ideal st (done ++ [idx])))).
Proof.
  revert st. induction order as [|idx order IH]; intros st; [discriminate |].
  cbn [collect_loop].
  destruct (collect_cases_dump st idx)
    as [[Hpass _] | (e' & cut' & Hpass & Hin & Hh & Hr & Hc & Hl & Hdump)]; rewrite Hpass.
  - intros Hrun.
    destruct (IH _ Hrun) as (done & idx' & rest & -> & Hdone & Hrest).
    exists (idx :: done), idx', rest. split; [reflexivity |].
    cbn [collect_loop foldl app]. rewrite Hpass. split; [exact Hdone | exact Hrest].
  - intros [= <- <-]. exists [], idx, order. cbn [app foldl collect_loop].
    repeat split; assumption.
Qed.

End Running.

(** ** The checkpoints *)

Section Checkpoints.

Variable dump : list dict -> write_outcome.
Variable questions : list nat.
Variable futures : list (result dict).
Variable heap0 : gmap nat dict.

Local Abbreviation after := (collected questions futures heap0).
Local Abbreviation run := (collect_loop dump questions futures (initial heap0 questions)).

(** Where a run stands when it ends: after the futures of a prefix of the
    order, with the log that the writes of that prefix left. A run that
    returns saw every future. A run that an exception leaves has the file
    as the writes of the prefix left it, or cut at the snapshot taken one
    future later. *)
Lemma run_stands (order : list nat) :
  exists done rest,
    order = done ++ rest /\
    pool_log (fst (run order)) = pool_log (after done) /\
    (snd (run order) = None -> fst (run order) = after order) /\
    (forall e,
        snd (run order) = Some e ->
        output_file (fst (run order)) = output_file (after done)
        \/ exists idx rest',
            rest = idx :: rest' /\
            output_file (fst (run order)) = Cut (snapshot (after (done ++ [idx])))).
Proof.
  destruct (run order) as [st [e|]] eqn:Hrun; cbn [fst snd].
  - apply loop_raises in Hrun
      as (done & idx & rest & -> & _ & _ & _ & _ & Hlog & _ & Hfile).
    exists done, (idx :: rest). split; [reflexivity |]. split; [exact Hlog |].
    split; [discriminate |]. intros e' _.
    destruct Hfile as [[_ ->] | [_ ->]]; [now left | right; eauto].
  - apply loop_returns in Hrun as [-> _].
    exists order, []. rewrite app_nil_r. split; [reflexivity |]. split; [reflexivity |].
    split; [reflexivity | discriminate].
Qed.

(** C6 (as amended). A checkpoint dumps the snapshot of the state: the
    records of the filled slots, one for each, in the order of the slot
    indices. When the dump goes in whole the file holds that snapshot and
    nothing else. When the file does not open the checkpoint raises and the
    file is as it was; when the dump breaks off the checkpoint raises and
    the file is left cut. Over a run, every write that went in is the
    snapshot taken after some prefix of the completions, no write is
    shorter than an earlier one, and every record written has its outcome
    attached; the file of a run that returns holds the last write; the file
    of a run that an exception leaves holds the last write or is cut. A
    slot once filled stays filled. *)
Theorem checkpoints_grow_and_hold_filled_slots (order : list nat) :
  (forall st,
      (dump (snapshot st) = Written -> save_results dump st = (saved st, None)) /\
      (forall e, dump (snapshot st) = OpenFails e -> save_results dump st = (st, Some e)) /\
      (forall e,
          dump (snapshot st) = DumpFails e ->
          exists cut,
            save_results dump st = (cut, Some e) /\
            output_file cut = Cut (snapshot st) /\ pool_log cut = pool_log st) /\
      output_file (saved st) = Dumped (snapshot st) /\
      saves (pool_log (saved st)) = saves (pool_log st) ++ [snapshot st] /\
      exists idxs,
        StronglySorted lt idxs /\
        (forall i, In i idxs <-> exists q, results st !! i = Some (Some q)) /\
        Forall2 (fun i d => exists q, results st !! i = Some (Some q) /\
                                      d = deref (heap st) q)
                idxs (snapshot st)) /\
  Forall (fun content =>
            exists done rest,
              order = done ++ rest /\ content = snapshot (after done))
         (saves (pool_log (fst (run order)))) /\
  StronglySorted le (List.map (@length dict) (saves (pool_log (fst (run order))))) /\
  (snd (run order) = None ->
   output_file (fst (run order)) = file_after (saves (pool_log (fst (run order))))) /\
  (forall e,
      snd (run order) = Some e ->
      output_file (fst (run order)) = file_after (saves (pool_log (fst (run order))))
      \/ exists done rest,
          order = done ++ rest /\ output_file (fst (run order)) = Cut (snapshot (after done))) /\
  (well_formed heap0 questions ->
   Forall (Forall (fun d => is_Some (dict_get d "categorization")))
          (saves (pool_log (fst (run order))))) /\
  (forall done rest i q,
      order = done ++ rest ->
      results (after done) !! i = Some (Some q) ->
      results (after order) !! i = Some (Some q)).
Proof.
  destruct (run_stands order) as (done & rest & Horder & Hlog & Hret & Hexn).
  destruct (collected_saves questions futures heap0 done) as (Hall & Hsorted & Hfile).
  rewrite Hlog.
  split; [| split; [| split; [exact Hsorted | split; [| split; [| split]]]]].
  - intros st. split; [| split; [| split; [| split; [| split]]]].
    + intros Hw. unfold save_results. fold (snapshot st). now rewrite Hw.
    + intros e Hw. unfold save_results. fold (snapshot st). now rewrite Hw.
    + intros e Hw. unfold save_results. fold (snapshot st). rewrite Hw.
      eexists. split; [reflexivity |]. now split.
    + reflexivity.
    + unfold saved. cbn. now rewrite saves_app.
    + destruct (current_results_spec (results st)) as (idxs & Hs & Hin & Hf2).
      exists idxs. split; [exact Hs |]. split; [exact Hin |].
      unfold snapshot. clear -Hf2. induction Hf2; simpl; constructor; eauto.
  - eapply List.Forall_impl; [| exact Hall]. cbn.
    intros content (_ & done' & rest' & -> & ->).
    exists done', (rest' ++ rest). split; [| reflexivity].
    rewrite Horder. now rewrite app_assoc.
  - intros Hnone. rewrite (Hret Hnone).
    destruct (collected_saves questions futures heap0 order) as (_ & _ & Hfile').
    rewrite Hfile'. rewrite (Hret Hnone) in Hlog. now rewrite Hlog.
  - intros e He. destruct (Hexn e He) as [-> | (idx & rest' & -> & ->)].
    + left. exact Hfile.
    + right. exists (done ++ [idx]), rest'. split; [| reflexivity].
      rewrite Horder. now rewrite <- app_assoc.
  - intros Hwf. eapply List.Forall_impl; [| exact Hall]. cbn.
    intros content (_ & done' & rest' & _ & ->).
    apply List.Forall_forall. intros d Hd. unfold snapshot in Hd.
    apply in_map_iff in Hd as (q & <- & Hq).
    apply elem_of_current_results in Hq as [i Hi].
    apply (collected_slot_outcome questions futures heap0 done' i q Hi).
    unfold well_formed in Hwf. rewrite Forall_lookup in Hwf.
    apply (Hwf i). now apply (collected_slot questions futures heap0 done').
  - intros done' rest' i q ->. apply collected_slot_stays.
Qed.

End Checkpoints.

(** ** The dispatcher *)

Section DispatcherFacts.

Variable json_loads : string -> exn + pyval.
Variable lower : string -> string.
Variable dump : list dict -> write_outcome.

Local Abbreviation loop := (attempts json_loads lower).



(** A task reads the [data] of its record and nothing else of it. *)
Lemma categorize_question_reads_data (question question' : dict) (service : Z -> reply)
    (max_retries : Z) :
  dict_get question "data" = dict_get question' "data" ->
  categorize_question json_loads lower question service max_retries
  = categorize_question json_loads lower question' service max_retries.
Proof. unfold categorize_question. now intros ->. Qed.

(** So a task ends the same way whenever the pool runs it, before or after
    any of the futures came in. *)
Lemma task_at_any_time (questions : list nat) (futures : list (result dict))
    (heap0 : gmap nat dict) (order : list nat) (q : nat) (service : Z -> reply)
    (max_retries : Z) :
  categorize_question json_loads lower
    (deref (heap (collected questions futures heap0 order)) q) service max_retries
  = categorize_question json_loads lower (deref heap0 q) service max_retries.
Proof.
  apply categorize_question_reads_data.
  now apply (collected_frame questions futures heap0 order q).
Qed.

Lemma submit_lookup (heap0 : gmap nat dict) (questions : list nat)
    (services : nat -> Z -> reply) (i q : nat) :
  questions !! i = Some q ->
  submit json_loads lower heap0 questions services !! i
  = Some (categorize_question json_loads lower (deref heap0 q) (services i) 3).1.
Proof. intros H. unfold submit. now rewrite list_lookup_imap, H. Qed.

(** A pool of at least one worker returns exactly when the loop runs to
    its end. *)
Lemma categorize_all_questions_run (heap0 : gmap nat dict) (questions : list nat)
    (services : nat -> Z -> reply) (workers : Z) (order : list nat) :
  (1 <= workers)%Z ->
  categorize_all_questions json_loads lower dump heap0 questions services workers order
  = match pool_run json_loads lower dump heap0 questions services order with
    | (st, None) => Returns st
    | (_, Some e) => Raises e
    end.
Proof.
  intros Hworkers. unfold categorize_all_questions.
  destruct (Z.leb_spec workers 0); [lia | reflexivity].
Qed.

(** When every checkpoint write of the run goes in whole, the dispatcher
    returns the state of the run. *)
Lemma categorize_all_questions_collected (heap0 : gmap nat dict) (questions : list nat)
    (services : nat -> Z -> reply) (workers : Z) (order : list nat) :
  (1 <= workers)%Z ->
  all_written dump
    (saves (pool_log (collected questions
                        (submit json_loads lower heap0 questions services) heap0 order))) ->
  categorize_all_questions json_loads lower dump heap0 questions services workers order
  = Returns (collected questions (submit json_loads lower heap0 questions services)
               heap0 order).
Proof.
  intros Hworkers Hwritten.
  rewrite (categorize_all_questions_run heap0 questions services workers order Hworkers).
  unfold pool_run, collected in *.
  now rewrite (loop_written dump questions _ order _ Hwritten).
Qed.

(** What the dispatcher returns is the state of the run. *)
Lemma categorize_all_questions_returns (heap0 : gmap nat dict) (questions : list nat)
    (services : nat -> Z -> reply) (workers : Z) (order : list nat) (st : pool_state) :
  categorize_all_questions json_loads lower dump heap0 questions services workers order
  = Returns st ->
  st = collected questions (submit json_loads lower heap0 questions services) heap0 order /\
  all_written dump (saves (pool_log st)).
Proof.
  unfold categorize_all_questions, pool_run. destruct (workers <=? 0)%Z; [discriminate |].
  destruct (collect_loop _ _ _ _ _) as [st' [e|]] eqn:Hrun; [discriminate |].
  intros [= <-]. apply loop_returns in Hrun as [-> Hall].
  split; [reflexivity |]. apply Hall. constructor.
Qed.


(** C7 (as amended). A run of the dispatcher changes the records in one
    place only: under the key [categorization]. Every other key of every
    object of the store reads as it did when the batch was assembled, and
    the store has the same objects. *)
Theorem records_change_only_categorization (heap0 : gmap nat dict) (questions : list nat)
    (services : nat -> Z -> reply) (workers : Z) (order : list nat) (st : pool_state) :
  categorize_all_questions json_loads lower dump heap0 questions services workers order
  = Returns st ->
  forall q,
    same_but_categorization (deref heap0 q) (deref (heap st) q) /\
    (is_Some (heap st !! q) <-> is_Some (heap0 !! q)).
Proof.
  unfold categorize_all_questions, pool_run. destruct (workers <=? 0)%Z; [discriminate |].
  destruct (collect_loop _ _ _ _ _) as [st' [e|]] eqn:Hrun; [discriminate |].
  intros [= <-] q. apply loop_returns in Hrun as [-> _]. apply collected_frame.
Qed.

End DispatcherFacts.
(** ** The batch of three questions, dispatched *)


Lemma example_order : Permutation [2; 0; 1]%nat (seq 0 (length example_questions)).
Proof.
  apply perm_trans with [0; 2; 1]%nat; [apply perm_swap |].
  apply perm_skip, perm_swap.
Defined.

(** The one write of the run on the batch of three goes in whole. *)
Lemma example_written :
  all_written dump_utf8
    (saves (pool_log (collected example_questions
                        (submit Json.loads lower_hu example_heap example_questions
                           example_services)
                        example_heap [2; 0; 1]%nat))).
Proof. apply all_written_check. vm_compute. reflexivity. Defined.


(** The reply with half a pair decodes, to a string with a lone
    surrogate. *)
Example surrogate_reply_decodes :
  Json.loads surrogate_reply
  = inr (PDict [("category", PStr "Keringés"); ("reasoning", PStr lone_surrogate)]) /\
  Json.loads (quoted "\ud83d\ude00") = inr (PStr "😀") /\
  Json.loads (quoted "\u00e9t\u0151l") = inr (PStr "étől") /\
  Json.loads (quoted "\ude00\ud83d")
  = inr (PStr (Json.bytes [237; 184; 128; 237; 160; 189]%N)).
Proof. repeat split. Qed.


(** What the three records carry in the end: the answer of the service, the
    exception of the task that could not read its record, and the rate
    limit that outlasted three attempts. *)
Example example_outcomes :
  exists st,
    categorize_all_questions Json.loads lower_hu dump_utf8 example_heap example_questions
      example_services 2 [2; 0; 1]%nat = Returns st /\
    dict_get (deref (heap st) 0%nat) "categorization"
    = Some (PDict (success (PStr "Keringés") (PStr "heart"))) /\
    dict_get (deref (heap st) 1%nat) "categorization"
    = Some (PDict (failure (attribute_error (PStr "scan failed") "get"))) /\
    dict_get (deref (heap st) 2%nat) "categorization"
    = Some (PDict (failure too_many_requests)) /\
    results st = [Some 0; Some 1; Some 2]%nat /\
    saves (pool_log st) = [List.map (deref (heap st)) [0; 1; 2]%nat].
Proof. eexists. split; [vm_compute; reflexivity |]. vm_compute. repeat split. Qed.

(** C7, as stated, fails on the first record of the batch: after the run
    it has a key that it did not have before. *)
Lemma dispatcher_writes_into_records :
  exists st,
    categorize_all_questions Json.loads lower_hu dump_utf8 example_heap example_questions
      example_services 2 [2; 0; 1]%nat = Returns st /\
    dict_get (deref example_heap 0%nat) "categorization" = None /\
    dict_get (deref (heap st) 0%nat) "categorization"
    = Some (PDict (success (PStr "Keringés") (PStr "heart"))) /\
    deref (heap st) 0%nat <> deref example_heap 0%nat.
Proof.
  eexists. split; [vm_compute; reflexivity |]. split; [reflexivity |].
  split; [reflexivity |]. vm_compute. discriminate.
Qed.

(** C7 as amended, on the same run. *)
Lemma records_change_only_categorization_witness :
  exists st,
    categorize_all_questions Json.loads lower_hu dump_utf8 example_heap example_questions
      example_services 2 [2; 0; 1]%nat = Returns st /\
    same_but_categorization (deref example_heap 0%nat) (deref (heap st) 0%nat).
Proof.
  eexists. split; [vm_compute; reflexivity |].
  apply (records_change_only_categorization Json.loads lower_hu dump_utf8 example_heap
           example_questions example_services 2 [2; 0; 1]%nat _ eq_refl 0%nat).
Defined.

(** Twenty-five records, the futures coming in from the last to the first:
    the file is written after 10, 20 and 25 completions, with as many
    records. *)
Example twenty_five_records :
  exists st,
    categorize_all_questions Json.loads lower_hu dump_utf8 (batch 25) (seq 0 25)
      unavailable 5 (rev (seq 0 25))
    = Returns st /\
    List.map (@length dict) (saves (pool_log st)) = [10; 20; 25]%nat /\
    completed st = 25%nat /\
    filled (results st) = 25%nat.
Proof. eexists. split; [vm_compute; reflexivity |]. vm_compute. repeat split. Qed.

Lemma batch_well_formed : well_formed (batch 25) (seq 0 25).
Proof. unfold well_formed. repeat constructor; eexists; reflexivity. Defined.

(** C6 as amended, on twenty-five records whose futures come in from the
    last to the first: three writes, of 10, 20 and 25 records, the first two
    while slots are still pending, and every record written carries its
    outcome. *)
Lemma checkpoints_grow_and_hold_filled_slots_witness :
  let run :=
    collect_loop dump_utf8 (seq 0 25)
      (submit Json.loads lower_hu (batch 25) (seq 0 25) unavailable)
      (initial (batch 25) (seq 0 25)) (rev (seq 0 25)) in
  snd run = None /\
  List.map (@length dict) (saves (pool_log (fst run))) = [10; 20; 25]%nat /\
  StronglySorted le (List.map (@length dict) (saves (pool_log (fst run)))) /\
  output_file (fst run) = file_after (saves (pool_log (fst run))) /\
  Forall (Forall (fun d => is_Some (dict_get d "categorization")))
         (saves (pool_log (fst run))).
Proof.
  cbn zeta.
  destruct (checkpoints_grow_and_hold_filled_slots dump_utf8 (seq 0 25)
              (submit Json.loads lower_hu (batch 25) (seq 0 25) unavailable)
              (batch 25) (rev (seq 0 25)))
    as (_ & _ & Hsorted & Hfile & _ & Hall & _).
  assert (Hnone : snd (collect_loop dump_utf8 (seq 0 25)
                         (submit Json.loads lower_hu (batch 25) (seq 0 25) unavailable)
                         (initial (batch 25) (seq 0 25)) (rev (seq 0 25))) = None)
    by (vm_compute; reflexivity).
  split; [exact Hnone |]. split; [vm_compute; reflexivity |].
  split; [exact Hsorted |]. split; [exact (Hfile Hnone) |].
  exact (Hall batch_well_formed).
Defined.

(** C6, as stated, fails. Eleven records come in in their order; the
    reply for the last holds half a pair. The write after ten futures goes
    in whole, with ten records. The write after the eleventh breaks off at
    the surrogate: the file no longer holds the ten records, and it holds
    no whole dump of the eleven either. *)
Lemma a_write_that_breaks_off_cuts_the_file :
  exists cut,
    pool_run Json.loads lower_hu dump_utf8 (batch 11) (seq 0 11) late_surrogate (seq 0 11)
    = (cut, Some surrogates_not_allowed) /\
    List.map (@length dict) (saves (pool_log cut)) = [10]%nat /\
    filled (results cut) = 11%nat /\
    output_file cut = Cut (snapshot cut) /\
    output_file cut <> file_after (saves (pool_log cut)).
Proof.
  eexists. split; [vm_compute; reflexivity |].
  split; [vm_compute; reflexivity |]. split; [vm_compute; reflexivity |].
  split; [vm_compute; reflexivity |]. vm_compute. discriminate.
Qed.

(** ** The options *)

Lemma defaults_lookup :
  defaults !! "input" = None /\
  defaults !! "model" = Some (VStr "gemini-3-flash-preview") /\
  defaults !! "output" = Some (VPath (Path EmptyString ["categorized_questions.json"])) /\
  defaults !! "workers" = Some (VInt 10) /\
  defaults !! "log" = Some (VPath (Path EmptyString ["categorizer.log"])) /\
  defaults !! "merge_only" = Some (VBool false).
Proof. vm_compute. repeat split. Qed.

Lemma typed_defaults : typed defaults.
Proof.
  destruct defaults_lookup as (_ & _ & Ho & Hw & Hl & Hm).
  split; [| split; [| split]]; eexists; eassumption.
Qed.

Section MainFacts.

Variable json_loads : string -> exn + pyval.
Variable lower : string -> string.
Variable write : path -> list dict -> write_outcome.
Variable same_file : path -> path -> bool.

Local Abbreviation script := (main json_loads lower write same_file).



End MainFacts.

(** ** The retry loop on concrete services *)



(** The same question, run: the failure of the third attempt, after three
    calls. A record whose [data] is a string never reaches the loop. *)
Example categorize_question_runs :
  categorize_question Json.loads lower_hu (deref example_heap 2%nat) (example_services 2) 3
  = (Returns (failure too_many_requests),
     [Classify 0; Sleep (inject_Z 2); Classify 1; Sleep (inject_Z 4); Classify 2]) /\
  categorize_question Json.loads lower_hu (deref example_heap 1%nat) (example_services 1) 3
  = (Raises (attribute_error (PStr "scan failed") "get"), []).
Proof. split; reflexivity. Qed.


(** The whole trace of the second run. *)
Example chatty_service_trace :
  retry_loop Json.loads lower_hu chatty_service 3
  = (Some (2%Z, success (PStr "Keringés") (PStr "heart")),
     [Classify 0; Parse "Sure, here is the answer"; Sleep (1 # 2);
      Classify 1; Parse "Sure, here is the answer"; Sleep (1 # 2);
      Classify 2; Parse (answer "Keringés" "heart");
      Validate (PDict [("category", PStr "Keringés"); ("reasoning", PStr "heart")])]).
Proof. reflexivity. Qed.

(** The whole trace of the first: the sleeps grow by two seconds. *)
Example rate_limited_trace :
  retry_loop Json.loads lower_hu (example_services 2) 3
  = (Some (2%Z, failure too_many_requests),
     [Classify 0; Sleep (inject_Z 2); Classify 1; Sleep (inject_Z 4); Classify 2]).
Proof. reflexivity. Qed.

(** C5 as amended, on the first attempt of the service that answers with
    prose, and on the first attempt of the client that raises a
    [ValueError]. *)
Lemma backoff_by_failure_kind_witness :
  (0 + Z.of_nat 3 = 3)%Z /\
  (exists out rest,
      attempts Json.loads lower_hu chatty_service 3 3 0 None
      = (out, [Classify 0; Parse "Sure, here is the answer"]
                ++ Sleep (1 # 2) :: Classify (0 + 1) :: rest)) /\
  (exists out rest,
      attempts Json.loads lower_hu broken_client 3 3 0 None
      = (out, [Classify 0] ++ Sleep (1 # 2) :: Classify (0 + 1) :: rest)).
Proof.
  split; [reflexivity |]. split.
  - destruct (backoff_by_failure_kind Json.loads lower_hu chatty_service 3 2 0 None eq_refl)
      as (Hvalue & _).
    destruct (Hvalue could_not_extract eq_refl eq_refl ltac:(lia))
      as (out & rest & _ & Hrun).
    exists out, rest. exact Hrun.
  - destruct (backoff_by_failure_kind Json.loads lower_hu broken_client 3 2 0 None eq_refl)
      as (Hvalue & _).
    destruct (Hvalue malformed_reply eq_refl eq_refl ltac:(lia))
      as (out & rest & _ & Hrun).
    exists out, rest. exact Hrun.
Defined.

(** C5, as stated, fails. The client raises a [ValueError] in every call,
    with 429 in its message. That is no parse failure: no reply was
    received and nothing was parsed. The loop neither sleeps 2 and 4
    seconds nor fails at once: it sleeps half a second twice, calls three
    times, and reports a parse error with no reply to show. *)
Lemma value_error_of_the_call_is_retried :
  is_value_error malformed_reply = true /\
  is_infix "429" (exn_str malformed_reply) = true /\
  retry_loop Json.loads lower_hu broken_client 3
  = (Some (2%Z, parse_failure malformed_reply None),
     [Classify 0; Sleep (1 # 2); Classify 1; Sleep (1 # 2); Classify 2]) /\
  sleeps (retry_loop Json.loads lower_hu broken_client 3).2 <> [inject_Z 2; inject_Z 4] /\
  dict_get (parse_failure malformed_reply None) "raw_response" = Some PNone.
Proof.
  split; [reflexivity |]. split; [reflexivity |]. split; [reflexivity |].
  split; [| reflexivity]. vm_compute. discriminate.
Qed.

(** C10 on a reply that gives a reason and no category. *)
Lemma missing_category_becomes_first_category_witness :
  lower_hu EmptyString = EmptyString /\
  attempts Json.loads lower_hu (fun _ => Text reply_without_category) 3 3 0 None
  = (Some (0%Z, success (PStr "Általános anatómia és kortan") (PStr "no idea")),
     [Classify 0; Parse reply_without_category;
      Validate (PDict [("reasoning", PStr "no idea")])]).
Proof.
  split; [reflexivity |].
  exact (proj1 (proj2 (missing_category_becomes_first_category Json.loads lower_hu
                         (fun _ => Text reply_without_category) 3 2 0 None
                         reply_without_category [("reasoning", PStr "no idea")]
                         eq_refl eq_refl eq_refl (or_introl eq_refl)))).
Defined.

(** ** The options on concrete namespaces *)



(** * Further properties *)

(** ** The collecting loop: when it writes, and what the run leaves *)

Lemma filled_insert_new (results : list (option nat)) (i q : nat) :
  results !! i = Some None -> filled (<[i := Some q]> results) = S (filled results).
Proof.
  unfold filled. revert i. induction results as [|r results IH]; intros i; [discriminate |].
  destruct i as [|i]; simpl.
  - now intros [= ->].
  - intros H. specialize (IH i H). destruct r; simpl; lia.
Qed.

Lemma current_results_all (l : list nat) : current_results (List.map Some l) = l.
Proof. induction l as [|x l IH]; simpl; [| rewrite IH]; reflexivity. Qed.

Lemma filter_seq_snoc (f : nat -> bool) (n : nat) :
  List.filter f (seq 1 (S n)) = List.filter f (seq 1 n) ++ (if f (S n) then [S n] else []).
Proof. rewrite seq_S, List.filter_app. simpl. now destruct (f (S n)). Qed.

Lemma div10_succ (n : nat) :
  if (S n mod 10 =? 0)%nat
  then (S n / 10 = S (n / 10) /\ S n = 10 * S (n / 10))%nat
  else (S n / 10 = n / 10)%nat.
Proof.
  pose proof (Nat.div_mod_eq (S n) 10) as Hs. pose proof (Nat.div_mod_eq n 10) as Hn.
  pose proof (Nat.mod_upper_bound n 10) as Hbn.
  pose proof (Nat.mod_upper_bound (S n) 10) as Hbs.
  destruct (Nat.eqb_spec (S n mod 10) 0); lia.
Qed.

Lemma filter_tenth (n : nat) :
  List.filter (fun c => c mod 10 =? 0)%nat (seq 1 n) = tens (n / 10).
Proof.
  induction n as [|n IH]; [reflexivity |].
  rewrite filter_seq_snoc, IH. unfold tens.
  pose proof (div10_succ n) as H. destruct (S n mod 10 =? 0)%nat.
  - destruct H as [-> H]. rewrite seq_S, map_app. cbn [List.map].
    do 2 f_equal. lia.
  - rewrite H. apply app_nil_r.
Qed.

(** The schedule in closed form. *)
Lemma filter_due (total : nat) :
  List.filter (due total) (seq 1 total)
  = tens (total / 10) ++ (if (total mod 10 =? 0)%nat then [] else [total]).
Proof.
  destruct total as [|n]; [reflexivity |].
  rewrite filter_seq_snoc.
  assert (Hbefore : List.filter (due (S n)) (seq 1 n)
                    = List.filter (fun c => c mod 10 =? 0)%nat (seq 1 n)).
  { apply List.filter_ext_in. intros c Hc. apply in_seq in Hc. unfold due.
    destruct (Nat.eqb_spec c (S n)); [lia | apply orb_false_r]. }
  rewrite Hbefore, filter_tenth. unfold due. rewrite Nat.eqb_refl, orb_true_r.
  pose proof (div10_succ n) as H. destruct (S n mod 10 =? 0)%nat.
  - destruct H as [-> H]. rewrite app_nil_r. unfold tens.
    rewrite seq_S, map_app. cbn [List.map]. do 2 f_equal. lia.
  - now rewrite H.
Qed.

Section CollectingMore.

Variable questions : list nat.
Variable futures : list (result dict).
Variable heap0 : gmap nat dict.

Local Abbreviation after := (collected questions futures heap0).

(** A pass writes the file exactly when the count it reaches is due. *)
Lemma collect_step_log (st : pool_state) (idx q : nat) (r : result dict) :
  questions !! idx = Some q -> futures !! idx = Some r ->
  let st' := collect_ok questions futures st idx in
  if due (length questions) (S (completed st))
  then pool_log st' = pool_log st ++ [Saved (snapshot st');
                                      Progress (S (completed st)) (length questions)] /\
       output_file st' = Dumped (snapshot st')
  else pool_log st' = pool_log st /\ output_file st' = output_file st.
Proof.
  intros Hq Hr. unfold collect_ok, collect, save_results, written_always, due.
  rewrite Hq, Hr. cbn [completed].
  destruct (_ || _); cbn; [| now split].
  unfold snapshot. cbn. rewrite <- app_assoc. now split.
Qed.

(** A slot whose future did not come in is empty. *)
Lemma collected_unfilled (done : list nat) (i : nat) :
  ~ In i done -> (i < length questions)%nat -> results (after done) !! i = Some None.
Proof.
  intros Hnot Hi. induction done as [|idx done IH] using rev_ind.
  - unfold collected, initial. cbn. now apply lookup_replicate_2.
  - rewrite collected_snoc.
    assert (Hne : idx <> i) by (intros ->; apply Hnot, in_or_app; right; now left).
    assert (Hnot' : ~ In i done) by (intros H; apply Hnot, in_or_app; now left).
    destruct (collect_cases questions futures (after done) idx) as [-> | (q & r & Hq & Hr)];
      [now apply IH |].
    destruct (collect_step questions futures (after done) idx q r Hq Hr) as (_ & -> & _).
    rewrite list_lookup_insert_ne by exact Hne. now apply IH.
Qed.

(** As many slots are filled as futures came in. *)
Lemma collected_filled_count (done : list nat) :
  List.NoDup done ->
  Forall (fun i => i < length questions /\ i < length futures)%nat done ->
  filled (results (after done)) = length done.
Proof.
  induction done as [|idx done IH] using rev_ind; intros Hnodup Hall.
  - unfold collected, initial, filled. cbn.
    induction (length questions); simpl; auto.
  - apply Forall_app in Hall as [Hdone Hidx]. apply Forall_cons in Hidx as [[Hq Hr] _].
    apply NoDup_remove in Hnodup as [Hnodup Hnot]. rewrite app_nil_r in *.
    destruct (lookup_lt_is_Some_2 questions idx Hq) as [q Hq'].
    destruct (lookup_lt_is_Some_2 futures idx Hr) as [r Hr'].
    rewrite collected_snoc.
    destruct (collect_step questions futures (after done) idx q r Hq' Hr') as (_ & -> & _).
    rewrite filled_insert_new by (now apply collected_unfilled).
    rewrite IH by assumption. rewrite length_app. simpl. lia.
Qed.

(** The writes so far, by the number of records in each: one for every due
    count among the completions so far. *)
Lemma collected_schedule (done : list nat) :
  List.NoDup done ->
  Forall (fun i => i < length questions /\ i < length futures)%nat done ->
  List.map (@length dict) (saves (pool_log (after done)))
  = List.filter (due (length questions)) (seq 1 (length done)).
Proof.
  induction done as [|idx done IH] using rev_ind; intros Hnodup Hall; [reflexivity |].
  pose proof (collected_filled_count (done ++ [idx]) Hnodup Hall) as Hcount.
  apply Forall_app in Hall as [Hdone Hidx]. apply Forall_cons in Hidx as [[Hq Hr] _].
  apply NoDup_remove in Hnodup as [Hnodup Hnot]. rewrite app_nil_r in *.
  destruct (lookup_lt_is_Some_2 questions idx Hq) as [q Hq'].
  destruct (lookup_lt_is_Some_2 futures idx Hr) as [r Hr'].
  rewrite length_app in *. simpl in *. replace (length done + 1)%nat with (S (length done)) in * by lia.
  rewrite filter_seq_snoc, <- IH by assumption.
  rewrite collected_snoc in *.
  pose proof (collect_step_log (after done) idx q r Hq' Hr') as Hlog. cbv zeta in Hlog.
  rewrite (collected_completed questions futures heap0 done Hdone) in Hlog.
  destruct (due (length questions) (S (length done))).
  - destruct Hlog as [-> _]. rewrite saves_app, map_app. cbn.
    now rewrite snapshot_length, Hcount.
  - destruct Hlog as [-> _]. now rewrite app_nil_r.
Qed.

(** Once every future came in, every slot holds its record. *)
Lemma collected_results_full (order : list nat) :
  length futures = length questions ->
  Permutation order (seq 0 (length questions)) ->
  results (after order) = List.map Some questions.
Proof.
  intros Hlen Hperm. apply list_eq. intros i.
  destruct (questions !! i) as [q|] eqn:Hq.
  - rewrite (collected_filled questions futures heap0 order i q).
    + symmetry. change (List.map Some questions) with (Some <$> questions).
      now rewrite list_lookup_fmap, Hq.
    + apply (Permutation_in i (Permutation_sym Hperm)), in_seq.
      apply lookup_lt_Some in Hq. lia.
    + exact Hq.
    + apply lookup_lt_Some in Hq. lia.
  - apply lookup_ge_None in Hq.
    rewrite (proj2 (lookup_ge_None _ _)) by (rewrite collected_length; exact Hq).
    symmetry. apply lookup_ge_None. now rewrite length_map.
Qed.

(** After the last future of a batch that is not empty, the file holds the
    snapshot of the final state. *)
Lemma collected_final_file (order : list nat) :
  length futures = length questions ->
  Permutation order (seq 0 (length questions)) ->
  questions <> [] ->
  output_file (after order) = Dumped (snapshot (after order)).
Proof.
  intros Hlen Hperm Hne.
  assert (Hrange : Forall (fun i => i < length questions /\ i < length futures)%nat order).
  { apply List.Forall_forall. intros i Hi.
    apply (Permutation_in i Hperm), in_seq in Hi. lia. }
  assert (Hsize : length order = length questions).
  { rewrite (Permutation_length Hperm). apply length_seq. }
  destruct order as [|idx done _] using rev_ind.
  - destruct questions; [congruence | discriminate].
  - apply Forall_app in Hrange as [Hdone Hidx].
    apply Forall_cons in Hidx as [[Hq Hr] _].
    destruct (lookup_lt_is_Some_2 questions idx Hq) as [q Hq'].
    destruct (lookup_lt_is_Some_2 futures idx Hr) as [r Hr'].
    rewrite collected_snoc.
    pose proof (collect_step_log (after done) idx q r Hq' Hr') as Hlog. cbv zeta in Hlog.
    rewrite (collected_completed questions futures heap0 done Hdone) in Hlog.
    rewrite length_app in Hsize. simpl in Hsize.
    replace (S (length done)) with (length questions) in Hlog by lia.
    unfold due in Hlog. rewrite Nat.eqb_refl, orb_true_r in Hlog. apply Hlog.
Qed.

(** The records after the futures of [done] came in, when no record stands
    twice in the batch and no future comes in twice: the record of such a
    future has its outcome set, every other object is as it was. *)
Lemma collected_heap_lookup (done : list nat) :
  List.NoDup questions -> List.NoDup done ->
  Forall (fun i => i < length questions /\ i < length futures)%nat done ->
  forall q,
    (forall i r, In i done -> questions !! i = Some q -> futures !! i = Some r ->
                 heap (after done) !! q
                 = (fun d => dict_set d "categorization" (PDict (outcome_of r)))
                     <$> heap0 !! q) /\
    ((forall i, In i done -> questions !! i <> Some q) ->
     heap (after done) !! q = heap0 !! q).
Proof.
  intros Hquestions. induction done as [|idx done IH] using rev_ind; intros Hnodup Hall q.
  - split; [intros i r [] | reflexivity].
  - apply Forall_app in Hall as [Hdone Hidx]. apply Forall_cons in Hidx as [[Hq Hr] _].
    apply NoDup_remove in Hnodup as [Hnodup Hnot]. rewrite app_nil_r in *.
    destruct (lookup_lt_is_Some_2 questions idx Hq) as [q' Hq'].
    destruct (lookup_lt_is_Some_2 futures idx Hr) as [r' Hr'].
    destruct (IH Hnodup Hdone q) as [IHin IHout].
    rewrite collected_snoc.
    destruct (collect_step questions futures (after done) idx q' r' Hq' Hr') as (-> & _).
    unfold attach. split.
    + intros i r Hin Hi Hri. apply in_app_or in Hin as [Hin | [<- | []]].
      * assert (Hne : q' <> q).
        { intros ->. apply Hnot.
          rewrite <- (NoDup_lookup questions i idx q); [exact Hin | | exact Hi | exact Hq'].
          now apply NoDup_ListNoDup. }
        rewrite lookup_alter_ne by exact Hne. now apply (IHin i).
      * assert (q' = q) as -> by congruence. assert (r' = r) as -> by congruence.
        rewrite lookup_alter_eq. f_equal. apply IHout.
        intros j Hj Hjq. apply Hnot.
        rewrite (NoDup_lookup questions idx j q); [exact Hj | | exact Hq' | exact Hjq].
        now apply NoDup_ListNoDup.
    + intros Hnone.
      assert (Hne : q' <> q).
      { intros ->. apply (Hnone idx); [apply in_or_app; right; now left | exact Hq']. }
      rewrite lookup_alter_ne by exact Hne. apply IHout.
      intros i Hi. apply Hnone, in_or_app. now left.
Qed.

End CollectingMore.

Lemma last_tens (n : nat) :
  last (tens n) = if (n =? 0)%nat then None else Some (10 * n)%nat.
Proof.
  destruct n as [|n]; [reflexivity |].
  unfold tens. rewrite seq_S, List.map_app, last_app. reflexivity.
Qed.

Lemma filter_before_last (total c : nat) :
  (c < total)%nat ->
  List.filter (due total) (seq 1 c) = tens (c / 10).
Proof.
  intros Hc. rewrite <- filter_tenth. apply List.filter_ext_in.
  intros k Hk. apply in_seq in Hk. unfold due.
  destruct (Nat.eqb_spec k total); [lia | apply orb_false_r].
Qed.

Section DispatcherMore.

Variable json_loads : string -> exn + pyval.
Variable lower : string -> string.
Variable dump : list dict -> write_outcome.

Local Abbreviation run := (categorize_all_questions json_loads lower dump).
Local Abbreviation tasks := (submit json_loads lower).

(** The dumps of a run that sees the futures of [order], every one of them
    going in whole. *)
Local Abbreviation dumps heap0 questions services order :=
  (saves (pool_log (collected questions (tasks heap0 questions services) heap0 order))).

Lemma order_in_range (heap0 : gmap nat dict) (questions : list nat)
    (services : nat -> Z -> reply) (order : list nat) :
  Permutation order (seq 0 (length questions)) ->
  List.NoDup order /\
  length order = length questions /\
  Forall (fun i => i < length questions /\
                   i < length (tasks heap0 questions services))%nat order.
Proof.
  intros Hperm. split; [| split].
  - apply (Permutation_NoDup (Permutation_sym Hperm)), seq_NoDup.
  - rewrite (Permutation_length Hperm). apply length_seq.
  - apply List.Forall_forall. intros i Hi.
    apply (Permutation_in i Hperm), in_seq in Hi.
    unfold submit. rewrite length_imap. lia.
Qed.

(** The file is written after every tenth completion and after the last
    one, and at no other time: a run over [N] records whose writes all go
    in whole writes the file [N / 10] times with 10, 20, ... records and,
    when [N] is no multiple of ten, once more with all [N]. The order in
    which the futures come in does not change the schedule. *)
Theorem checkpoint_schedule (heap0 : gmap nat dict) (questions : list nat)
    (services : nat -> Z -> reply) (workers : Z) (order : list nat) :
  (1 <= workers)%Z ->
  Permutation order (seq 0 (length questions)) ->
  all_written dump (dumps heap0 questions services order) ->
  exists st,
    run heap0 questions services workers order = Returns st /\
    List.map (@length dict) (saves (pool_log st))
    = tens (length questions / 10)
      ++ (if (length questions mod 10 =? 0)%nat then [] else [length questions]).
Proof.
  intros Hworkers Hperm Hwritten.
  destruct (order_in_range heap0 questions services order Hperm) as (Hnodup & Hsize & Hrange).
  eexists. split; [now apply categorize_all_questions_collected |].
  rewrite collected_schedule by assumption.
  rewrite Hsize. apply filter_due.
Qed.

(** A run that is stopped after [c] of its futures came in, [c] below the
    number of records, every write so far having gone in whole, leaves the
    file of the last multiple of ten: no file when [c] is below ten, and
    otherwise a file of [10 * (c / 10)] records, so fewer than ten finished
    records are missing from it. *)
Theorem interrupted_run_leaves_last_tenth (heap0 : gmap nat dict) (questions : list nat)
    (services : nat -> Z -> reply) (done : list nat) :
  List.NoDup done ->
  Forall (fun i => i < length questions)%nat done ->
  (length done < length questions)%nat ->
  all_written dump (dumps heap0 questions services done) ->
  exists st,
    pool_run json_loads lower dump heap0 questions services done = (st, None) /\
    completed st = length done /\
    filled (results st) = length done /\
    ((length done < 10)%nat -> output_file st = Untouched) /\
    ((10 <= length done)%nat ->
     exists content,
       output_file st = Dumped content /\
       length content = (10 * (length done / 10))%nat) /\
    (length done < 10 * (length done / 10) + 10)%nat.
Proof.
  intros Hnodup Hin Hless Hwritten.
  assert (Hrange : Forall (fun i => i < length questions /\
                                    i < length (tasks heap0 questions services))%nat done).
  { eapply List.Forall_impl; [| exact Hin]. cbv beta. intros i Hi.
    unfold submit. rewrite length_imap. lia. }
  exists (collected questions (tasks heap0 questions services) heap0 done).
  split; [unfold pool_run, collected in *; now apply loop_written |].
  split; [now apply collected_completed |].
  split; [now apply collected_filled_count |].
  destruct (collected_saves questions (tasks heap0 questions services) heap0 done)
    as (_ & _ & Hfile).
  assert (Hlast : last (List.map (@length dict) (dumps heap0 questions services done))
                  = if (length done / 10 =? 0)%nat then None
                    else Some (10 * (length done / 10))%nat).
  { rewrite collected_schedule by assumption.
    rewrite filter_before_last by exact Hless. apply last_tens. }
  change (List.map (@length dict) ?l) with (@length dict <$> l) in Hlast.
  rewrite fmap_last in Hlast.
  split; [| split].
  - intros Hlt. rewrite Hfile. unfold file_after.
    rewrite Nat.div_small in Hlast by exact Hlt. cbn in Hlast.
    now destruct (last _).
  - intros Hge. rewrite Hfile. unfold file_after.
    destruct (Nat.eqb_spec (length done / 10) 0) as [Hz | Hnz].
    { apply Nat.div_small_iff in Hz; lia. }
    destruct (last _) as [content|]; [| discriminate].
    exists content. split; [reflexivity |]. now injection Hlast.
  - pose proof (Nat.div_mod_eq (length done) 10).
    pose proof (Nat.mod_upper_bound (length done) 10). lia.
Qed.

(** When a run whose writes all go in whole ends, the returned list is the
    input list, record by record, and the file holds every record of the
    batch, in the order of the input and in its final state; for an empty
    batch the file is never opened. *)
Theorem final_file_holds_every_record (heap0 : gmap nat dict) (questions : list nat)
    (services : nat -> Z -> reply) (workers : Z) (order : list nat) :
  (1 <= workers)%Z ->
  Permutation order (seq 0 (length questions)) ->
  all_written dump (dumps heap0 questions services order) ->
  exists st,
    run heap0 questions services workers order = Returns st /\
    results st = List.map Some questions /\
    current_results (results st) = questions /\
    output_file st
    = match questions with
      | [] => Untouched
      | _ :: _ => Dumped (List.map (deref (heap st)) questions)
      end.
Proof.
  intros Hworkers Hperm Hwritten.
  assert (Hlen : length (tasks heap0 questions services) = length questions).
  { unfold submit. apply length_imap. }
  pose proof (collected_results_full questions (tasks heap0 questions services) heap0
                order Hlen Hperm) as Hresults.
  eexists. split; [now apply categorize_all_questions_collected |].
  split; [exact Hresults |].
  split; [rewrite Hresults; apply current_results_all |].
  destruct questions as [|q questions'] eqn:Hquestions.
  - apply Permutation_sym, Permutation_nil in Hperm. now subst order.
  - rewrite <- Hquestions in *.
    rewrite collected_final_file; [| exact Hlen | exact Hperm | now rewrite Hquestions].
    unfold snapshot. now rewrite Hresults, current_results_all.
Qed.

(** When no record stands twice in the batch, the order in which the
    futures come in leaves no trace in what a run returns whose writes all
    go in whole: the records, the returned list, the count and the final
    file are the same for any two orders. *)
Theorem completion_order_is_immaterial (heap0 : gmap nat dict) (questions : list nat)
    (services : nat -> Z -> reply) (workers : Z) (order1 order2 : list nat) :
  (1 <= workers)%Z ->
  NoDup questions ->
  Permutation order1 (seq 0 (length questions)) ->
  Permutation order2 (seq 0 (length questions)) ->
  all_written dump (dumps heap0 questions services order1) ->
  all_written dump (dumps heap0 questions services order2) ->
  exists st1 st2,
    run heap0 questions services workers order1 = Returns st1 /\
    run heap0 questions services workers order2 = Returns st2 /\
    heap st1 = heap st2 /\
    results st1 = results st2 /\
    completed st1 = completed st2 /\
    output_file st1 = output_file st2.
Proof.
  intros Hworkers Hquestions Hperm1 Hperm2 Hwritten1 Hwritten2.
  set (futures := tasks heap0 questions services).
  assert (Hlen : length futures = length questions) by apply length_imap.
  destruct (order_in_range heap0 questions services order1 Hperm1) as (Hnodup1 & Hsize1 & Hrange1).
  destruct (order_in_range heap0 questions services order2 Hperm2) as (Hnodup2 & Hsize2 & Hrange2).
  assert (Hheap : heap (collected questions futures heap0 order1)
                  = heap (collected questions futures heap0 order2)).
  { apply map_eq. intros q.
    apply NoDup_ListNoDup in Hquestions.
    destruct (collected_heap_lookup questions futures heap0 order1 Hquestions Hnodup1 Hrange1 q)
      as [Hin1 Hout1].
    destruct (collected_heap_lookup questions futures heap0 order2 Hquestions Hnodup2 Hrange2 q)
      as [Hin2 Hout2].
    destruct (decide (q ∈ questions)) as [Hq | Hq].
    - apply list_elem_of_lookup in Hq as [i Hi].
      assert (Hi' : (i < length questions)%nat) by (now apply lookup_lt_Some in Hi).
      destruct (lookup_lt_is_Some_2 futures i ltac:(lia)) as [r Hr].
      rewrite (Hin1 i r), (Hin2 i r); try assumption; try reflexivity.
      + apply (Permutation_in i (Permutation_sym Hperm2)), in_seq. lia.
      + apply (Permutation_in i (Permutation_sym Hperm1)), in_seq. lia.
    - rewrite Hout1, Hout2; [reflexivity | |];
        intros i _ Hi; apply Hq, list_elem_of_lookup; now exists i. }
  assert (Hresults : results (collected questions futures heap0 order1)
                     = results (collected questions futures heap0 order2)).
  { now rewrite !collected_results_full. }
  exists (collected questions futures heap0 order1), (collected questions futures heap0 order2).
  split; [now apply categorize_all_questions_collected |].
  split; [now apply categorize_all_questions_collected |].
  split; [exact Hheap |]. split; [exact Hresults |].
  split; [rewrite !collected_completed by assumption; lia |].
  destruct questions as [|q0 questions'] eqn:Hqs.
  - apply Permutation_sym, Permutation_nil in Hperm1.
    apply Permutation_sym, Permutation_nil in Hperm2. now subst.
  - rewrite <- Hqs in *.
    rewrite !collected_final_file; try assumption; try (rewrite Hqs; discriminate).
    unfold snapshot. now rewrite Hheap, Hresults.
Qed.

End DispatcherMore.

(** *** On the batches of the examples *)

Lemma backwards_order (n : nat) : Permutation (rev (seq 0 n)) (seq 0 (length (seq 0 n))).
Proof. rewrite length_seq. apply Permutation_sym, Permutation_rev. Qed.

Lemma example_questions_differ : NoDup example_questions.
Proof. apply NoDup_ListNoDup. repeat constructor; simpl; intuition lia. Qed.

Lemma example_order_of_submission :
  Permutation [0; 1; 2]%nat (seq 0 (length example_questions)).
Proof. apply Permutation_refl. Qed.

Lemma batch_written :
  all_written dump_utf8
    (saves (pool_log (collected (seq 0 25)
                        (submit Json.loads lower_hu (batch 25) (seq 0 25) all_limited)
                        (batch 25) (rev (seq 0 25))))).
Proof. apply all_written_check. vm_compute. reflexivity. Defined.

Lemma batch_written_so_far :
  all_written dump_utf8
    (saves (pool_log (collected (seq 0 25)
                        (submit Json.loads lower_hu (batch 25) (seq 0 25) all_limited)
                        (batch 25) (rev (seq 13 12))))).
Proof. apply all_written_check. vm_compute. reflexivity. Defined.

Lemma example_written_in_order :
  all_written dump_utf8
    (saves (pool_log (collected example_questions
                        (submit Json.loads lower_hu example_heap example_questions
                           example_services)
                        example_heap [0; 1; 2]%nat))).
Proof. apply all_written_check. vm_compute. reflexivity. Defined.

(** Twenty-five records: writes of 10, 20 and 25 records. *)
Lemma checkpoint_schedule_witness :
  (1 <= 5)%Z /\
  Permutation (rev (seq 0 25)) (seq 0 (length (seq 0 25))) /\
  exists st,
    categorize_all_questions Json.loads lower_hu dump_utf8 (batch 25) (seq 0 25)
      all_limited 5 (rev (seq 0 25)) = Returns st /\
    List.map (@length dict) (saves (pool_log st)) = [10; 20; 25]%nat.
Proof.
  split; [lia |]. split; [apply backwards_order |].
  destruct (checkpoint_schedule Json.loads lower_hu dump_utf8 (batch 25) (seq 0 25)
              all_limited 5 (rev (seq 0 25))
              ltac:(lia) (backwards_order 25) batch_written) as (st & Hrun & Hsaves).
  exists st. split; [exact Hrun | exact Hsaves].
Defined.

(** Twenty-five records, stopped after twelve futures: a file of ten. *)
Lemma interrupted_run_leaves_last_tenth_witness :
  List.NoDup (rev (seq 13 12)) /\
  Forall (fun i => i < length (seq 0 25))%nat (rev (seq 13 12)) /\
  (length (rev (seq 13 12)) < length (seq 0 25))%nat /\
  exists st content,
    pool_run Json.loads lower_hu dump_utf8 (batch 25) (seq 0 25) all_limited
      (rev (seq 13 12))
    = (st, None) /\
    filled (results st) = 12%nat /\
    output_file st = Dumped content /\
    length content = 10%nat.
Proof.
  assert (Hnodup : List.NoDup (rev (seq 13 12))) by apply NoDup_rev, seq_NoDup.
  assert (Hin : Forall (fun i => i < length (seq 0 25))%nat (rev (seq 13 12))).
  { apply List.Forall_forall. intros i Hi. apply in_rev, in_seq in Hi.
    rewrite length_seq. lia. }
  assert (Hless : (length (rev (seq 13 12)) < length (seq 0 25))%nat).
  { rewrite length_rev, !length_seq. lia. }
  split; [exact Hnodup |]. split; [exact Hin |]. split; [exact Hless |].
  destruct (interrupted_run_leaves_last_tenth Json.loads lower_hu dump_utf8 (batch 25)
              (seq 0 25) all_limited (rev (seq 13 12)) Hnodup Hin Hless
              batch_written_so_far)
    as (st & Hrun & _ & Hfilled & _ & Hfile & _).
  destruct (Hfile ltac:(rewrite length_rev, length_seq; lia)) as (content & Hcontent & Hlen).
  exists st, content. split; [exact Hrun |]. split; [exact Hfilled |].
  split; [exact Hcontent | exact Hlen].
Defined.

(** The batch of three: the file ends with the three records in the order
    of the input, though the futures came in as 2, 0, 1. *)
Lemma final_file_holds_every_record_witness :
  (1 <= 2)%Z /\
  Permutation [2; 0; 1]%nat (seq 0 (length example_questions)) /\
  exists st,
    categorize_all_questions Json.loads lower_hu dump_utf8 example_heap example_questions
      example_services 2 [2; 0; 1]%nat = Returns st /\
    results st = [Some 0; Some 1; Some 2]%nat /\
    output_file st = Dumped (List.map (deref (heap st)) [0; 1; 2]%nat).
Proof.
  split; [lia |]. split; [exact example_order |].
  destruct (final_file_holds_every_record Json.loads lower_hu dump_utf8 example_heap
              example_questions example_services 2 [2; 0; 1]%nat ltac:(lia) example_order
              example_written)
    as (st & Hrun & Hresults & _ & Hfile).
  exists st. split; [exact Hrun |]. split; [exact Hresults | exact Hfile].
Defined.

(** The batch of three, collected as 2, 0, 1 and as 0, 1, 2. *)
Lemma completion_order_is_immaterial_witness :
  (1 <= 2)%Z /\
  NoDup example_questions /\
  Permutation [2; 0; 1]%nat (seq 0 (length example_questions)) /\
  Permutation [0; 1; 2]%nat (seq 0 (length example_questions)) /\
  exists st1 st2,
    categorize_all_questions Json.loads lower_hu dump_utf8 example_heap example_questions
      example_services 2 [2; 0; 1]%nat = Returns st1 /\
    categorize_all_questions Json.loads lower_hu dump_utf8 example_heap example_questions
      example_services 2 [0; 1; 2]%nat = Returns st2 /\
    heap st1 = heap st2 /\
    output_file st1 = output_file st2.
Proof.
  split; [lia |]. split; [exact example_questions_differ |].
  split; [exact example_order |]. split; [exact example_order_of_submission |].
  destruct (completion_order_is_immaterial Json.loads lower_hu dump_utf8 example_heap
              example_questions example_services 2 [2; 0; 1]%nat [0; 1; 2]%nat ltac:(lia)
              example_questions_differ example_order example_order_of_submission
              example_written example_written_in_order)
    as (st1 & st2 & Hrun1 & Hrun2 & Hheap & _ & _ & Hfile).
  exists st1, st2. repeat split; assumption.
Defined.

(** Where one record stands twice in the batch, the order does show: the
    outcome of the task that comes in last is the one the record keeps. *)
Example aliased_record_keeps_last_outcome :
  exists st1 st2,
    categorize_all_questions Json.loads lower_hu dump_utf8 example_heap [0; 0]%nat
      (fun i => example_services (2 * i)) 2 [0; 1]%nat = Returns st1 /\
    categorize_all_questions Json.loads lower_hu dump_utf8 example_heap [0; 0]%nat
      (fun i => example_services (2 * i)) 2 [1; 0]%nat = Returns st2 /\
    dict_get (deref (heap st1) 0%nat) "categorization"
    = Some (PDict (failure too_many_requests)) /\
    dict_get (deref (heap st2) 0%nat) "categorization"
    = Some (PDict (success (PStr "Keringés") (PStr "heart"))).
Proof.
  do 2 eexists. split; [vm_compute; reflexivity |]. split; [vm_compute; reflexivity |].
  vm_compute. split; reflexivity.
Qed.

(** ** The retry loop: what a question can cost, and what is never retried *)

Lemma sleep_below (k : Z) : (0 <= k)%Z -> (1 # 2 <= inject_Z ((k + 1) * 2))%Q.
Proof. intros H. unfold Qle, inject_Z. simpl. lia. Qed.

Section RetryMore.

Variable json_loads : string -> exn + pyval.
Variable lower : string -> string.

Local Abbreviation extract := (extract_json_from_response json_loads).
Local Abbreviation loop := (attempts json_loads lower).
Local Abbreviation outcome := (try_result json_loads lower).

(** The cost of the loop from attempt [k] on, with the last attempt
    [max_retries - 1]: at most one call per pass left, numbered from [k]
    without a gap, one sleep less than calls, and in all no more sleep than
    the rate-limit delays of the attempts left add up to. *)
Lemma attempts_effort (service : Z -> reply) (max_retries : Z) (fuel : nat) (k : Z)
    (response : option string) :
  (0 < fuel)%nat -> (0 <= k)%Z -> (k + Z.of_nat fuel = max_retries)%Z ->
  let evs := (loop service max_retries fuel k response).2 in
  (1 <= length (calls evs) <= fuel)%nat /\
  calls evs = upfrom k (length (calls evs)) /\
  S (length (sleeps evs)) = length (calls evs) /\
  (total_sleep evs <= inject_Z (max_retries * (max_retries - 1) - k * (k + 1)))%Q.
Proof.
  revert k response. induction fuel as [|fuel IH]; intros k response Hfuel Hk Hmax; [lia |].
  destruct (attempt_body_eq json_loads lower service k response)
    as (evs & Hbody & _ & Hcalls & Hsleeps).
  assert (Hnone : (0 <= inject_Z (max_retries * (max_retries - 1) - k * (k + 1)))%Q).
  { rewrite <- (Zle_Qle 0). nia. }
  assert (Hstop : forall out,
             let evs' := ((out, evs) : option (Z * dict) * list event).2 in
             (1 <= length (calls evs') <= S fuel)%nat /\
             calls evs' = upfrom k (length (calls evs')) /\
             S (length (sleeps evs')) = length (calls evs') /\
             (total_sleep evs' <= inject_Z (max_retries * (max_retries - 1) - k * (k + 1)))%Q).
  { intros out. cbn [snd]. unfold total_sleep. rewrite Hcalls, Hsleeps. cbn.
    repeat split; try lia. exact Hnone. }
  cbn [attempts]. rewrite Hbody.
  destruct (outcome service k) as [d | e]; [apply Hstop |].
  destruct (on_exception max_retries k (response_after service k response) e)
    as [d | delay] eqn:Hexc; [apply Hstop |].
  apply on_exception_continue in Hexc as [Hlt Hkind].
  specialize (IH (k + 1)%Z (response_after service k response)
                ltac:(lia) ltac:(lia) ltac:(lia)).
  destruct (loop service max_retries fuel (k + 1)%Z _) as [out evs'].
  cbn [snd] in *. destruct IH as (Hlen & Hnum & Hsl & Htotal).
  unfold total_sleep in *.
  rewrite calls_app, sleeps_app, Hcalls, Hsleeps, calls_sleep, sleeps_sleep.
  cbn [app length fold_right].
  split; [lia |]. split; [cbn [upfrom]; now rewrite <- Hnum |]. split; [lia |].
  assert (Hdelay : (delay <= inject_Z ((k + 1) * 2))%Q).
  { destruct Hkind as [[_ ->] | (_ & _ & ->)]; [now apply sleep_below | apply Qle_refl]. }
  eapply Qle_trans; [apply Qplus_le_compat; [exact Hdelay | exact Htotal] |].
  rewrite <- inject_Z_plus. rewrite <- Zle_Qle. lia.
Qed.

(** What one question can cost, whatever the service does: at most
    [max_retries] calls, numbered from 0 without a gap; between two calls
    exactly one sleep, so one sleep less than calls; and no more than
    [max_retries (max_retries - 1)] seconds of sleep in all, which is six
    seconds for the three attempts the dispatcher allows. *)
Theorem question_effort_is_bounded (question : dict) (service : Z -> reply)
    (max_retries : Z) :
  (length (calls (categorize_question json_loads lower question service max_retries).2)
   <= Z.to_nat max_retries)%nat /\
  calls (categorize_question json_loads lower question service max_retries).2
  = upfrom 0 (length (calls (categorize_question json_loads lower question service
                               max_retries).2)) /\
  length (sleeps (categorize_question json_loads lower question service max_retries).2)
  = pred (length (calls (categorize_question json_loads lower question service
                           max_retries).2)) /\
  (total_sleep (categorize_question json_loads lower question service max_retries).2
   <= inject_Z (max_retries * (max_retries - 1)))%Q.
Proof.
  assert (Hnone : (0 <= inject_Z (max_retries * (max_retries - 1)))%Q).
  { rewrite <- (Zle_Qle 0). nia. }
  destruct (dict_data question) eqn:Hdata.
  - rewrite (categorize_question_loop json_loads lower _ _ _ Hdata). cbn [snd].
    unfold retry_loop.
    destruct (Z.to_nat max_retries) as [|fuel] eqn:Hfuel.
    + cbn. repeat split; try lia. exact Hnone.
    + pose proof (attempts_effort service max_retries (S fuel) 0 None
                    ltac:(lia) ltac:(lia) ltac:(lia)) as H.
      cbv zeta in H. destruct H as (Hlen & Hnum & Hsl & Htotal).
      split; [lia |]. split; [exact Hnum |]. split; [lia |].
      now replace (max_retries * (max_retries - 1) - 0 * (0 + 1))%Z
        with (max_retries * (max_retries - 1))%Z in Htotal by lia.
  - destruct (categorize_question_no_dict json_loads lower question service max_retries
                Hdata) as [e ->].
    cbn. repeat split; try lia. exact Hnone.
Qed.

(** A reply that decodes to something the validation cannot work on (no
    object, or an object whose category is no string) ends the question in
    that attempt with the failure made from the [AttributeError]: there is
    no sleep and no further call, however many attempts are left. *)
Theorem malformed_object_is_not_retried (service : Z -> reply) (max_retries : Z)
    (fuel : nat) (k : Z) (response : option string) (text : string) (parsed : pyval) :
  service k = Text text ->
  extract text = Returns parsed ->
  well_shaped parsed = false ->
  exists e,
    exn_kind e = AttributeError /\
    validated lower parsed = Raises e /\
    loop service max_retries (S fuel) k response
    = (Some (k, failure e), [Classify k; Parse text; Validate parsed]) /\
    (k = 0%Z -> (1 <= max_retries)%Z ->
     forall question,
       dict_data question = true ->
       categorize_question json_loads lower question service max_retries
       = (Returns (failure e), [Classify 0; Parse text; Validate parsed])).
Proof.
  intros Hs He Hshape.
  assert (Hraise : exists e, exn_kind e = AttributeError /\ validated lower parsed = Raises e).
  { unfold well_shaped in Hshape. unfold validated, bind, py_get, validate_category.
    destruct parsed; try (eexists; split; [| reflexivity]; reflexivity).
    destruct (dict_get items "category") as [[]|]; try discriminate;
      (eexists; split; [| reflexivity]; reflexivity). }
  destruct Hraise as (e & Hkind & Hval). exists e.
  assert (Hloop : forall fuel' response',
             loop service max_retries (S fuel') k response'
             = (Some (k, failure e), [Classify k; Parse text; Validate parsed])).
  { intros fuel' response'. cbn [attempts]. unfold attempt_body. rewrite Hs, He, Hval.
    destruct (validated_raises lower parsed e Hval) as [Hv H429].
    unfold on_exception. now rewrite Hv, H429. }
  split; [exact Hkind |]. split; [exact Hval |]. split; [apply Hloop |].
  intros -> Hmax question Hdata.
  rewrite (categorize_question_loop json_loads lower _ _ _ Hdata). unfold retry_loop.
  destruct (Z.to_nat max_retries) as [|fuel'] eqn:Hfuel; [lia |].
  now rewrite Hloop.
Qed.

(** A well-shaped object, on the other hand, always validates: to a
    success whose category is a string. *)
Lemma well_shaped_validates (parsed : pyval) :
  well_shaped parsed = true ->
  exists category reasoning,
    validated lower parsed = Returns (success (PStr category) reasoning).
Proof.
  unfold well_shaped, validated, bind, py_get, validate_category.
  destruct parsed; try discriminate.
  destruct (dict_get items "category") as [[]|]; try discriminate; eauto.
Qed.

End RetryMore.

Section TasksMore.

Variable json_loads : string -> exn + pyval.
Variable lower : string -> string.
Variable dump : list dict -> write_outcome.

(** A record whose [data] is no dict stops its task at the first [get],
    before the loop. *)
Lemma categorize_question_bad_data (question : dict) (service : Z -> reply)
    (max_retries : Z) (v : pyval) :
  dict_get question "data" = Some v -> (forall d, v <> PDict d) ->
  categorize_question json_loads lower question service max_retries
  = (Raises (attribute_error v "get"), []).
Proof.
  intros Hdata Hv. unfold categorize_question. rewrite Hdata.
  destruct v; try reflexivity. now destruct (Hv items).
Qed.

(** A record whose [data] is there and is no dict costs no call to the
    service: its task raises at once, and the run goes on and marks the
    record as failed with the message of that exception. The run returns
    when its writes all go in whole. *)
Theorem unreadable_record_is_marked_failed (heap0 : gmap nat dict) (questions : list nat)
    (services : nat -> Z -> reply) (workers : Z) (order : list nat)
    (i q : nat) (record : dict) (v : pyval) :
  (1 <= workers)%Z ->
  Permutation order (seq 0 (length questions)) ->
  questions !! i = Some q ->
  heap0 !! q = Some record ->
  dict_get record "data" = Some v ->
  (forall d, v <> PDict d) ->
  all_written dump
    (saves (pool_log (collected questions
                        (submit json_loads lower heap0 questions services) heap0 order))) ->
  exists st,
    categorize_all_questions json_loads lower dump heap0 questions services workers order
    = Returns st /\
    submit json_loads lower heap0 questions services !! i
    = Some (Raises (attribute_error v "get")) /\
    (categorize_question json_loads lower record (services i) 3).2 = [] /\
    dict_get (deref (heap st) q) "categorization"
    = Some (PDict [("success", PBool false);
                   ("error", PStr ("'" +:+ type_name v
                                   +:+ "' object has no attribute 'get'"))]).
Proof.
  intros Hworkers Hperm Hq Hrecord Hdata Hv Hwritten.
  assert (Hderef : deref heap0 q = record) by (unfold deref; now rewrite Hrecord).
  assert (Htask : forall j,
             categorize_question json_loads lower (deref heap0 q) (services j) 3
             = (Raises (attribute_error v "get"), [])).
  { intros j. rewrite Hderef. now apply categorize_question_bad_data. }
  eexists. split; [now apply categorize_all_questions_collected |].
  split; [rewrite (submit_lookup json_loads lower _ _ _ _ _ Hq); now rewrite Htask |].
  split; [rewrite <- Hderef; now rewrite Htask |].
  assert (Hi : (i < length questions)%nat) by (now apply lookup_lt_Some in Hq).
  destruct (collected_outcome questions (submit json_loads lower heap0 questions services)
              heap0 order i q) as (j & r & _ & Hj & Hr & Hcat).
  - apply (Permutation_in i (Permutation_sym Hperm)), in_seq. lia.
  - exact Hq.
  - unfold submit. rewrite length_imap. exact Hi.
  - now rewrite Hrecord.
  - rewrite (submit_lookup json_loads lower _ _ _ _ _ Hj), Htask in Hr.
    injection Hr as <-. exact Hcat.
Qed.

End TasksMore.

(** *** On the services of the examples *)

(** A service that answers with a JSON list. *)
Lemma malformed_object_is_not_retried_witness :
  (fun _ : Z => Text "[1, 2]") 0%Z = Text "[1, 2]" /\
  extract_json_from_response Json.loads "[1, 2]" = Returns (PList [PInt 1; PInt 2]) /\
  well_shaped (PList [PInt 1; PInt 2]) = false /\
  attempts Json.loads lower_hu (fun _ => Text "[1, 2]") 3 3 0 None
  = (Some (0%Z, failure (attribute_error (PList [PInt 1; PInt 2]) "get")),
     [Classify 0; Parse "[1, 2]"; Validate (PList [PInt 1; PInt 2])]).
Proof.
  split; [reflexivity |]. split; [reflexivity |]. split; [reflexivity |].
  destruct (malformed_object_is_not_retried Json.loads lower_hu (fun _ => Text "[1, 2]")
              3 2 0 None "[1, 2]" (PList [PInt 1; PInt 2]) eq_refl eq_refl eq_refl)
    as (e & _ & Hval & Hloop & _).
  injection Hval as <-. exact Hloop.
Defined.

(** The second record of the batch of three, whose [data] is a string. *)
Lemma unreadable_record_is_marked_failed_witness :
  (1 <= 2)%Z /\
  Permutation [2; 0; 1]%nat (seq 0 (length example_questions)) /\
  example_questions !! 1%nat = Some 1%nat /\
  dict_get (deref example_heap 1%nat) "data" = Some (PStr "scan failed") /\
  exists st,
    categorize_all_questions Json.loads lower_hu dump_utf8 example_heap example_questions
      example_services 2 [2; 0; 1]%nat = Returns st /\
    dict_get (deref (heap st) 1%nat) "categorization"
    = Some (PDict [("success", PBool false);
                   ("error", PStr "'str' object has no attribute 'get'")]).
Proof.
  split; [lia |]. split; [exact example_order |]. split; [reflexivity |].
  split; [reflexivity |].
  destruct (unreadable_record_is_marked_failed Json.loads lower_hu dump_utf8 example_heap
              example_questions example_services 2 [2; 0; 1]%nat 1%nat 1%nat
              (deref example_heap 1%nat) (PStr "scan failed")
              ltac:(lia) example_order eq_refl eq_refl eq_refl
              ltac:(intros d; discriminate) example_written)
    as (st & Hrun & _ & _ & Hcat).
  exists st. split; [exact Hrun | exact Hcat].
Defined.

(** Three attempts at a service that is rate limited every time: three
    calls, two sleeps, six seconds. *)
Example rate_limited_effort :
  calls (categorize_question Json.loads lower_hu (deref example_heap 2%nat)
           (example_services 2) 3).2 = [0; 1; 2]%Z /\
  (total_sleep (categorize_question Json.loads lower_hu (deref example_heap 2%nat)
                  (example_services 2) 3).2 == inject_Z 6)%Q.
Proof. split; reflexivity. Qed.

(** ** The response parser: what the two searches find *)

(** *** Bytes and strings *)

Lemma of_bytes_of (s : string) : of_bytes (bytes_of s) = s.
Proof.
  unfold of_bytes, bytes_of. rewrite List.map_map.
  rewrite (List.map_ext _ (fun a => a)) by apply ascii_nat_embedding.
  rewrite List.map_id. apply string_of_list_ascii_of_string.
Qed.

Lemma bytes_of_app (s t : string) : bytes_of (s +:+ t) = bytes_of s ++ bytes_of t.
Proof. induction s as [|a s IH]; [reflexivity |]. unfold bytes_of in *. simpl. now rewrite IH. Qed.

Lemma of_bytes_app (l l' : list nat) : of_bytes (l ++ l') = of_bytes l +:+ of_bytes l'.
Proof. induction l as [|b l IH]; [reflexivity |]. unfold of_bytes in *. simpl. now rewrite IH. Qed.

Lemma bytes_of_small (s : string) : Forall (fun b => b < 256)%nat (bytes_of s).
Proof.
  induction s as [|a s IH]; constructor; [apply nat_ascii_bounded | exact IH].
Qed.

Lemma bytes_of_bytes (l : list nat) :
  Forall (fun b => b < 256)%nat l -> bytes_of (of_bytes l) = l.
Proof.
  induction 1 as [|b l Hb _ IH]; [reflexivity |].
  unfold bytes_of, of_bytes in *. simpl. rewrite IH. f_equal.
  now apply nat_ascii_embedding.
Qed.

Lemma is_infix_byte (c : ascii) (s : string) :
  is_infix (String c EmptyString) s = false -> ~ In (nat_of_ascii c) (bytes_of s).
Proof.
  induction s as [|a s IH]; [intros _ [] |].
  cbn [is_infix is_prefix]. intros H. apply orb_false_iff in H as [Ha Hs].
  rewrite andb_true_r in Ha. apply Ascii.eqb_neq in Ha.
  intros [Heq | Hin]; [| now apply IH].
  apply Ha. apply (f_equal ascii_of_nat) in Heq.
  now rewrite !ascii_nat_embedding in Heq.
Qed.

(** *** The two scans *)

Lemma is_prefix_app (pat rest : string) : is_prefix pat (pat +:+ rest) = true.
Proof. induction pat as [|a pat IH]; [reflexivity |]. simpl. now rewrite Ascii.eqb_refl. Qed.

Lemma drop_bytes_app (pat rest : string) : drop_bytes (String.length pat) (pat +:+ rest) = rest.
Proof. induction pat as [|a pat IH]; [now destruct rest | exact IH]. Qed.

(** The leftmost occurrence of a pattern is where its first byte first
    stands, when nothing before has that byte. *)
Lemma split_first_app (c : ascii) (pat pre rest : string) :
  ~ In (nat_of_ascii c) (bytes_of pre) ->
  split_first (String c pat) (pre +:+ String c pat +:+ rest) = Some (pre, rest).
Proof.
  induction pre as [|a pre IH]; intros Hpre.
  - change (EmptyString +:+ String c pat +:+ rest) with (String c pat +:+ rest).
    destruct (String c pat +:+ rest) eqn:Heq; [discriminate |].
    unfold split_first; fold split_first. rewrite <- Heq, is_prefix_app.
    now rewrite drop_bytes_app.
  - change (String a pre +:+ String c pat +:+ rest)
      with (String a (pre +:+ String c pat +:+ rest)).
    unfold split_first; fold split_first.
    assert (Hne : Ascii.eqb c a = false).
    { apply Ascii.eqb_neq. intros ->. apply Hpre. now left. }
    cbn [is_prefix]. rewrite Hne. cbn [andb].
    rewrite IH; [reflexivity |]. intros Hin. apply Hpre. now right.
Qed.

Lemma split_first_none (pat s : string) :
  is_infix pat s = false -> split_first pat s = None.
Proof.
  induction s as [|a s IH]; intros H.
  - destruct pat; [discriminate | reflexivity].
  - cbn [is_infix] in H. apply orb_false_iff in H as [Hp Hs].
    unfold split_first; fold split_first. rewrite Hp. now rewrite IH.
Qed.

Lemma upto_last_none (c : ascii) (s : string) :
  ~ In (nat_of_ascii c) (bytes_of s) -> upto_last c s = None.
Proof.
  induction s as [|a s IH]; intros H; [reflexivity |].
  cbn [upto_last]. rewrite IH by (intros Hin; apply H; now right).
  destruct (Ascii.eqb_spec a c) as [-> |]; [| reflexivity].
  exfalso. apply H. now left.
Qed.

(** The last occurrence of a byte is the one with none after it. *)
Lemma upto_last_app (c : ascii) (body post : string) :
  ~ In (nat_of_ascii c) (bytes_of post) ->
  upto_last c (body +:+ String c post) = Some body.
Proof.
  intros Hpost. induction body as [|a body IH].
  - change (EmptyString +:+ String c post) with (String c post).
    cbn [upto_last]. rewrite upto_last_none by exact Hpost.
    now rewrite Ascii.eqb_refl.
  - change (String a body +:+ String c post) with (String a (body +:+ String c post)).
    cbn [upto_last]. now rewrite IH.
Qed.

(** *** Leading whitespace *)

Lemma starts_with_app (p x rest : list nat) :
  ~ In 96%nat p -> starts_with p (x ++ 96%nat :: rest) = starts_with p x.
Proof.
  revert x. induction p as [|a p IH]; intros x Hp; [now destruct x |].
  destruct x as [|y x]; cbn [app starts_with].
  - destruct (Nat.eqb_spec a 96) as [-> |]; [| reflexivity].
    exfalso. apply Hp. now left.
  - rewrite IH; [reflexivity |]. intros Hin. apply Hp. now right.
Qed.

Lemma starts_with_length (p x : list nat) :
  starts_with p x = true -> (length p <= length x)%nat.
Proof.
  revert x. induction p as [|a p IH]; intros x H; [simpl; lia |].
  destruct x as [|y x]; [discriminate |].
  cbn [starts_with] in H. apply andb_true_iff in H as [_ H].
  apply IH in H. simpl. lia.
Qed.

Lemma whitespace_no_backquote : Forall (fun p => ~ In 96%nat p) whitespace.
Proof. repeat constructor; simpl; intuition discriminate. Qed.

Lemma find_ext_in {A : Type} (f g : A -> bool) (l : list A) :
  Forall (fun a => f a = g a) l -> List.find f l = List.find g l.
Proof. induction 1 as [|a l Ha _ IH]; [reflexivity |]. simpl. now rewrite Ha, IH. Qed.

Lemma space_width_app (x rest : list nat) :
  space_width whitespace (x ++ 96%nat :: rest) = space_width whitespace x.
Proof.
  unfold space_width. erewrite find_ext_in; [reflexivity |].
  eapply List.Forall_impl; [| exact whitespace_no_backquote].
  intros p Hp. now apply starts_with_app.
Qed.

Lemma space_width_length (pats : list (list nat)) (x : list nat) :
  (space_width pats x <= length x)%nat.
Proof.
  unfold space_width. destruct (List.find _ pats) as [p|] eqn:Hfind; [| lia].
  apply find_some in Hfind as [_ H]. now apply starts_with_length.
Qed.

(** The whitespace skipped ends before a backquote. *)
Lemma skip_spaces_app (x rest : list nat) (skip : nat) :
  (skip <= length x)%nat ->
  skip_spaces whitespace skip (x ++ 96%nat :: rest)
  = skip_spaces whitespace skip x ++ 96%nat :: rest.
Proof.
  revert skip. induction x as [|b x IH]; intros skip Hskip.
  - assert (skip = 0%nat) as -> by (simpl in Hskip; lia). reflexivity.
  - change ((b :: x) ++ 96%nat :: rest) with (b :: (x ++ 96%nat :: rest)).
    cbn [skip_spaces]. destruct skip as [|k].
    + change (b :: (x ++ 96%nat :: rest)) with ((b :: x) ++ 96%nat :: rest).
      rewrite space_width_app.
      pose proof (space_width_length whitespace (b :: x)) as Hw.
      destruct (space_width whitespace (b :: x)) as [|k]; [reflexivity |].
      apply IH. simpl in Hw. lia.
    + apply IH. simpl in Hskip. lia.
Qed.

(** What is left is an end of the text. *)
Lemma skip_spaces_suffix (pats : list (list nat)) (x : list nat) (skip : nat) :
  exists n, skip_spaces pats skip x = List.skipn n x.
Proof.
  revert skip. induction x as [|b x IH]; intros skip; [now exists 0%nat |].
  cbn [skip_spaces]. destruct skip as [|k].
  - destruct (space_width pats (b :: x)) as [|k]; [now exists 0%nat |].
    destruct (IH k) as [n Hn]. now exists (S n).
  - destruct (IH k) as [n Hn]. now exists (S n).
Qed.

(** And it begins with no whitespace. *)
Lemma skip_spaces_twice (pats : list (list nat)) (x : list nat) (skip : nat) :
  skip_spaces pats 0 (skip_spaces pats skip x) = skip_spaces pats skip x.
Proof.
  revert skip. induction x as [|b x IH]; intros skip; [reflexivity |].
  cbn [skip_spaces]. destruct skip as [|k]; [| apply IH].
  destruct (space_width pats (b :: x)) as [|k] eqn:Hw; [| apply IH].
  cbn [skip_spaces]. now rewrite Hw.
Qed.

Lemma lstrip_bytes (s : string) :
  bytes_of (lstrip s) = skip_spaces whitespace 0 (bytes_of s).
Proof.
  unfold lstrip. apply bytes_of_bytes.
  destruct (skip_spaces_suffix whitespace (bytes_of s) 0) as [n ->].
  apply Forall_forall. intros b Hb.
  pose proof (bytes_of_small s) as Hsmall. rewrite Forall_forall in Hsmall.
  apply Hsmall. apply list_elem_of_In. apply list_elem_of_In in Hb.
  rewrite <- (firstn_skipn n (bytes_of s)). apply in_or_app. now right.
Qed.

Lemma lstrip_twice (s : string) : lstrip (lstrip s) = lstrip s.
Proof.
  unfold lstrip at 1. rewrite lstrip_bytes, skip_spaces_twice. reflexivity.
Qed.

Lemma lstrip_keeps_out (b : nat) (s : string) :
  ~ In b (bytes_of s) -> ~ In b (bytes_of (lstrip s)).
Proof.
  intros H Hin. apply H. rewrite lstrip_bytes in Hin.
  destruct (skip_spaces_suffix whitespace (bytes_of s) 0) as [n Hn]. rewrite Hn in Hin.
  rewrite <- (firstn_skipn n (bytes_of s)). apply in_or_app. now right.
Qed.

Lemma lstrip_app (body rest : string) :
  lstrip (body +:+ String "`" rest) = lstrip body +:+ String "`" rest.
Proof.
  unfold lstrip. rewrite bytes_of_app.
  change (bytes_of (String "`" rest)) with (96%nat :: bytes_of rest).
  rewrite skip_spaces_app by lia. rewrite of_bytes_app.
  f_equal. change (96%nat :: bytes_of rest) with (bytes_of (String "`" rest)).
  apply of_bytes_of.
Qed.

(** A word without a backquote that does not begin a text does not begin
    the text with a backquote put after it either. *)
Lemma is_prefix_app_backquote (word body rest : string) :
  ~ In 96%nat (bytes_of word) ->
  is_prefix word body = false ->
  is_prefix word (body +:+ String "`" rest) = false.
Proof.
  revert body. induction word as [|x word IH]; intros body Hword H; [discriminate |].
  destruct body as [|y body].
  - change (EmptyString +:+ String "`" rest) with (String "`" rest).
    cbn [is_prefix]. destruct (Ascii.eqb_spec x "`") as [-> |]; [| reflexivity].
    exfalso. apply Hword. now left.
  - change (String y body +:+ String "`" rest) with (String y (body +:+ String "`" rest)).
    cbn [is_prefix] in *. destruct (Ascii.eqb x y); [| reflexivity].
    cbn [andb] in *. apply IH; [| exact H]. intros Hin. apply Hword. now right.
Qed.

Lemma is_prefix_json_app (body rest : string) :
  is_prefix "json" body = false ->
  is_prefix "json" (body +:+ String "`" rest) = false.
Proof.
  apply is_prefix_app_backquote. simpl. intuition discriminate.
Qed.

Section ParserMore.

Variable json_loads : string -> exn + pyval.

Local Abbreviation extract := (extract_json_from_response json_loads).

(** A reply that the decoder refuses as a whole, with a
    [JSONDecodeError], and that holds a fenced block, with no backquote
    before the block or inside it, is decoded from the content of the block
    with the whitespace around it removed, whatever follows the block. The block may be tagged [json] or not; an untagged content
    must not itself begin with that word. *)
Theorem fenced_block_is_extracted (tagged : bool) (pre body post msg : string) :
  is_infix "`" pre = false ->
  is_infix "`" body = false ->
  (tagged = false -> is_prefix "json" body = false) ->
  json_loads (fenced tagged pre body post) = inl (Exn JSONDecodeError msg) ->
  search_code_block (fenced tagged pre body post) = Some (lstrip body) /\
  extract (fenced tagged pre body post) = loads json_loads (strip body).
Proof.
  intros Hpre Hbody Htag Hwhole.
  apply (is_infix_byte "`") in Hpre. apply (is_infix_byte "`") in Hbody.
  assert (Hblock : search_code_block (fenced tagged pre body post) = Some (lstrip body)).
  { unfold search_code_block, fenced.
    rewrite (split_first_app "`" "``" pre _ Hpre).
    assert (Hrest : (if is_prefix "json"
                          ((if tagged then "json" else EmptyString) +:+ body +:+ "```" +:+ post)
                     then drop_bytes 4 ((if tagged then "json" else EmptyString)
                                        +:+ body +:+ "```" +:+ post)
                     else (if tagged then "json" else EmptyString) +:+ body +:+ "```" +:+ post)
                    = body +:+ "```" +:+ post).
    { destruct tagged; [reflexivity |].
      change (EmptyString +:+ body +:+ "```" +:+ post) with (body +:+ "```" +:+ post).
      change ("```" +:+ post) with (String "`" ("``" +:+ post)).
      now rewrite is_prefix_json_app by auto. }
    rewrite Hrest.
    change ("```" +:+ post) with (String "`" ("``" +:+ post)).
    rewrite lstrip_app.
    change (String "`" ("``" +:+ post)) with (String "`" "``" +:+ post).
    now rewrite (split_first_app "`" "``" (lstrip body) post (lstrip_keeps_out _ _ Hbody)). }
  split; [exact Hblock |].
  unfold extract_json_from_response. rewrite Hwhole, Hblock.
  replace (is_empty (fenced tagged pre body post)) with false
    by (unfold fenced; now destruct pre).
  unfold strip. now rewrite lstrip_twice.
Qed.

(** A reply that the decoder refuses as a whole, with a
    [JSONDecodeError], and that holds no fence is decoded from its first
    opening brace to its last closing brace, both included:
    what stands before the one and after the other is dropped, and whatever
    stands between them, further braces included, is kept. *)
Theorem braces_are_extracted (pre body post msg : string) :
  is_infix "{" pre = false ->
  is_infix "}" post = false ->
  is_infix "```" (braced pre body post) = false ->
  json_loads (braced pre body post) = inl (Exn JSONDecodeError msg) ->
  search_braces (braced pre body post) = Some ("{" +:+ body +:+ "}") /\
  extract (braced pre body post) = loads json_loads ("{" +:+ body +:+ "}").
Proof.
  intros Hpre Hpost Hfence Hwhole.
  apply (is_infix_byte "{") in Hpre. apply (is_infix_byte "}") in Hpost.
  assert (Hspan : search_braces (braced pre body post) = Some ("{" +:+ body +:+ "}")).
  { unfold search_braces, braced.
    change ("{" +:+ body +:+ "}" +:+ post) with (String "{" EmptyString +:+ body +:+ "}" +:+ post).
    rewrite (split_first_app "{" EmptyString pre _ Hpre).
    change ("}" +:+ post) with (String "}" post).
    now rewrite (upto_last_app "}" body post Hpost). }
  split; [exact Hspan |].
  unfold extract_json_from_response. rewrite Hwhole, Hspan.
  replace (is_empty (braced pre body post)) with false
    by (unfold braced; now destruct pre).
  unfold search_code_block. now rewrite (split_first_none _ _ Hfence).
Qed.

End ParserMore.

(** *** On replies of the examples *)

Lemma fenced_block_is_extracted_witness :
  is_infix "`" "Here you go: " = false /\
  is_infix "`" (" " +:+ answer "Keringés" "heart" +:+ " ") = false /\
  Json.loads (fenced true "Here you go: " (" " +:+ answer "Keringés" "heart" +:+ " ")
                " Anything else?")
  = inl (Exn JSONDecodeError "Expecting value: line 1 column 1 (char 0)") /\
  extract_json_from_response Json.loads
    (fenced true "Here you go: " (" " +:+ answer "Keringés" "heart" +:+ " ")
       " Anything else?")
  = Returns (PDict [("category", PStr "Keringés"); ("reasoning", PStr "heart")]).
Proof.
  split; [reflexivity |]. split; [reflexivity |]. split; [reflexivity |].
  destruct (fenced_block_is_extracted Json.loads true "Here you go: "
              (" " +:+ answer "Keringés" "heart" +:+ " ") " Anything else?"
              "Expecting value: line 1 column 1 (char 0)"
              eq_refl eq_refl ltac:(discriminate) eq_refl) as [_ Hextract].
  exact Hextract.
Defined.

Lemma braces_are_extracted_witness :
  is_infix "{" "The answer is " = false /\
  is_infix "}" ", I think." = false /\
  is_infix "```" (braced "The answer is "
                    (quoted "category" +:+ ": " +:+ quoted "Keringés") ", I think.") = false /\
  Json.loads (braced "The answer is "
                (quoted "category" +:+ ": " +:+ quoted "Keringés") ", I think.")
  = inl (Exn JSONDecodeError "Expecting value: line 1 column 1 (char 0)") /\
  extract_json_from_response Json.loads
    (braced "The answer is " (quoted "category" +:+ ": " +:+ quoted "Keringés") ", I think.")
  = Returns (PDict [("category", PStr "Keringés")]).
Proof.
  split; [reflexivity |]. split; [reflexivity |]. split; [reflexivity |].
  split; [reflexivity |].
  destruct (braces_are_extracted Json.loads "The answer is "
              (quoted "category" +:+ ": " +:+ quoted "Keringés") ", I think."
              "Expecting value: line 1 column 1 (char 0)"
              eq_refl eq_refl eq_refl eq_refl) as [_ Hextract].
  exact Hextract.
Defined.

(** Two objects in one reply are taken as one text, which does not
    decode. *)
Example two_objects_in_one_reply :
  search_braces ("First {} and then {}.") = Some "{} and then {}" /\
  extract_json_from_response Json.loads "First {} and then {}."
  = Raises (Exn JSONDecodeError "Extra data: line 1 column 4 (char 3)").
Proof. split; reflexivity. Qed.

(** ** The merge step *)

Lemma keep_successful_dicts (folder_name : string) (records : list dict) :
  keep_successful folder_name (List.map PDict records)
  = (List.map (stamp folder_name) (List.filter usable records), None).
Proof.
  induction records as [|q records IH]; [reflexivity |].
  cbn [List.map keep_successful List.filter]. rewrite IH.
  fold (usable q). now destruct (usable q).
Qed.

Lemma keep_successful_cut (folder_name : string) (records : list dict) (bad : pyval)
    (rest : list pyval) :
  (forall q, bad <> PDict q) ->
  keep_successful folder_name (List.map PDict records ++ bad :: rest)
  = (List.map (stamp folder_name) (List.filter usable records),
     Some (attribute_error bad "get")).
Proof.
  intros Hbad. induction records as [|q records IH].
  - cbn [List.map app keep_successful List.filter].
    destruct bad; try reflexivity. now destruct (Hbad items).
  - cbn [List.map app keep_successful List.filter]. rewrite IH.
    fold (usable q). now destruct (usable q).
Qed.

(** Every record the inner loop keeps passed the test and carries the name
    of the folder. *)
Lemma keep_successful_kept (folder_name : string) (items : list pyval) :
  Forall (fun d => exists q, In (PDict q) items /\ usable q = true /\
                             d = stamp folder_name q)
         (keep_successful folder_name items).1.
Proof.
  induction items as [|item items IH]; [constructor |].
  destruct item; try constructor.
  cbn [keep_successful]. destruct (keep_successful folder_name items) as [kept raised].
  cbn [fst] in IH. fold (usable items0).
  assert (Hrest : Forall (fun d => exists q, In (PDict q) (PDict items0 :: items) /\
                                             usable q = true /\ d = stamp folder_name q) kept).
  { eapply List.Forall_impl; [| exact IH]. cbv beta.
    intros d (q & Hin & Hq & Hd). exists q. split; [now right | now split]. }
  destruct (usable items0) eqn:Husable; cbn [fst]; [| exact Hrest].
  constructor; [| exact Hrest]. exists items0. split; [now left | now split].
Qed.

Lemma merge_parsed_files_app (files files' : list parsed_file) :
  merge_parsed_files (files ++ files')
  = ((merge_parsed_files files).1 ++ (merge_parsed_files files').1,
     (merge_parsed_files files).2 ++ (merge_parsed_files files').2).
Proof.
  induction files as [|f files IH].
  - cbn [app merge_parsed_files fst snd]. now destruct (merge_parsed_files files').
  - cbn [app merge_parsed_files]. rewrite IH.
    destruct (merge_file f) as [kept raised].
    destruct (merge_parsed_files files) as [all_questions errors]. cbn [fst snd].
    rewrite <- app_assoc. now destruct raised.
Qed.

Lemma merge_parsed_files_kept (files : list parsed_file) :
  Forall (fun d => exists f, In f files /\ In d (merge_file f).1)
         (merge_parsed_files files).1.
Proof.
  induction files as [|f files IH]; [constructor |].
  cbn [merge_parsed_files]. destruct (merge_file f) as [kept raised] eqn:Hf.
  destruct (merge_parsed_files files) as [all_questions errors]. cbn [fst] in *.
  apply Forall_app. split.
  - apply List.Forall_forall. intros d Hd. exists f. split; [now left |].
    now rewrite Hf.
  - eapply List.Forall_impl; [| exact IH]. cbv beta.
    intros d (f' & Hin & Hd). exists f'. split; [now right | exact Hd].
Qed.

(** Only records that passed the test of line 118 are merged: each has a
    truthy [success] and a [data] that is there and truthy, carries the name
    of the folder of a file of the input, and has every other key as the
    file gave it. *)
Theorem merged_records_passed_the_test (parsed_files : list parsed_file) :
  Forall (fun d =>
            (exists v, dict_get d "success" = Some v /\ py_truthy v = true) /\
            (exists v, dict_get d "data" = Some v /\ py_truthy v = true) /\
            exists f q items,
              In f parsed_files /\
              (file_content f = Returns (PList items) /\ In (PDict q) items) /\
              dict_get d "source_folder" = Some (PStr (folder_of f)) /\
              forall key, key <> "source_folder" -> dict_get d key = dict_get q key)
         (merge_parsed_files parsed_files).1.
Proof.
  eapply List.Forall_impl; [| apply merge_parsed_files_kept]. cbv beta.
  intros d (f & Hf & Hd). unfold merge_file in Hd.
  destruct (file_content f) as [questions | e] eqn:Hcontent; [| destruct Hd].
  destruct (py_iter questions) as [items | e] eqn:Hiter; [| destruct Hd].
  pose proof (keep_successful_kept (path_name (path_parent (file_path f))) items) as Hkept.
  rewrite List.Forall_forall in Hkept.
  destruct (Hkept d Hd) as (q & Hq & Husable & ->).
  unfold usable in Husable. apply andb_true_iff in Husable as [Hsuccess Hdata].
  assert (Hlist : questions = PList items).
  { destruct questions; try discriminate; cbn in Hiter.
    - injection Hiter as <-. apply in_map_iff in Hq as (c & [=] & _).
    - injection Hiter as <-. reflexivity.
    - injection Hiter as <-. apply in_map_iff in Hq as (c & [=] & _). }
  subst questions. unfold stamp.
  split; [| split].
  - rewrite dict_get_set_ne by discriminate.
    destruct (dict_get q "success") as [v|]; [eauto | discriminate].
  - rewrite dict_get_set_ne by discriminate.
    destruct (dict_get q "data") as [v|]; [eauto | discriminate].
  - exists f, q, items. split; [exact Hf |]. split; [now split |].
    split; [apply dict_get_set_eq |].
    intros key Hkey. now apply dict_get_set_ne.
Qed.

(** What a file contributes, and that files do not affect each other. A
    file that cannot be opened or decoded adds nothing and is logged. A list of objects adds those that
    pass the test, stamped, in their order. A list with an item that is no
    object adds the records that stand before that item, drops those after
    it, and is logged. A content that is no list adds nothing, and is logged
    unless it is an empty object or an empty string. The merge of two runs
    of files is the two merges, one after the other. *)
Theorem merge_goes_file_by_file :
  (forall f e, file_content f = Raises e -> merge_file f = ([], Some e)) /\
  (forall f records,
      file_content f = Returns (PList (List.map PDict records)) ->
      merge_file f = (List.map (stamp (folder_of f)) (List.filter usable records), None)) /\
  (forall f records bad rest,
      file_content f = Returns (PList (List.map PDict records ++ bad :: rest)) ->
      (forall q, bad <> PDict q) ->
      merge_file f = (List.map (stamp (folder_of f)) (List.filter usable records),
                      Some (attribute_error bad "get"))) /\
  (forall f v,
      file_content f = Returns v -> (forall items, v <> PList items) ->
      (merge_file f).1 = [] /\
      ((merge_file f).2 = None <-> v = PDict [] \/ v = PStr EmptyString)) /\
  (forall files files',
      (merge_parsed_files (files ++ files')).1
      = (merge_parsed_files files).1 ++ (merge_parsed_files files').1 /\
      (merge_parsed_files (files ++ files')).2
      = (merge_parsed_files files).2 ++ (merge_parsed_files files').2) /\
  (forall f,
      merge_parsed_files [f]
      = ((merge_file f).1,
         match (merge_file f).2 with Some e => [(file_path f, e)] | None => [] end)).
Proof.
  split; [| split; [| split; [| split; [| split]]]].
  - intros f e H. unfold merge_file. now rewrite H.
  - intros f records H. unfold merge_file. rewrite H. cbn [py_iter].
    apply keep_successful_dicts.
  - intros f records bad rest H Hbad. unfold merge_file. rewrite H. cbn [py_iter].
    now apply keep_successful_cut.
  - intros f v H Hnolist. unfold merge_file. rewrite H.
    destruct v; cbn [py_iter fst snd];
      try (split; [reflexivity | split; [discriminate | intros [|]; discriminate]]).
    + destruct s as [|a s]; [cbn; split; [reflexivity | split; auto] |].
      assert (Hchars : exists c cs, characters (String a s) = c :: cs).
      { cbn [characters]. cbv zeta. destruct s as [|b s]; [eauto |].
        destruct (characters (String b s)); [eauto |].
        destruct (is_continuation b); eauto. }
      destruct Hchars as (c & cs & ->). cbn.
      split; [reflexivity | split; [discriminate | intros [|]; discriminate]].
    + now destruct (Hnolist items).
    + destruct items as [|[k v] items]; [cbn; split; [reflexivity | split; auto] |].
      cbn. split; [reflexivity | split; [discriminate | intros [|]; discriminate]].
  - intros files files'. now rewrite merge_parsed_files_app.
  - intros f. cbn [merge_parsed_files]. destruct (merge_file f) as [kept raised].
    cbn [fst snd]. rewrite app_nil_r. now destruct raised.
Qed.

(** ** The script from the namespace to the output *)

Lemma length_append (s t : string) :
  String.length (s +:+ t) = (String.length s + String.length t)%nat.
Proof. induction s as [|a s IH]; [reflexivity |]. simpl. now rewrite IH. Qed.

Lemma upto_last_some (c : ascii) (s p : string) :
  upto_last c s = Some p -> exists rest, s = p +:+ String c rest.
Proof.
  revert p. induction s as [|a s IH]; intros p; [discriminate |].
  cbn [upto_last]. destruct (upto_last c s) as [p'|].
  - intros [= <-]. destruct (IH p' eq_refl) as [rest ->]. now exists rest.
  - destruct (Ascii.eqb_spec a c) as [-> |]; [| discriminate].
    intros [= <-]. now exists s.
Qed.

Lemma append_empty (s : string) : s +:+ EmptyString = s.
Proof.
  induction s as [|a s IH]; [reflexivity |].
  change (String a s +:+ EmptyString) with (String a (s +:+ EmptyString)). now rewrite IH.
Qed.

Lemma append_assoc (s t u : string) : (s +:+ t) +:+ u = s +:+ t +:+ u.
Proof.
  induction s as [|a s IH]; [reflexivity |].
  change ((String a s +:+ t) +:+ u) with (String a ((s +:+ t) +:+ u)). now rewrite IH.
Qed.

(** A name is its stem and its suffix. *)
Lemma path_name_stem_suffix (p : path) : path_name p = path_stem p +:+ path_suffix p.
Proof.
  unfold path_stem, path_suffix, suffix_dot.
  destruct (upto_last "." (path_name p)) as [stem|] eqn:Hdot.
  - destruct (is_empty stem || _).
    + now rewrite append_empty.
    + apply upto_last_some in Hdot as [rest Hname]. rewrite Hname.
      now rewrite drop_bytes_app.
  - now rewrite append_empty.
Qed.

Lemma parts_name (p : path) :
  is_empty (path_name p) = false -> parts p = removelast (parts p) ++ [path_name p].
Proof.
  unfold path_name. intros Hname.
  destruct (parts p) as [|x xs] eqn:Hparts; [discriminate |].
  apply app_removelast_last. discriminate.
Qed.

Lemma deref_map_seq (records : list dict) (i : nat) (d : dict) :
  records !! i = Some d -> deref (map_seq 0 records) i = d.
Proof. intros H. unfold deref. now rewrite lookup_map_seq_0, H. Qed.

Lemma map_deref_map_seq (records : list dict) :
  List.map (deref (map_seq 0 records)) (seq 0 (length records)) = records.
Proof.
  apply list_eq. intros i.
  change (List.map ?f ?l) with (f <$> l). rewrite list_lookup_fmap.
  destruct (records !! i) as [d|] eqn:Hd.
  - rewrite lookup_seq_lt by (now apply lookup_lt_Some in Hd). cbn.
    now rewrite (deref_map_seq records i d Hd).
  - apply lookup_ge_None in Hd.
    now rewrite (proj2 (lookup_ge_None (seq 0 (length records)) i))
      by (rewrite length_seq; exact Hd).
Qed.

Lemma seq_nonempty {A : Type} (l : list A) : l <> [] -> seq 0 (length l) <> [].
Proof. destruct l; [congruence | discriminate]. Qed.

Section PipelineFacts.

Variable json_loads : string -> exn + pyval.
Variable lower : string -> string.
Variable write : path -> list dict -> write_outcome.
Variable same_file : path -> path -> bool.

Local Abbreviation script := (main_with_merge json_loads lower write same_file).

(** [main] past its checks. *)
Lemma main_classifies (args : gmap string arg_value) (env : gmap string string)
    (heap0 : gmap nat dict) (questions : list nat) (services : nat -> Z -> reply)
    (order : list nat) (log output : path) (workers : Z) (key : string) :
  args !! "log" = Some (VPath log) ->
  args !! "merge_only" = Some (VBool false) ->
  args !! "output" = Some (VPath output) ->
  args !! "workers" = Some (VInt workers) ->
  questions <> [] ->
  api_key env = Some key ->
  main json_loads lower write same_file args env heap0 questions services order
  = (match categorize_all_questions json_loads lower (write output) heap0 questions
             services workers order with
     | Raises e => Uncaught e
     | Returns st => Categorized st
     end,
     if (workers <=? 0)%Z then None
     else Some (output,
                logged_over (same_file log output)
                  (output_file (fst (pool_run json_loads lower (write output) heap0
                                       questions services order))))).
Proof.
  intros Hlog Hmerge Houtput Hworkers Hne Hkey.
  unfold main. rewrite Hlog, Hmerge, Houtput, Hworkers.
  destruct questions; [congruence |]. now rewrite Hkey.
Qed.

Lemma main_merges_only (args : gmap string arg_value) (env : gmap string string)
    (heap0 : gmap nat dict) (questions : list nat) (services : nat -> Z -> reply)
    (order : list nat) (log output : path) (workers : Z) :
  args !! "log" = Some (VPath log) ->
  args !! "merge_only" = Some (VBool true) ->
  args !! "output" = Some (VPath output) ->
  args !! "workers" = Some (VInt workers) ->
  questions <> [] ->
  main json_loads lower write same_file args env heap0 questions services order
  = match with_stem output (path_stem output +:+ "_merged") with
    | Raises e => (Uncaught e, None)
    | Returns merged_output =>
        let content := List.map (deref heap0) questions in
        let over := logged_over (same_file log merged_output) in
        match write merged_output content with
        | Written =>
            (MergedOnly merged_output content, Some (merged_output, over (Dumped content)))
        | OpenFails e => (Uncaught e, Some (merged_output, over Untouched))
        | DumpFails e => (Uncaught e, Some (merged_output, over (Cut content)))
        end
    end.
Proof.
  intros Hlog Hmerge Houtput Hworkers Hne.
  unfold main. rewrite Hlog, Hmerge, Houtput, Hworkers.
  now destruct questions; [congruence |].
Qed.

(** The records in the store once every future came in, for records that
    were laid out one per address. *)
Lemma collected_records (records : list dict) (services : nat -> Z -> reply)
    (order : list nat) :
  Permutation order (seq 0 (length records)) ->
  List.map
    (deref (heap (collected (seq 0 (length records))
                    (submit json_loads lower (map_seq 0 records) (seq 0 (length records))
                       services)
                    (map_seq 0 records) order)))
    (seq 0 (length records))
  = imap (categorized_record json_loads lower services) records.
Proof.
  intros Hperm.
  set (questions := seq 0 (length records)).
  set (heap0 := map_seq 0 records : gmap nat dict).
  set (futures := submit json_loads lower heap0 questions services).
  assert (Hsize : length questions = length records) by apply length_seq.
  assert (Hperm' : Permutation order (seq 0 (length questions))) by now rewrite Hsize.
  destruct (order_in_range json_loads lower heap0 questions services order Hperm')
    as (Hnodup & _ & Hrange).
  apply list_eq. intros i.
  change (List.map ?f ?l) with (f <$> l). rewrite list_lookup_fmap, list_lookup_imap.
  destruct (records !! i) as [d|] eqn:Hd.
  - assert (Hi : (i < length records)%nat) by (now apply lookup_lt_Some in Hd).
    assert (Hq : questions !! i = Some i) by (unfold questions; now rewrite lookup_seq_lt).
    rewrite Hq. cbn [fmap option_fmap option_map]. f_equal.
    destruct (collected_heap_lookup questions futures heap0 order
                (seq_NoDup _ _) Hnodup Hrange i) as [Hin _].
    assert (Hr : futures !! i
                 = Some (categorize_question json_loads lower d (services i) 3).1).
    { unfold futures. rewrite (submit_lookup json_loads lower _ _ _ _ _ Hq).
      unfold heap0. now rewrite (deref_map_seq records i d Hd). }
    assert (Hi' : In i order).
    { apply (Permutation_in i (Permutation_sym Hperm)), in_seq. lia. }
    unfold deref. rewrite (Hin i _ Hi' Hq Hr).
    unfold heap0. rewrite lookup_map_seq_0, Hd. reflexivity.
  - apply lookup_ge_None in Hd.
    now rewrite (proj2 (lookup_ge_None questions i)) by (rewrite Hsize; exact Hd).
Qed.

(** From the namespace to the file. With at least one merged record, no
    merge-only switch, an API key, at least one worker, a log that is
    another file than the output, and checkpoint writes that all go in
    whole, the script ends after the classification, and the output file
    then holds the merged records, in the order of the merge, each with the
    outcome of its own task written under [categorization] and nothing else
    changed, in whatever order the tasks finished. *)
Theorem script_writes_the_merged_records_categorized
    (args : gmap string arg_value) (env : gmap string string)
    (found : path -> list parsed_file)
    (services : nat -> Z -> reply) (order : list nat)
    (input log output : path) (workers : Z) (key : string) :
  args !! "input" = Some (VPath input) ->
  args !! "log" = Some (VPath log) ->
  args !! "merge_only" = Some (VBool false) ->
  args !! "output" = Some (VPath output) ->
  args !! "workers" = Some (VInt workers) ->
  (1 <= workers)%Z ->
  api_key env = Some key ->
  (merge_parsed_files (found input)).1 <> [] ->
  Permutation order (seq 0 (length (merge_parsed_files (found input)).1)) ->
  same_file log output = false ->
  all_written (write output)
    (saves (pool_log
              (collected (seq 0 (length (merge_parsed_files (found input)).1))
                 (submit json_loads lower (map_seq 0 (merge_parsed_files (found input)).1)
                    (seq 0 (length (merge_parsed_files (found input)).1)) services)
                 (map_seq 0 (merge_parsed_files (found input)).1) order))) ->
  exists st,
    script args env found services order
    = (Categorized st,
       Some (output,
             Dumped (imap (categorized_record json_loads lower services)
                       (merge_parsed_files (found input)).1))) /\
    List.map (deref (heap st)) (current_results (results st))
    = imap (categorized_record json_loads lower services)
        (merge_parsed_files (found input)).1.
Proof.
  intros Hinput Hlog Hmerge Houtput Hworkers Hpool Hkey Hrecords Hperm Hsame Hwritten.
  set (records := (merge_parsed_files (found input)).1) in *.
  set (questions := seq 0 (length records)) in *.
  set (heap0 := map_seq 0 records : gmap nat dict) in *.
  set (futures := submit json_loads lower heap0 questions services) in *.
  assert (Hsize : length questions = length records) by apply length_seq.
  assert (Hperm' : Permutation order (seq 0 (length questions))) by now rewrite Hsize.
  assert (Hlen : length futures = length questions) by apply length_imap.
  assert (Hne : questions <> []) by now apply seq_nonempty.
  exists (collected questions futures heap0 order).
  assert (Hsnap : List.map (deref (heap (collected questions futures heap0 order)))
                    (current_results (results (collected questions futures heap0 order)))
                  = imap (categorized_record json_loads lower services) records).
  { rewrite (collected_results_full questions futures heap0 order Hlen Hperm').
    rewrite current_results_all. now apply collected_records. }
  split; [| exact Hsnap].
  unfold main_with_merge. rewrite Hinput. fold records questions heap0.
  rewrite (main_classifies args env heap0 questions services order log output workers key)
    by assumption.
  rewrite (categorize_all_questions_collected json_loads lower (write output) heap0
             questions services workers order Hpool Hwritten).
  destruct (Z.leb_spec workers 0); [lia |].
  unfold pool_run. fold futures.
  unfold collected in Hwritten.
  rewrite (loop_written (write output) questions futures order _ Hwritten).
  cbn [fst]. fold (collected questions futures heap0 order).
  rewrite Hsame. cbn [logged_over].
  rewrite (collected_final_file questions futures heap0 order Hlen Hperm' Hne).
  unfold snapshot. now rewrite Hsnap.
Qed.

(** With the merge-only switch the script needs no key and calls no
    service: it dumps the merged records, as merged, to a file beside the
    output path whose name is the stem of the output name, then [_merged],
    then its suffix. That file is never the output file itself. When the
    dump goes in whole and the log is another file, the file holds the
    merged records; a dump that raises ends the script with its exception.
    An output path without a name (the current folder, the root) makes the
    script end with a [ValueError] before it writes. *)
Theorem merge_only_writes_beside_the_output
    (args : gmap string arg_value) (env : gmap string string)
    (found : path -> list parsed_file)
    (services : nat -> Z -> reply) (order : list nat)
    (input log output : path) (workers : Z) :
  args !! "input" = Some (VPath input) ->
  args !! "log" = Some (VPath log) ->
  args !! "merge_only" = Some (VBool true) ->
  args !! "output" = Some (VPath output) ->
  args !! "workers" = Some (VInt workers) ->
  (merge_parsed_files (found input)).1 <> [] ->
  (path_name output = EmptyString ->
   exists message,
     script args env found services order = (Uncaught (Exn ValueError message), None)) /\
  (path_name output <> EmptyString ->
   exists merged_output,
     with_stem output (path_stem output +:+ "_merged") = Returns merged_output /\
     path_name merged_output = path_stem output +:+ "_merged" +:+ path_suffix output /\
     path_parent merged_output = path_parent output /\
     merged_output <> output /\
     (write merged_output (merge_parsed_files (found input)).1 = Written ->
      same_file log merged_output = false ->
      script args env found services order
      = (MergedOnly merged_output (merge_parsed_files (found input)).1,
         Some (merged_output, Dumped (merge_parsed_files (found input)).1))) /\
     (forall e,
         write merged_output (merge_parsed_files (found input)).1 = OpenFails e
         \/ write merged_output (merge_parsed_files (found input)).1 = DumpFails e ->
         fst (script args env found services order) = Uncaught e)).
Proof.
  intros Hinput Hlog Hmerge Houtput Hworkers Hrecords.
  set (records := (merge_parsed_files (found input)).1) in *.
  assert (Hrun : script args env found services order
                 = match with_stem output (path_stem output +:+ "_merged") with
                   | Raises e => (Uncaught e, None)
                   | Returns merged_output =>
                       let over := logged_over (same_file log merged_output) in
                       match write merged_output records with
                       | Written =>
                           (MergedOnly merged_output records,
                            Some (merged_output, over (Dumped records)))
                       | OpenFails e => (Uncaught e, Some (merged_output, over Untouched))
                       | DumpFails e => (Uncaught e, Some (merged_output, over (Cut records)))
                       end
                   end).
  { unfold main_with_merge. rewrite Hinput. fold records.
    rewrite (main_merges_only args env _ _ services order log output workers
               Hlog Hmerge Houtput Hworkers (seq_nonempty records Hrecords)).
    now rewrite map_deref_map_seq. }
  rewrite Hrun. unfold with_stem. split.
  - intros Hname. rewrite Hname. cbn [is_empty]. eauto.
  - intros Hname.
    assert (Hne : is_empty (path_name output) = false)
      by (destruct (path_name output); [congruence | reflexivity]).
    rewrite Hne. eexists.
    assert (Hnew : path_name
                     {| root := root output;
                        parts := removelast (parts output)
                                 ++ [(path_stem output +:+ "_merged") +:+ path_suffix output] |}
                   = path_stem output +:+ "_merged" +:+ path_suffix output).
    { unfold path_name at 1. cbn [parts]. rewrite last_last. apply append_assoc. }
    split; [reflexivity |]. split; [exact Hnew |]. split; [| split; [| split]].
    + unfold path_parent. cbn [root parts]. now rewrite removelast_last.
    + intros Heq. apply (f_equal path_name) in Heq. rewrite Hnew in Heq.
      apply (f_equal String.length) in Heq.
      rewrite (path_name_stem_suffix output), !length_append in Heq.
      simpl in Heq. lia.
    + intros -> ->. reflexivity.
    + intros e [-> | ->]; reflexivity.
Qed.


End PipelineFacts.

(** *** On the folder of the examples *)

(** The merge of the three files: the good record of the first, and the
    record of the third that stands before the string. Two files are
    logged: the one that does not decode, and the one with the string. *)
Example example_merge :
  merge_parsed_files example_files
  = ([stamp "2019" (extracted "q1.png" true (question_data "Hol van a szív?" "A mellkasban"));
      stamp "2021" (extracted "q4.png" true (question_data "Mi a tüdő?" "Légzőszerv"))],
     [(path_of_string "extracted/2020/parsed.json",
       Exn JSONDecodeError "Expecting value: line 1 column 1 (char 0)");
      (path_of_string "extracted/2021/parsed.json",
       attribute_error (PStr "oops") "get")]).
Proof. reflexivity. Qed.

Lemma example_order_two :
  Permutation [1; 0]%nat (seq 0 (length (merge_parsed_files example_files).1)).
Proof. apply perm_swap. Qed.

Lemma example_files_written :
  all_written (write_utf8 (path_of_string "categorized_questions.json"))
    (saves (pool_log
              (collected (seq 0 (length (merge_parsed_files example_files).1))
                 (submit Json.loads lower_hu (map_seq 0 (merge_parsed_files example_files).1)
                    (seq 0 (length (merge_parsed_files example_files).1)) example_services)
                 (map_seq 0 (merge_parsed_files example_files).1) [1; 0]%nat))).
Proof. apply all_written_check. vm_compute. reflexivity. Defined.

Lemma script_writes_the_merged_records_categorized_witness :
  api_key example_env = Some "secret" /\
  same_path (path_of_string "categorizer.log") (path_of_string "categorized_questions.json")
  = false /\
  exists st,
    main_with_merge Json.loads lower_hu write_utf8 same_path (example_args 2) example_env
      (fun _ => example_files) example_services [1; 0]%nat
    = (Categorized st,
       Some (path_of_string "categorized_questions.json",
             Dumped
               [dict_set (stamp "2019" (extracted "q1.png" true
                                          (question_data "Hol van a szív?" "A mellkasban")))
                  "categorization" (PDict (success (PStr "Keringés") (PStr "heart")));
                dict_set (stamp "2021" (extracted "q4.png" true
                                          (question_data "Mi a tüdő?" "Légzőszerv")))
                  "categorization" (PDict (failure too_many_requests))])).
Proof.
  split; [reflexivity |]. split; [reflexivity |].
  destruct (script_writes_the_merged_records_categorized Json.loads lower_hu
              write_utf8 same_path (example_args 2) example_env (fun _ => example_files)
              example_services [1; 0]%nat
              (path_of_string "extracted") (path_of_string "categorizer.log")
              (path_of_string "categorized_questions.json") 2 "secret"
              eq_refl eq_refl eq_refl eq_refl eq_refl ltac:(lia) eq_refl
              ltac:(discriminate) example_order_two eq_refl example_files_written)
    as (st & Hrun & _).
  exists st. exact Hrun.
Defined.

(** With the log on the output path the run is the same, and the file is
    no dump of the records: the handler of the log writes its lines into
    it. *)
Example log_on_the_output_path :
  exists st,
    main_with_merge Json.loads lower_hu write_utf8 same_path
      (<["log" := VPath (path_of_string "categorized_questions.json")]> (example_args 2))
      example_env (fun _ => example_files) example_services [1; 0]%nat
    = (Categorized st, Some (path_of_string "categorized_questions.json", Spoiled)).
Proof. eexists. vm_compute. reflexivity. Qed.

Lemma merge_only_writes_beside_the_output_witness :
  exists merged_output,
    main_with_merge Json.loads lower_hu write_utf8 same_path
      (example_args_merge "out/all.json") ∅ (fun _ => example_files) example_services []
    = (MergedOnly merged_output (merge_parsed_files example_files).1,
       Some (merged_output, Dumped (merge_parsed_files example_files).1)) /\
    path_name merged_output = "all_merged.json" /\
    path_parent merged_output = path_of_string "out".
Proof.
  destruct (merge_only_writes_beside_the_output Json.loads lower_hu write_utf8 same_path
              (example_args_merge "out/all.json") ∅
              (fun _ => example_files) example_services []
              (path_of_string "extracted") (path_of_string "categorizer.log")
              (path_of_string "out/all.json") 10
              eq_refl eq_refl eq_refl eq_refl eq_refl ltac:(discriminate))
    as [_ Hnamed].
  destruct (Hnamed ltac:(discriminate))
    as (merged_output & Hstem & Hname & Hparent & _ & Hrun & _).
  exists merged_output. split; [| split; [exact Hname | exact Hparent]].
  injection Hstem as <-. apply Hrun; reflexivity.
Defined.



(** ** The summary *)

Lemma list_sum_cons (n : nat) (l : list nat) : list_sum (n :: l) = (n + list_sum l)%nat.
Proof. reflexivity. Qed.

Lemma list_sum_le_one (s : string) (cats : list string) :
  List.NoDup cats ->
  (list_sum (List.map (fun cat => if String.eqb s cat then 1 else 0) cats) <= 1)%nat.
Proof.
  induction 1 as [|cat cats Hnot _ IH]; [simpl; lia |].
  cbn [List.map]. rewrite !list_sum_cons. destruct (String.eqb_spec s cat) as [Heq | _]; [| exact IH].
  subst s.
  assert (Hzero : list_sum (List.map (fun c => if String.eqb cat c then 1 else 0) cats)
                  = 0%nat).
  { clear IH. induction cats as [|c cats IH]; [reflexivity |].
    cbn [List.map]. rewrite !list_sum_cons. destruct (String.eqb_spec cat c) as [-> | _].
    - exfalso. apply Hnot. now left.
    - rewrite IH; [reflexivity |]. intros Hin. apply Hnot. now right. }
  rewrite Hzero. lia.
Qed.

Lemma categories_differ : List.NoDup CATEGORIES.
Proof. apply NoDup_ListNoDup. compute_done. Qed.

(** An outcome counts for one category at most, and only when it is a
    success. *)
Lemma labelled_once (o : dict) (cats : list string) :
  List.NoDup cats ->
  (list_sum (List.map (fun cat => if labelled cat o then 1 else 0) cats)
   <= if succeeded o then 1 else 0)%nat.
Proof.
  intros Hcats. unfold labelled. destruct (succeeded o); cbn [andb].
  - destruct (dict_get o "category") as [[]|];
      try (induction cats; simpl in *; [lia | apply IHcats; now inversion Hcats]).
    now apply list_sum_le_one.
  - induction cats; simpl in *; [lia | apply IHcats; now inversion Hcats].
Qed.

Lemma labelled_sum (outs : list dict) (cats : list string) :
  List.NoDup cats ->
  (list_sum (List.map (fun cat => length (List.filter (labelled cat) outs)) cats)
   <= length (List.filter succeeded outs))%nat.
Proof.
  intros Hcats. induction outs as [|o outs IH].
  - induction cats; simpl in *; [lia | apply IHcats; now inversion Hcats].
  - pose proof (labelled_once o cats Hcats) as Ho.
    assert (Hsplit : list_sum (List.map (fun cat => length (List.filter (labelled cat)
                                                              (o :: outs))) cats)
                     = (list_sum (List.map (fun cat => if labelled cat o then 1 else 0) cats)
                        + list_sum (List.map (fun cat => length (List.filter (labelled cat)
                                                                   outs)) cats))%nat).
    { clear. induction cats as [|cat cats IH]; [reflexivity |].
      cbn [List.map]. rewrite !list_sum_cons. rewrite IH.
      cbn [List.filter]. destruct (labelled cat o); simpl; lia. }
    rewrite Hsplit. cbn [List.filter]. destruct (succeeded o); simpl in *; lia.
Qed.

Lemma filter_length_le {A : Type} (f : A -> bool) (l : list A) :
  (length (List.filter f l) <= length l)%nat.
Proof. induction l as [|a l IH]; simpl; [lia |]. destruct (f a); simpl; lia. Qed.

(** What the summary reads in a record that carries an outcome. *)
Lemma categorization_get_outcome (q o : dict) (key : string) (default : pyval) :
  dict_get q "categorization" = Some (PDict o) ->
  categorization_get q key default
  = Returns (match dict_get o key with Some v => v | None => default end).
Proof. intros H. unfold categorization_get. now rewrite H. Qed.

Lemma count_successful_outcomes (categorized outs : list dict) :
  Forall2 (fun q o => dict_get q "categorization" = Some (PDict o) /\ outcome_shape o)
          categorized outs ->
  count_successful categorized = Returns (length (List.filter succeeded outs)).
Proof.
  induction 1 as [|q o categorized outs [Hq Ho] _ IH]; [reflexivity |].
  cbn [count_successful List.filter].
  rewrite (categorization_get_outcome q o _ _ Hq), IH. cbn [bind].
  destruct Ho as [(c & r & ->) | [Hfalse _]].
  - reflexivity.
  - unfold succeeded. now rewrite Hfalse.
Qed.

Lemma count_categories_outcomes (categorized outs : list dict) :
  Forall2 (fun q o => dict_get q "categorization" = Some (PDict o) /\ outcome_shape o)
          categorized outs ->
  forall counts,
  exists counts',
    count_categories categorized counts = Returns counts' /\
    forall cat,
      cat <> "Unknown" ->
      match counts' !! cat with Some n => n | None => 0%nat end
      = (match counts !! cat with Some n => n | None => 0%nat end
         + length (List.filter (labelled cat) outs))%nat.
Proof.
  induction 1 as [|q o categorized outs [Hq Ho] _ IH]; intros counts.
  - exists counts. split; [reflexivity |]. intros cat _. simpl. lia.
  - cbn [count_categories List.filter].
    rewrite (categorization_get_outcome q o _ _ Hq). cbn [bind].
    destruct Ho as [(c & r & ->) | [Hfalse Hnone]].
    + cbn [dict_get success String.eqb Ascii.eqb Bool.eqb andb].
      change (dict_get (success (PStr c) r) "category") with (Some (PStr c)).
      cbv iota.
      destruct (IH (<[c := (match counts !! c with Some n => n | None => 0 end + 1)%nat]>
                      counts)) as (counts' & Hrun & Hcount).
      exists counts'. split; [exact Hrun |]. intros cat Hcat. rewrite (Hcount cat Hcat).
      unfold labelled, succeeded.
      change (dict_get (success (PStr c) r) "success") with (Some (PBool true)).
      change (dict_get (success (PStr c) r) "category") with (Some (PStr c)).
      cbn [andb]. destruct (String.eqb_spec c cat) as [-> | Hne].
      * rewrite lookup_insert_eq. simpl. lia.
      * rewrite lookup_insert_ne by exact Hne. simpl. lia.
    + rewrite Hnone.
      destruct (IH (<["Unknown" := (match counts !! "Unknown" with
                                     | Some n => n
                                     | None => 0
                                     end + 1)%nat]> counts))
        as (counts' & Hrun & Hcount).
      exists counts'. split; [exact Hrun |]. intros cat Hcat. rewrite (Hcount cat Hcat).
      rewrite lookup_insert_ne by congruence.
      unfold labelled, succeeded. rewrite Hfalse. simpl. lia.
Qed.

Section SummaryFacts.

Variable json_loads : string -> exn + pyval.
Variable lower : string -> string.

Lemma validated_returns_string (parsed : pyval) (d : dict) :
  validated lower parsed = Returns d ->
  exists category reasoning, d = success (PStr category) reasoning.
Proof.
  unfold validated, bind, py_get, validate_category.
  destruct parsed; try discriminate.
  destruct (dict_get items "category") as [[]|]; try discriminate;
    intros [= <-]; eauto.
Qed.

Lemma attempts_outcome_shape (service : Z -> reply) (max_retries : Z) (fuel : nat) (k : Z)
    (response : option string) (j : Z) (d : dict) (evs : list event) :
  attempts json_loads lower service max_retries fuel k response = (Some (j, d), evs) ->
  outcome_shape d.
Proof.
  revert k response evs. induction fuel as [|fuel IH]; intros k response evs; [discriminate |].
  destruct (attempt_body_eq json_loads lower service k response) as (evs0 & Hbody & _).
  cbn [attempts]. rewrite Hbody.
  destruct (try_result json_loads lower service k) as [d' | e] eqn:Htry.
  - intros [= <- <- <-]. unfold try_result in Htry.
    destruct (service k); [| discriminate].
    destruct (extract_json_from_response json_loads text); [| discriminate].
    left. now apply validated_returns_string in Htry.
  - destruct (on_exception _ _ _ _) as [d' | delay] eqn:Hexc.
    + intros [= <- <- <-]. apply on_exception_done in Hexc.
      destruct Hexc as [(_ & -> & _) | (_ & -> & _)]; right; now split.
    + destruct (attempts json_loads lower service max_retries fuel (k + 1)%Z _)
        as [out evs'] eqn:Hnext.
      intros [= -> <-]. eapply IH. exact Hnext.
Qed.

(** Whatever the service does, the outcome of a task is a success with a
    string for its category, or a failure. *)
Lemma task_outcome_shape (question : dict) (service : Z -> reply) (max_retries : Z) :
  outcome_shape (outcome_of (categorize_question json_loads lower question service
                               max_retries).1).
Proof.
  destruct (dict_data question) eqn:Hdata.
  - rewrite (categorize_question_loop _ _ _ _ _ Hdata). cbn [fst outcome_of].
    unfold retry_loop.
    destruct (attempts json_loads lower service max_retries _ 0%Z None)
      as [[[j d]|] evs] eqn:Hloop; cbn.
    + eapply attempts_outcome_shape. exact Hloop.
    + right. now split.
  - destruct (categorize_question_no_dict json_loads lower question service max_retries
                Hdata) as [e ->].
    right. now split.
Qed.

Lemma categorized_outcomes (services : nat -> Z -> reply) (records : list dict) :
  Forall2 (fun q o => dict_get q "categorization" = Some (PDict o) /\ outcome_shape o)
          (imap (categorized_record json_loads lower services) records)
          (outcomes json_loads lower services records).
Proof.
  unfold outcomes. revert services.
  induction records as [|q records IH]; intros services; [constructor |].
  cbn [imap]. constructor.
  - split; [apply dict_get_set_eq | apply task_outcome_shape].
  - apply (IH (fun i => services (S i))).
Qed.

(** The summary of a run, for records laid out one per address. It never
    raises. The number it logs as successful is the number of tasks that
    ended in a success, and the line of a category counts the tasks that
    ended in a success with that category. A success whose label matched no
    category keeps the label and is counted in no line, and neither is a
    failure: the lines add up to at most the successes, and the successes
    to at most the records. *)
Theorem summary_counts_the_outcomes (services : nat -> Z -> reply) (records : list dict) :
  exists log,
    summary (imap (categorized_record json_loads lower services) records) = Returns log /\
    successful log
    = length (List.filter succeeded (outcomes json_loads lower services records)) /\
    total log = length records /\
    distribution log
    = List.map (fun cat =>
                  (cat, length (List.filter (labelled cat)
                                  (outcomes json_loads lower services records))))
               CATEGORIES /\
    (list_sum (List.map snd (distribution log)) <= successful log <= total log)%nat.
Proof.
  pose proof (categorized_outcomes services records) as Hall.
  set (outs := outcomes json_loads lower services records) in *.
  destruct (count_categories_outcomes _ _ Hall ∅) as (counts & Hcounts & Hcount).
  assert (Hlines : List.map (fun cat => (cat, match counts !! cat with
                                              | Some n => n
                                              | None => 0%nat
                                              end)) CATEGORIES
                   = List.map (fun cat => (cat, length (List.filter (labelled cat) outs)))
                       CATEGORIES).
  { apply List.map_ext_in. intros cat Hcat. f_equal.
    rewrite (Hcount cat); [now rewrite lookup_empty |].
    intros ->. revert Hcat. clear. intros H.
    apply (proj2 (in_categories_true_iff "Unknown")) in H. discriminate H. }
  eexists. split.
  - unfold summary. rewrite (count_successful_outcomes _ _ Hall), Hcounts. reflexivity.
  - cbn [successful total distribution]. split; [reflexivity |].
    split; [apply length_imap |]. split; [exact Hlines |].
    rewrite Hlines, List.map_map. cbn [snd]. split.
    + apply labelled_sum, categories_differ.
    + etransitivity; [apply filter_length_le |].
      unfold outs, outcomes. now rewrite !length_imap.
Qed.

End SummaryFacts.

(** On the folder of the examples: one success out of two records, and
    one line of the distribution that is not zero. *)
Example example_summary :
  exists log,
    summary (imap (categorized_record Json.loads lower_hu example_services)
               (merge_parsed_files example_files).1) = Returns log /\
    successful log = 1%nat /\ total log = 2%nat /\
    List.filter (fun line => negb (snd line =? 0)%nat) (distribution log)
    = [("Keringés", 1%nat)].
Proof. eexists. split; [reflexivity |]. repeat split. Qed.

(** A success outside the list: the label of the reply matched no
    category, and the record is counted as successful and in no line. *)
Example success_outside_the_categories :
  exists log,
    summary (imap (categorized_record Json.loads lower_hu
                     (fun _ _ => Text (answer "Cardiology" "heart")))
               [extracted "q1.png" true (question_data "Hol van a szív?" "A mellkasban")])
    = Returns log /\
    successful log = 1%nat /\
    list_sum (List.map snd (distribution log)) = 0%nat.
Proof. eexists. split; [reflexivity |]. split; reflexivity. Qed.

(** ** The validator, once more *)

(** Validation is stable. What it returns is a category of the list or the
    label itself, untouched; and validating the result again returns it
    unchanged, so a stored category can be validated any number of times. *)
Theorem validation_is_stable (lower : string -> string) (label : string) :
  (In (validate_label lower label) CATEGORIES \/ validate_label lower label = label) /\
  validate_label lower (validate_label lower label) = validate_label lower label.
Proof.
  assert (Hkept : forall member, In member CATEGORIES -> validate_label lower member = member).
  { intros member H. unfold validate_label.
    now rewrite (proj2 (in_categories_true_iff member) H). }
  assert (Hcases : In (validate_label lower label) CATEGORIES
                   \/ validate_label lower label = label).
  { unfold validate_label. destruct (in_categories label) eqn:Hin.
    - left. now apply in_categories_true_iff.
    - destruct (closest_match_spec lower CATEGORIES label)
        as [(i & member & Hi & _ & _ & ->) | [_ ->]]; [left | now right].
      apply list_elem_of_In. eapply list_elem_of_lookup_2. exact Hi. }
  split; [exact Hcases |].
  destruct Hcases as [H | H]; [now apply Hkept | now rewrite !H].
Qed.

(** * The splitter *)

(** ** Groups of similar questions *)

Lemma key_eqb_eq (a b : dict_key) : key_eqb a b = true <-> a = b.
Proof.
  destruct a, b; cbn; try (split; [discriminate | congruence]).
  - tauto.
  - rewrite Z.eqb_eq. split; congruence.
  - rewrite String.eqb_eq. split; congruence.
Qed.

Lemma key_eqb_refl (k : dict_key) : key_eqb k k = true.
Proof. now apply key_eqb_eq. Qed.

Lemma key_eqb_neq (a b : dict_key) : a <> b -> key_eqb a b = false.
Proof.
  intros H. destruct (key_eqb a b) eqn:E; [| reflexivity].
  now apply key_eqb_eq in E.
Qed.

Lemma key_get_none {A : Type} (d : list (dict_key * A)) (k : dict_key) :
  key_get d k = None <-> ~ In k (List.map fst d).
Proof.
  induction d as [|[k' v] d IH]; cbn; [tauto |].
  destruct (key_eqb k' k) eqn:E.
  - apply key_eqb_eq in E. split; [discriminate | intros H; exfalso; apply H; now left].
  - rewrite IH. split.
    + intros H [Heq | Hin]; [| now apply H]. subst. now rewrite key_eqb_refl in E.
    + intros H Hin. apply H. now right.
Qed.

(** A new key goes last. *)
Lemma key_set_new {A : Type} (d : list (dict_key * A)) (k : dict_key) (v : A) :
  key_get d k = None -> key_set d k v = d ++ [(k, v)].
Proof.
  induction d as [|[k' v'] d IH]; cbn; [reflexivity |].
  destruct (key_eqb k' k); [discriminate |]. intros H. now rewrite IH.
Qed.

(** An existing key keeps its place. *)
Lemma key_set_old {A : Type} (d : list (dict_key * A)) (k : dict_key) (g v : A) :
  key_get d k = Some g ->
  exists before after,
    d = before ++ (k, g) :: after /\ key_set d k v = before ++ (k, v) :: after.
Proof.
  induction d as [|[k' v'] d IH]; cbn; [discriminate |].
  destruct (key_eqb k' k) eqn:E.
  - apply key_eqb_eq in E. subst. intros [= ->]. now exists [], d.
  - intros H. destruct (IH H) as (before & after & -> & ->).
    now exists ((k', v') :: before), after.
Qed.

Lemma decimal_inj (m n : nat) : Json.decimal m = Json.decimal n -> m = n.
Proof.
  unfold Json.decimal. intros H.
  apply (f_equal NilEmpty.uint_of_string) in H. rewrite !NilEmpty.usu in H.
  injection H as H. apply (f_equal Nat.of_uint) in H.
  now rewrite !DecimalNat.Unsigned.of_to in H.
Qed.

Lemma null_key_inj (m n : nat) : null_key m = null_key n -> m = n.
Proof.
  unfold null_key. intros [= H]. now apply decimal_inj.
Qed.

(** An id that is plain names none of the keys made for items without
    id. *)
Lemma plain_key_not_null (item : pyval) (k : dict_key) (j : nat) :
  plain_id item = true -> id_key item = Some k -> k <> null_key j.
Proof.
  unfold plain_id, id_key, null_key.
  destruct (group_id_of item) as [[]|]; try discriminate; cbn.
  - intros _ [= <-]. discriminate.
  - intros _ [= <-]. discriminate.
  - intros Hplain [= <-] [= ->]. cbn in Hplain. discriminate.
Qed.

Lemma groups_ok_more (null_counter : nat) (entry : dict_key * list pyval) :
  group_entry_ok null_counter entry -> group_entry_ok (S null_counter) entry.
Proof.
  intros [(j & item & Hj & H) | H]; [left | now right].
  exists j, item. split; [lia | exact H].
Qed.

Lemma key_get_app_new {A : Type} (d : list (dict_key * A)) (k : dict_key) (v : A) :
  key_get d k = None -> key_get (d ++ [(k, v)]) k = Some v.
Proof.
  induction d as [|[k' v'] d IH]; cbn; [now rewrite key_eqb_refl |].
  destruct (key_eqb k' k); [discriminate | exact IH].
Qed.

Lemma key_set_app_new {A : Type} (d : list (dict_key * A)) (k : dict_key) (v v' : A) :
  key_get d k = None -> key_set (d ++ [(k, v)]) k v' = d ++ [(k, v')].
Proof.
  induction d as [|[k0 v0] d IH]; cbn; [now rewrite key_eqb_refl |].
  destruct (key_eqb k0 k); [discriminate |]. intros H. now rewrite IH.
Qed.

Lemma concat_snd_app (d : list (dict_key * list pyval)) (k : dict_key) (v : list pyval) :
  concat (List.map snd (d ++ [(k, v)])) = concat (List.map snd d) ++ v.
Proof. rewrite List.map_app, concat_app. cbn. now rewrite app_nil_r. Qed.

Lemma nodup_snoc {A : Type} (l : list A) (a : A) :
  List.NoDup l -> ~ In a l -> List.NoDup (l ++ [a]).
Proof.
  induction 1 as [|x l Hx _ IH]; intros Ha; cbn.
  - constructor; [intros [] | constructor].
  - constructor.
    + intros Hin. apply in_app_or in Hin as [Hin | [<- | []]]; [now apply Hx |].
      apply Ha. now left.
    + apply IH. intros Hin. apply Ha. now right.
Qed.

(** The key made for the next item without id is not in the dict. *)
Lemma null_key_fresh (null_counter : nat) (groups : list (dict_key * list pyval)) :
  groups_ok null_counter groups -> key_get groups (null_key null_counter) = None.
Proof.
  intros [_ Hall]. apply key_get_none. intros Hin.
  apply in_map_iff in Hin as ([k v] & Hk & Hentry). cbn in Hk. subst k.
  rewrite List.Forall_forall in Hall.
  destruct (Hall _ Hentry) as [(j & item & Hj & Hkey & _) | (Hkey & _)]; cbn in Hkey.
  - apply null_key_inj in Hkey. lia.
  - now apply (Hkey null_counter).
Qed.

(** An item without id opens a group of its own, at the end. *)
Lemma groups_ok_null (null_counter : nat) (groups : list (dict_key * list pyval))
    (item : pyval) :
  groups_ok null_counter groups -> is_null item = true ->
  groups_ok (S null_counter) (groups ++ [(null_key null_counter, [item])]).
Proof.
  intros Hok Hnull. pose proof (null_key_fresh _ _ Hok) as Hfresh.
  destruct Hok as [Hkeys Hall]. split.
  - rewrite List.map_app. cbn. apply nodup_snoc; [exact Hkeys |].
    now apply key_get_none.
  - apply Forall_app. split.
    + eapply List.Forall_impl; [| exact Hall]. apply groups_ok_more.
    + constructor; [| constructor]. left. exists null_counter, item.
      repeat split; [lia | exact Hnull].
Qed.

(** An item with an id joins the group of its id, or opens it at the
    end. *)
Lemma groups_ok_keyed (null_counter : nat) (groups : list (dict_key * list pyval))
    (item : pyval) (k : dict_key) :
  groups_ok null_counter groups ->
  id_key item = Some k -> (forall j, k <> null_key j) ->
  exists groups',
    key_set (match key_get groups k with Some _ => groups | None => key_set groups k [] end) k
      (match key_get (match key_get groups k with
                      | Some _ => groups
                      | None => key_set groups k []
                      end) k with
       | Some g => g
       | None => []
       end ++ [item]) = groups' /\
    groups_ok null_counter groups' /\
    Permutation (concat (List.map snd groups')) (concat (List.map snd groups) ++ [item]).
Proof.
  intros [Hkeys Hall] Hid Hkey.
  destruct (key_get groups k) as [g|] eqn:Hget.
  - rewrite Hget.
    destruct (key_set_old groups k g (g ++ [item]) Hget) as (before & after & -> & ->).
    eexists. split; [reflexivity |]. split; [split |].
    + now rewrite List.map_app in *.
    + apply Forall_app in Hall as [Hbefore Hrest].
      apply Forall_cons in Hrest as [Hentry Hafter].
      apply Forall_app. split; [exact Hbefore |]. constructor; [| exact Hafter].
      right. cbn [fst snd]. split; [exact Hkey |]. split; [now destruct g |].
      destruct Hentry as [(j & item' & _ & Hk & _) | (_ & _ & Hitems)]; cbn [fst snd] in *.
      * now destruct (Hkey j).
      * apply Forall_app. split; [exact Hitems | now constructor].
    + rewrite !List.map_app, !concat_app. cbn [List.map snd concat].
      rewrite <- ?app_assoc. apply Permutation_app_head.
      rewrite <- ?app_assoc. apply Permutation_app_head.
      apply Permutation_app_comm.
  - rewrite (key_set_new groups k [] Hget), (key_get_app_new groups k [] Hget).
    rewrite (key_set_app_new groups k [] _ Hget). cbn [app].
    eexists. split; [reflexivity |]. split; [split |].
    + rewrite List.map_app. cbn. apply nodup_snoc; [exact Hkeys |].
      now apply key_get_none.
    + apply Forall_app. split; [exact Hall |]. constructor; [| constructor].
      right. cbn [fst snd]. split; [exact Hkey |]. split; [discriminate |].
      now constructor.
    + now rewrite concat_snd_app.
Qed.

(** The loop on items with plain ids: it returns, what it returns is
    well kept, and it holds the items that were in the groups before and
    the items of the loop, each once. *)
Lemma group_loop_ok (items : list pyval) :
  Forall (fun item => plain_id item = true) items ->
  forall null_counter groups,
    groups_ok null_counter groups ->
    exists null_counter' groups',
      group_loop items null_counter groups = Some (Returns groups') /\
      groups_ok null_counter' groups' /\
      Permutation (concat (List.map snd groups')) (concat (List.map snd groups) ++ items).
Proof.
  induction 1 as [|item items Hplain _ IH]; intros null_counter groups Hok.
  - exists null_counter, groups. split; [reflexivity |]. split; [exact Hok |].
    now rewrite app_nil_r.
  - cbn [group_loop].
    assert (Hcases : is_null item = true /\
                     py_get item "similarity_group_id" PNone = Returns PNone
                     \/ exists id k,
                         py_get item "similarity_group_id" PNone = Returns id /\
                         id <> PNone /\ key_of id = Key k /\ id_key item = Some k).
    { unfold plain_id, is_null, id_key, group_id_of in *.
      destruct (py_get item "similarity_group_id" PNone) as [[]|]; try discriminate;
        try (left; now split); right; eexists; eexists;
        (split; [reflexivity |]); (split; [discriminate |]); split; reflexivity. }
    destruct Hcases as [[Hnull ->] | (id & k & -> & Hid & Hkey & Hidkey)].
    + rewrite (key_set_new _ _ _ (null_key_fresh _ _ Hok)).
      destruct (IH (S null_counter) _ (groups_ok_null _ _ item Hok Hnull))
        as (null_counter' & groups' & Hrun & Hok' & Hperm).
      exists null_counter', groups'. split; [exact Hrun |]. split; [exact Hok' |].
      rewrite concat_snd_app, <- app_assoc in Hperm. exact Hperm.
    + destruct (groups_ok_keyed null_counter groups item k Hok Hidkey
                  (fun j => plain_key_not_null item k j Hplain Hidkey))
        as (groups1 & Hstep & Hok1 & Hperm1).
      destruct (IH null_counter groups1 Hok1) as (null_counter' & groups' & Hrun & Hok' & Hperm).
      exists null_counter', groups'. split; [| split; [exact Hok' |]].
      * destruct id; try congruence; rewrite Hkey; cbv zeta; rewrite Hstep; exact Hrun.
      * etransitivity; [exact Hperm |].
        rewrite (Permutation_app_tail items Hperm1). now rewrite <- app_assoc.
Qed.

Lemma is_null_no_key (item : pyval) : is_null item = true -> id_key item = None.
Proof.
  unfold is_null, id_key. destruct (group_id_of item) as [[]|]; try discriminate. reflexivity.
Qed.

(** Grouping loses no item and invents none, as long as no id is a float,
    a list or a dict, and no string id begins like the keys the function
    makes up for items without id. It then returns; the groups together
    hold every item exactly once, and no group is empty; an item without id
    is alone in its group; the items of one group have the same id, and
    items of different groups do not. *)
Theorem groups_hold_every_item_once (items : list pyval) :
  Forall (fun item => plain_id item = true) items ->
  exists groups,
    group_by_similarity items = Some (Returns groups) /\
    Permutation (concat groups) items /\
    Forall (fun g => g <> []) groups /\
    (forall g item, In g groups -> In item g -> is_null item = true -> g = [item]) /\
    (forall g a b,
        In g groups -> In a g -> In b g ->
        a = b \/ (id_key a = id_key b /\ id_key a <> None)) /\
    (forall i j g h a b,
        i <> j -> groups !! i = Some g -> groups !! j = Some h -> In a g -> In b h ->
        id_key a = id_key b -> id_key a = None).
Proof.
  intros Hplain.
  destruct (group_loop_ok items Hplain 0 [])
    as (null_counter & groups & Hrun & [Hkeys Hall] & Hperm).
  { split; constructor. }
  exists (List.map snd groups). unfold group_by_similarity. rewrite Hrun.
  split; [reflexivity |]. split; [exact Hperm |].
  rewrite List.Forall_forall in Hall.
  assert (Hentry : forall g, In g (List.map snd groups) ->
                             exists k, In (k, g) groups /\ group_entry_ok null_counter (k, g)).
  { intros g Hg. apply in_map_iff in Hg as ([k v] & <- & Hin). exists k. split; [exact Hin |].
    now apply Hall. }
  split; [| split; [| split]].
  - apply List.Forall_forall. intros g Hg.
    destruct (Hentry g Hg) as (k & _ & [(j & item & _ & _ & Hv & _) | (_ & Hv & _)]);
      cbn [snd] in Hv; [now rewrite Hv | exact Hv].
  - intros g item Hg Hitem Hnull.
    destruct (Hentry g Hg) as (k & _ & [(j & item' & _ & _ & Hv & _) | (_ & _ & Hv)]);
      cbn [fst snd] in Hv.
    + subst g. destruct Hitem as [<- | []]. reflexivity.
    + rewrite List.Forall_forall in Hv. specialize (Hv item Hitem).
      rewrite (is_null_no_key item Hnull) in Hv. discriminate.
  - intros g a b Hg Ha Hb.
    destruct (Hentry g Hg) as (k & _ & [(j & item' & _ & _ & Hv & _) | (_ & _ & Hv)]);
      cbn [fst snd] in Hv.
    + subst g. destruct Ha as [<- | []], Hb as [<- | []]. now left.
    + rewrite List.Forall_forall in Hv. right.
      rewrite (Hv a Ha), (Hv b Hb). split; [reflexivity | discriminate].
  - intros i j g h a b Hij Hi Hj Ha Hb Hsame.
    change (List.map snd groups) with (snd <$> groups) in Hi, Hj.
    rewrite list_lookup_fmap in Hi, Hj.
    destruct (groups !! i) as [[ki g']|] eqn:Hgi; [| discriminate]. injection Hi as ->.
    destruct (groups !! j) as [[kj h']|] eqn:Hgj; [| discriminate]. injection Hj as ->.
    assert (Hne : ki <> kj).
    { intros ->. apply Hij. apply NoDup_ListNoDup in Hkeys.
      apply (NoDup_lookup (List.map fst groups) i j kj Hkeys);
        change (List.map fst groups) with (fst <$> groups);
        rewrite list_lookup_fmap; [now rewrite Hgi | now rewrite Hgj]. }
    assert (Hin_i : In (ki, g) groups).
    { apply list_elem_of_In. eapply list_elem_of_lookup_2. exact Hgi. }
    assert (Hin_j : In (kj, h) groups).
    { apply list_elem_of_In. eapply list_elem_of_lookup_2. exact Hgj. }
    destruct (Hall _ Hin_i) as [(n & item' & _ & _ & Hv & Hnull) | (_ & _ & Hv)];
      cbn [fst snd] in Hv.
    + subst g. destruct Ha as [<- | []]. now apply is_null_no_key.
    + rewrite List.Forall_forall in Hv. specialize (Hv a Ha).
      destruct (Hall _ Hin_j) as [(n & item' & _ & _ & Hw & Hnull) | (_ & _ & Hw)];
        cbn [fst snd] in Hw.
      * subst h. destruct Hb as [<- | []].
        rewrite (is_null_no_key _ Hnull) in Hsame. exact Hsame.
      * rewrite List.Forall_forall in Hw. specialize (Hw b Hb). congruence.
Qed.

(** Five items: the two with the id 7 share a group, every other item has
    one of its own, in the order in which the groups were opened. *)
Lemma groups_hold_every_item_once_witness :
  Forall (fun item => plain_id item = true) example_items /\
  exists groups,
    group_by_similarity example_items = Some (Returns groups) /\
    groups = [ [item_with (PInt 7) "q1.png"; item_with (PInt 7) "q4.png"];
               [item_without_id "q2.png"];
               [item_with (PStr "a") "q3.png"];
               [item_with PNone "q5.png"] ] /\
    Permutation (concat groups) example_items.
Proof.
  assert (Hplain : Forall (fun item => plain_id item = true) example_items).
  { repeat constructor. }
  split; [exact Hplain |].
  destruct (groups_hold_every_item_once example_items Hplain) as (groups & Hrun & Hperm & _).
  exists groups. split; [exact Hrun |]. split; [| exact Hperm].
  vm_compute in Hrun. now injection Hrun as <-.
Defined.

(** Where an id is spelled like a made-up key, an item is lost: the item
    without id takes the place of the group filed under that key before. *)
Example made_up_key_replaces_a_group :
  group_by_similarity [item_with (PStr "__null_0") "q1.png"; item_without_id "q2.png"]
  = Some (Returns [[item_without_id "q2.png"]]).
Proof. reflexivity. Qed.

(** ** File names *)

Lemma underscore_runs_bytes (chars : list string) (in_run : bool) :
  Forall (fun c => is_kept c = true) chars ->
  Forall (fun b => is_word_byte b = true \/ b = 95%nat)
         (bytes_of (underscore_runs in_run chars)).
Proof.
  intros Hkept. revert in_run. induction Hkept as [|c chars Hc _ IH]; intros in_run.
  - constructor.
  - cbn [underscore_runs]. destruct (is_space c) eqn:Hspace.
    + destruct in_run; [apply IH |]. constructor; [now right | apply IH].
    + rewrite bytes_of_app. apply Forall_app. split; [| apply IH].
      unfold is_kept in Hc. rewrite Hspace in Hc.
      destruct (bytes_of c) as [|b [|b' bs]]; try discriminate.
      rewrite orb_false_r in Hc. constructor; [now left | constructor].
Qed.

Lemma lower_byte_safe (n : nat) :
  is_word_byte n = true \/ n = 95%nat ->
  is_name_byte (if (65 <=? n)%nat && (n <=? 90)%nat then n + 32 else n)%nat = true.
Proof.
  unfold is_word_byte, is_name_byte. intros [H | ->]; [| reflexivity].
  destruct (Nat.leb_spec 65 n), (Nat.leb_spec n 90); cbn [andb] in *;
    repeat match goal with
           | H : context [(?x <=? ?y)%nat] |- _ => destruct (Nat.leb_spec x y)
           | |- context [(?x <=? ?y)%nat] => destruct (Nat.leb_spec x y)
           | H : context [(?x =? ?y)%nat] |- _ => destruct (Nat.eqb_spec x y)
           | |- context [(?x =? ?y)%nat] => destruct (Nat.eqb_spec x y)
           end; cbn in *; try reflexivity; try discriminate; lia.
Qed.

Lemma ascii_lower_bytes (s : string) :
  Forall (fun b => is_word_byte b = true \/ b = 95%nat) (bytes_of s) ->
  Forall (fun b => is_name_byte b = true) (bytes_of (ascii_lower s)).
Proof.
  induction s as [|a s IH]; [constructor |].
  change (bytes_of (String a s)) with (nat_of_ascii a :: bytes_of s).
  intros H. apply Forall_cons in H as [Ha Hs]. cbn [ascii_lower]. cbv zeta.
  match goal with
  | |- Forall _ (bytes_of (String ?x _)) =>
      change (Forall (fun b => is_name_byte b = true)
                (nat_of_ascii x :: bytes_of (ascii_lower s)))
  end.
  constructor; [| now apply IH].
  pose proof (lower_byte_safe (nat_of_ascii a) Ha) as Hsafe.
  destruct ((65 <=? nat_of_ascii a)%nat && (nat_of_ascii a <=? 90)%nat) eqn:Hcap;
    [| exact Hsafe].
  rewrite nat_ascii_embedding; [exact Hsafe |].
  apply andb_true_iff in Hcap as [_ Hcap]. apply Nat.leb_le in Hcap. lia.
Qed.

Lemma word_byte_small (b : nat) : is_word_byte b = true \/ b = 95%nat -> (b < 128)%nat.
Proof.
  unfold is_word_byte. intros [H | ->]; [| lia].
  repeat match goal with
         | H : context [(?x <=? ?y)%nat] |- _ => destruct (Nat.leb_spec x y); try lia
         | H : context [(?x =? ?y)%nat] |- _ => destruct (Nat.eqb_spec x y); try lia
         end; cbn in *; try discriminate.
Qed.

(** Whatever the name of the category, the file name made from it is safe:
    it holds small letters, digits, hyphens and underscores of ASCII and
    nothing else, so no slash, no dot and no capital. All that is asked of
    [lower] is what it does on ASCII text. *)
Theorem sanitized_name_is_safe (lower : string -> string) (name : string) :
  (forall s, Forall (fun b => b < 128)%nat (bytes_of s) -> lower s = ascii_lower s) ->
  Forall (fun b => is_name_byte b = true) (bytes_of (sanitize_filename lower name)) /\
  ~ In 47%nat (bytes_of (sanitize_filename lower name)) /\
  ~ In 46%nat (bytes_of (sanitize_filename lower name)).
Proof.
  intros Hlower.
  assert (Hsafe : Forall (fun b => is_name_byte b = true)
                    (bytes_of (sanitize_filename lower name))).
  { unfold sanitize_filename. cbv zeta.
    set (chars := List.filter is_kept (characters (transliterate name))).
    assert (Hkept : Forall (fun c => is_kept c = true) chars).
    { apply List.Forall_forall. intros c Hc. now apply filter_In in Hc as [_ Hc]. }
    pose proof (underscore_runs_bytes chars false Hkept) as Hbytes.
    rewrite Hlower.
    - now apply ascii_lower_bytes.
    - eapply List.Forall_impl; [| exact Hbytes]. apply word_byte_small. }
  split; [exact Hsafe |].
  rewrite List.Forall_forall in Hsafe.
  split; intros Hin; apply Hsafe in Hin; discriminate Hin.
Qed.

Lemma lower_hu_ascii (s : string) :
  Forall (fun b => b < 128)%nat (bytes_of s) -> lower_hu s = ascii_lower s.
Proof.
  induction s as [|a s IH]; [reflexivity |].
  change (bytes_of (String a s)) with (nat_of_ascii a :: bytes_of s).
  intros H. apply Forall_cons in H as [Ha Hs]. specialize (IH Hs).
  cbn [lower_hu ascii_lower]. cbv zeta.
  destruct ((65 <=? nat_of_ascii a)%nat && (nat_of_ascii a <=? 90)%nat);
    [now rewrite IH |].
  destruct s as [|b s']; [reflexivity |].
  destruct (Nat.eqb_spec (nat_of_ascii a) 195); [lia |].
  destruct (Nat.eqb_spec (nat_of_ascii a) 197); [lia |].
  cbn [andb]. now rewrite IH.
Qed.

(** A name that tries to leave the folder. *)
Lemma sanitized_name_is_safe_witness :
  sanitize_filename lower_hu "../../etc/Passwd Ő.json" = "etcpasswd_ojson" /\
  ~ In 47%nat (bytes_of (sanitize_filename lower_hu "../../etc/Passwd Ő.json")).
Proof.
  split; [reflexivity |].
  destruct (sanitized_name_is_safe lower_hu "../../etc/Passwd Ő.json" lower_hu_ascii)
    as (_ & Hslash & _).
  exact Hslash.
Defined.

(** The eleven categories get eleven file names. *)
Example category_file_names :
  List.map (sanitize_filename lower_hu) CATEGORIES
  = [ "altalanos_anatomia_es_kortan"; "a_mozgas_szerv_rendszere"; "keringes";
      "legzorendszer"; "idegrendszer"; "kivalasztas_szervrendszere";
      "szaporodas_szervrendszere"; "a_neuroendokrin_rendszer";
      "az_erzekszervek_es_emlo"; "elsosegelynyujtas"; "emesztes" ] /\
  List.NoDup (List.map (sanitize_filename lower_hu) CATEGORIES).
Proof.
  split; [reflexivity |]. apply NoDup_ListNoDup. compute_done.
Qed.

(** Two labels that differ in their accents only get one file name: the
    file written second replaces the first. *)
Example accents_share_a_file_name :
  sanitize_filename lower_hu "Keringés" = sanitize_filename lower_hu "keringes".
Proof. reflexivity. Qed.

(** ** The script *)

(** *** The lists by category *)




(** *** The order of the files *)








(** *** The files *)




Section SplitterFacts.

Variable lower : string -> string.
Variable write : category_file -> write_outcome.






End SplitterFacts.



(** A category that is a number stops the script at the first file name,
    after the grouping. *)
Example number_for_a_category :
  split_main lower_hu write_named None (PList [categorized_item (PInt 3) PNone "q1.png"])
  = Some {| written := []; cut_short := None;
            split_raised := Some (attribute_error (PInt 3) "replace");
            skipped_files := [] |}.
Proof. reflexivity. Qed.

(** Two categories that differ in an accent get one file name: both files
    are written, and the folder holds the second. *)
Example one_name_for_two_categories :
  exists first second,
    split_main lower_hu write_named None (PList accent_data)
    = Some {| written := [first; second]; cut_short := None; split_raised := None;
              skipped_files := [] |} /\
    category_name first = PStr "Keringés" /\
    category_name second = PStr "Keringes" /\
    file_name first = "keringes.json" /\
    file_name second = "keringes.json" /\
    on_disk [first; second] "keringes.json" = Some second.
Proof. do 2 eexists. split; [vm_compute; reflexivity |]. vm_compute. repeat split. Qed.

(** A category whose name is too long for a file name stops the script at
    the [open]. *)
Example category_too_long_for_a_name :
  split_main lower_hu write_named None (PList long_data)
  = Some {| written := []; cut_short := None; split_raised := Some name_too_long;
            skipped_files := [] |}.
Proof. vm_compute. reflexivity. Qed.
